(** * Ranking-quality evaluation of Scripts/analysis.py

    A shallow embedding of [spearman_ds] and [ndcg_at_k] and the properties
    the design document states about them.

    Modelling conventions.
    - In the embedding of the whole function Python floats are modelled by
      the real numbers [R] of the Standard Library: arithmetic is exact and
      there is no NaN; a division whose divisor is zero is made observable
      as the exception [ZeroDivisionError].  This embedding settles what
      does not depend on rounding: outcomes, orderings, indices, the frame.
    - What depends on rounding or overflow (the scores of an ideal ordering,
      the range of the scores, baseline against prediction) is settled on
      [Binary64], a second embedding of the scoring stage over the IEEE 754
      binary64 numbers the program computes with.  Lemmas named [_exact]
      state what holds of the real-valued sums only.
    - A pandas DataFrame is a list of labelled columns.  The row index is not
      modelled; column labels are assumed distinct (see [wf_frame]).
    - [DataFrame.sort_values] is called by the source with its default
      [kind='quicksort'], whose order among equal keys pandas leaves
      unspecified.  The embedding is therefore parametric in a [sort_kind]:
      any function returning a permutation of the row positions that orders
      the key column.  [stable_kind] and [reversing_kind] are two such
      functions; they differ on rows with equal keys only.
    - Python exceptions are values of [exn]; a call returns a [result]
      together with the final state of the caller's frame.

    The modules at the end embed [encode] of Scripts/training.py and
    [most_common], [find_pam], [extract_koike_yusa], [extract_shalem] and
    [rescale] of Scripts/processing.py under the same conventions. *)

From Stdlib Require Import Floats.
From Stdlib Require Import String QArith ZArith Reals Lra Lia Bool.
From Stdlib Require Import List Permutation Sorted.
Import ListNotations.
Open Scope R_scope.

(** ** Exceptions *)

Inductive exn : Type :=
| IndexError
| KeyError
| ValueError
| ZeroDivisionError.

Inductive result (A : Type) : Type :=
| Ok (x : A)
| Raise (e : exn).
Arguments Ok {A} x.
Arguments Raise {A} e.

Definition bind {A B : Type} (m : result A) (f : A -> result B) : result B :=
  match m with
  | Ok x => f x
  | Raise e => Raise e
  end.

Notation "x <- m ;; k" := (bind m (fun x => k))
  (at level 61, m at next level, right associativity).

(** ** Numbers *)

(** [math.log2]. *)
Definition log2 (x : R) : R := ln x / ln 2.

(** Float division; a zero divisor is reported instead of yielding inf/NaN. *)
Definition fdiv (x y : R) : result R :=
  if Req_dec_T y 0 then Raise ZeroDivisionError else Ok (x / y).

(** ** Sequences *)

Definition Series := list R.

(** Python subscript [l[i]] with an integer that may be negative. *)
Definition py_index {A : Type} (l : list A) (i : Z) : result A :=
  let n := Z.of_nat (length l) in
  let j := if (i <? 0)%Z then (n + i)%Z else i in
  if ((0 <=? j)%Z && (j <? n)%Z)%bool then
    match nth_error l (Z.to_nat j) with
    | Some x => Ok x
    | None => Raise IndexError
    end
  else Raise IndexError.

(** [l[i]] for a loop counter [i >= 0]. *)
Definition getitem {A : Type} (l : list A) (i : nat) : result A :=
  match nth_error l i with
  | Some x => Ok x
  | None => Raise IndexError
  end.

(** Reordering of a column by a list of row positions. *)
Definition take (idx : list nat) (v : Series) : Series :=
  map (fun i => nth i v 0) idx.

Fixpoint insert_desc (x : R) (l : list R) : list R :=
  match l with
  | [] => [x]
  | y :: t => if Rle_dec y x then x :: y :: t else y :: insert_desc x t
  end.

(** [sorted(l, reverse=True)]. *)
Definition sorted_rev (l : list R) : list R := fold_right insert_desc [] l.

Fixpoint insert_asc (x : R) (l : list R) : list R :=
  match l with
  | [] => [x]
  | y :: t => if Rle_dec x y then x :: y :: t else y :: insert_asc x t
  end.

(** The values of a column in ascending order. *)
Definition sort_asc (l : list R) : list R := fold_right insert_asc [] l.

(** ** Sorting rows *)

(** The order requested from [sort_values]. *)
Definition ord (ascending : bool) (x y : R) : Prop :=
  if ascending then x <= y else y <= x.

(** What [sort_values] guarantees whatever its [kind]: the row positions in
    output order are a permutation of [0 .. n-1] and the key column read in
    that order is monotone. *)
Record sort_kind : Type := {
  argsort : bool -> Series -> list nat;
  argsort_perm : forall asc keys,
      Permutation (argsort asc keys) (seq 0 (length keys));
  argsort_sorted : forall asc keys,
      StronglySorted (ord asc) (take (argsort asc keys) keys)
}.

(** ** Frames *)

Definition DataFrame := list (string * Series).

(** [ds.iloc[:, c]]. *)
Definition iloc (ds : DataFrame) (c : Z) : result Series :=
  col <- py_index ds c ;; Ok (snd col).

(** [ds.columns[c]]. *)
Definition columns (ds : DataFrame) (c : Z) : result string :=
  col <- py_index ds c ;; Ok (fst col).

(** [ds[label]]. *)
Fixpoint get_col (ds : DataFrame) (label : string) : result Series :=
  match ds with
  | [] => Raise KeyError
  | (l, v) :: rest => if String.eqb l label then Ok v else get_col rest label
  end.

(** [ds[label] = v]: overwrites the column of that label, or appends one. *)
Fixpoint setitem (ds : DataFrame) (label : string) (v : Series) : DataFrame :=
  match ds with
  | [] => [(label, v)]
  | (l, w) :: rest =>
      if String.eqb l label then (l, v) :: rest
      else (l, w) :: setitem rest label v
  end.

(** [ds.sort_values(by=label, ascending=asc)]: a new frame, the caller's
    frame is not touched. *)
Definition sort_values (K : sort_kind) (ds : DataFrame) (by_ : string)
    (asc : bool) : result DataFrame :=
  keys <- get_col ds by_ ;;
  let idx := argsort K asc keys in
  Ok (map (fun col => (fst col, take idx (snd col))) ds).

(** ** RelevanceBinner: [Series.quantile] and [pd.cut] *)

Definition quantile_list : list Q := [0; 1#5; 2#5; 3#5; 4#5; 1]%Q.

Definition labels : list nat := [0; 1; 2; 3; 4]%nat.

(** [Series.quantile(q)] with the default linear interpolation: position
    [q * (n-1)] in the ascending values. *)
Definition quantile1 (s : Series) (q : Q) : R :=
  let v := sort_asc s in
  let num := (Qnum q * (Z.of_nat (length s) - 1))%Z in
  let den := Zpos (Qden q) in
  let lo := Z.to_nat (num / den) in
  let fr := (num mod den)%Z in
  nth lo v 0 + (nth (S lo) v 0 - nth lo v 0) * (IZR fr / IZR den).

(** On an empty column pandas yields NaN for every quantile and [pd.cut]
    then rejects the edges as not unique; with no NaN in the model the
    rejection is raised here. *)
Definition quantile (s : Series) (qs : list Q) : result (list R) :=
  match s with
  | [] => Raise ValueError
  | _ => Ok (map (quantile1 s) qs)
  end.

Fixpoint increasing (l : list R) : bool :=
  match l with
  | x :: (y :: _) as t => if Rlt_dec x y then increasing t else false
  | _ => true
  end.

(** [bins.searchsorted(x, side='left')]: how many edges lie strictly below. *)
Definition searchsorted (edges : list R) (x : R) : nat :=
  length (filter (fun e => if Rlt_dec e x then true else false) edges).

(** The grade of one value: interval [(e_i, e_{i+1}]] gets [labels[i]], and
    the lowest edge itself belongs to the first interval.  A value outside
    every interval (pandas: a missing grade) is reported as [ValueError]. *)
Definition cut1 (edges : list R) (labs : list nat) (x : R) : result R :=
  let ids := if Req_dec_T x (nth 0 edges 0) then 1%nat
             else searchsorted edges x in
  if ((ids =? 0)%nat || (ids =? length edges)%nat)%bool then Raise ValueError
  else match nth_error labs (ids - 1) with
       | Some g => Ok (INR g)
       | None => Raise ValueError
       end.

Fixpoint mapM {A B : Type} (f : A -> result B) (l : list A) : result (list B) :=
  match l with
  | [] => Ok []
  | x :: t => y <- f x ;; ys <- mapM f t ;; Ok (y :: ys)
  end.

(** [pd.cut(x, bins, labels=labs, include_lowest=True)]: edges that are not
    strictly increasing are refused. *)
Definition cut (x : Series) (edges : list R) (labs : list nat) : result Series :=
  if increasing edges then
    if (length labs =? length edges - 1)%nat then mapM (cut1 edges labs) x
    else Raise ValueError
  else Raise ValueError.

(** ** Ranker: lines 46-77 of [ndcg_at_k]

    Returns the evaluation ordering [y_pred] and the caller's frame as the
    call leaves it. *)
Definition ranker (K : sort_kind) (ds : DataFrame) (actual_col pred_col : Z)
    (bins reverse : bool) : result Series * DataFrame :=
  if bins then
    match (actual <- iloc ds (actual_col - 1) ;;
           edges <- quantile actual quantile_list ;;
           cut actual edges labels) with
    | Raise e => (Raise e, ds)
    | Ok binned =>
        let ds := setitem ds "binned"%string binned in
        if reverse then
          (by_ <- columns ds (actual_col - 1) ;;
           ds_sort <- sort_values K ds by_ true ;;
           get_col ds_sort "binned"%string, ds)
        else
          (by_ <- columns ds (pred_col - 1) ;;
           ds_sort <- sort_values K ds by_ false ;;
           get_col ds_sort "binned"%string, ds)
    end
  else
    if reverse then
      (by_ <- columns ds (actual_col - 1) ;;
       ds_sort <- sort_values K ds by_ true ;;
       iloc ds_sort (actual_col - 1), ds)
    else
      (by_ <- columns ds (pred_col - 1) ;;
       ds_sort <- sort_values K ds by_ false ;;
       iloc ds_sort (actual_col - 1), ds).

(** ** GainAccumulator and NormalizedScorer: lines 84-95 *)

Record acc : Type := {
  acc_a : R;
  acc_b : R;
  acc_thr : list Z;
  acc_score : list R
}.

Definition acc0 : acc :=
  {| acc_a := 0; acc_b := 0; acc_thr := []; acc_score := [] |}.

(** One iteration of the [for] loop. *)
Definition body (y_pred Y_test : Series) (st : acc) (i : nat) : result acc :=
  y <- getitem y_pred i ;;
  g <- fdiv y (log2 (INR (i + 2))) ;;
  let a := acc_a st + g in
  t <- getitem Y_test i ;;
  h <- fdiv t (log2 (INR (i + 2))) ;;
  let b := acc_b st + h in
  let thr := acc_thr st ++ [Z.of_nat i] in
  s <- (if Req_dec_T b 0 then Ok 0 else fdiv a b) ;;
  Ok {| acc_a := a; acc_b := b; acc_thr := thr;
        acc_score := acc_score st ++ [s] |}.

Fixpoint loop (y_pred Y_test : Series) (is_ : list nat) (st : acc) : result acc :=
  match is_ with
  | [] => Ok st
  | i :: rest => st' <- body y_pred Y_test st i ;; loop y_pred Y_test rest st'
  end.

(** [range(0, k)]. *)
Definition range0 (k : Z) : list nat := seq 0 (Z.to_nat k).

(** ** ndcg_at_k *)

Inductive retval : Type :=
| Scalar (s : R)
| Pair (score : list R) (thr : list Z).

Definition scores (y_pred : Series) (k : Z) (multiple : bool) : result retval :=
  let Y_test := sorted_rev y_pred in
  st <- loop y_pred Y_test (range0 k) acc0 ;;
  if multiple then Ok (Pair (acc_score st) (acc_thr st))
  else s <- py_index (acc_score st) (-1) ;; Ok (Scalar s).

Definition ndcg_at_k (K : sort_kind) (ds : DataFrame) (k : Z)
    (actual_col pred_col : Z) (bins reverse multiple : bool)
  : result retval * DataFrame :=
  let (r, ds) := ranker K ds actual_col pred_col bins reverse in
  (y_pred <- r ;; scores y_pred k multiple, ds).

(** ** CorrelationScorer: [spearman_ds] *)

Inductive nan_policy : Type := propagate | raise | omit.

Definition Rsum (l : list R) : R := fold_right Rplus 0 l.

Definition mean (l : Series) : R := Rsum l / INR (length l).

(** The average rank of [x] among the values of [l]: ranks start at 1 and
    equal values share the mean of the ranks they occupy. *)
Definition rank (l : Series) (x : R) : R :=
  INR (length (filter (fun e => if Rlt_dec e x then true else false) l))
  + (INR (length (filter (fun e => if Req_dec_T e x then true else false) l)) + 1)
    / 2.

Definition rankdata (l : Series) : Series := map (rank l) l.

(** Sum of the products of the deviations from the means. *)
Definition codev (xs ys : Series) : R :=
  Rsum (map (fun p => (fst p - mean xs) * (snd p - mean ys)) (combine xs ys)).

Definition pearson (xs ys : Series) : result R :=
  fdiv (codev xs ys) (sqrt (codev xs xs * codev ys ys)).

(** Modelled from the spec: [scipy.stats.spearmanr] is a library function
    whose code is outside the repository.  Following section 4.5 and the
    glossary of the design document it is the correlation coefficient of the
    ranks of the two aligned sequences.  The frames of this model hold no
    missing value, so the three missing-value policies agree; the p-value is
    left to the parameter [pvalue], a function of the coefficient and the
    number of pairs.  A coefficient that is undefined (constant ranks) shows
    as [ZeroDivisionError]. *)
Definition spearmanr (pvalue : R -> nat -> R) (x y : Series)
    (policy : nan_policy) : result (R * R) :=
  if (length x =? length y)%nat then
    rs <- pearson (rankdata x) (rankdata y) ;;
    Ok (rs, pvalue rs (length x))
  else Raise ValueError.

Inductive correlation : Type :=
| Coefficient (rs : R)
| WithPvalue (rs pval : R).

Definition spearman_ds (pvalue : R -> nat -> R) (ds : DataFrame)
    (actual_col pred_col : Z) (p_value : bool) (policy : nan_policy)
  : result correlation :=
  x <- iloc ds (actual_col - 1) ;;
  y <- iloc ds (pred_col - 1) ;;
  sp <- spearmanr pvalue x y policy ;;
  if negb p_value then Ok (Coefficient (fst sp))
  else Ok (WithPvalue (fst sp) (snd sp)).

(** ** A stable instance of [sort_kind]

    Insertion of row positions from the right: a position is placed in front
    of the first later row whose key does not have to precede it, so rows
    with equal keys keep their original order. *)

Definition ord_dec (asc : bool) (x y : R) : {ord asc x y} + {~ ord asc x y} :=
  match asc return {ord asc x y} + {~ ord asc x y} with
  | true => Rle_dec x y
  | false => Rle_dec y x
  end.

Fixpoint insert_idx (asc : bool) (keys : Series) (i : nat) (idx : list nat)
  : list nat :=
  match idx with
  | [] => [i]
  | j :: t =>
      if ord_dec asc (nth i keys 0) (nth j keys 0) then i :: j :: t
      else j :: insert_idx asc keys i t
  end.

Definition stable_argsort (asc : bool) (keys : Series) : list nat :=
  fold_right (insert_idx asc keys) [] (seq 0 (length keys)).

Lemma ord_total (asc : bool) (x y : R) : ~ ord asc x y -> ord asc y x.
Proof. destruct asc; simpl; lra. Qed.

Lemma ord_trans (asc : bool) (x y z : R) :
  ord asc x y -> ord asc y z -> ord asc x z.
Proof. destruct asc; simpl; lra. Qed.

Lemma ord_antisym (asc : bool) (x y : R) : ord asc x y -> ord asc y x -> x = y.
Proof. destruct asc; simpl; lra. Qed.

Lemma insert_idx_perm (asc : bool) (keys : Series) (i : nat) (idx : list nat) :
  Permutation (insert_idx asc keys i idx) (i :: idx).
Proof.
  induction idx as [|j t IH]; simpl.
  - apply Permutation_refl.
  - destruct (ord_dec asc (nth i keys 0) (nth j keys 0)).
    + apply Permutation_refl.
    + apply perm_trans with (j :: i :: t).
      * now apply perm_skip.
      * apply perm_swap.
Qed.

Lemma insert_idx_sorted (asc : bool) (keys : Series) (i : nat) (idx : list nat) :
  StronglySorted (ord asc) (take idx keys) ->
  StronglySorted (ord asc) (take (insert_idx asc keys i idx) keys).
Proof.
  unfold take.
  induction idx as [|j t IH]; simpl; intros Hs.
  - constructor; constructor.
  - destruct (ord_dec asc (nth i keys 0) (nth j keys 0)) as [Hle|Hnle]; simpl.
    + constructor; [exact Hs|].
      inversion Hs as [|? ? Ht Hall]; subst.
      constructor; [exact Hle|].
      eapply Forall_impl; [|exact Hall].
      intros z Hz. eapply ord_trans; eauto.
    + inversion Hs as [|? ? Ht Hall]; subst.
      constructor; [now apply IH|].
      apply Forall_forall. intros z Hz.
      apply in_map_iff in Hz. destruct Hz as [m [<- Hm]].
      apply (Permutation_in _ (insert_idx_perm asc keys i t)) in Hm.
      destruct Hm as [<-|Hm].
      * now apply ord_total.
      * rewrite Forall_forall in Hall. apply Hall.
        apply in_map_iff. now exists m.
Qed.

Lemma stable_argsort_perm (asc : bool) (keys : Series) :
  Permutation (stable_argsort asc keys) (seq 0 (length keys)).
Proof.
  unfold stable_argsort.
  induction (seq 0 (length keys)) as [|i t IH]; simpl.
  - constructor.
  - eapply perm_trans; [apply insert_idx_perm|]. now apply perm_skip.
Qed.

Lemma stable_argsort_sorted (asc : bool) (keys : Series) :
  StronglySorted (ord asc) (take (stable_argsort asc keys) keys).
Proof.
  unfold stable_argsort.
  induction (seq 0 (length keys)) as [|i t IH]; simpl.
  - constructor.
  - now apply insert_idx_sorted.
Qed.

Definition stable_kind : sort_kind :=
  {| argsort := stable_argsort;
     argsort_perm := stable_argsort_perm;
     argsort_sorted := stable_argsort_sorted |}.

(** ** An instance of [sort_kind] that reverses ties

    The same insertion, but a position is moved past every later row whose
    key may precede it: rows with equal keys come out in reverse order.  It
    meets everything [sort_values] promises for its default kind. *)

Fixpoint insert_after (asc : bool) (keys : Series) (i : nat) (idx : list nat)
  : list nat :=
  match idx with
  | [] => [i]
  | j :: t =>
      if ord_dec asc (nth j keys 0) (nth i keys 0)
      then j :: insert_after asc keys i t
      else i :: j :: t
  end.

Definition reversing_argsort (asc : bool) (keys : Series) : list nat :=
  fold_right (insert_after asc keys) [] (seq 0 (length keys)).

Lemma insert_after_perm (asc : bool) (keys : Series) (i : nat) (idx : list nat) :
  Permutation (insert_after asc keys i idx) (i :: idx).
Proof.
  induction idx as [|j t IH]; simpl.
  - apply Permutation_refl.
  - destruct (ord_dec asc (nth j keys 0) (nth i keys 0)).
    + apply perm_trans with (j :: i :: t); [now apply perm_skip|apply perm_swap].
    + apply Permutation_refl.
Qed.

Lemma insert_after_sorted (asc : bool) (keys : Series) (i : nat)
    (idx : list nat) :
  StronglySorted (ord asc) (take idx keys) ->
  StronglySorted (ord asc) (take (insert_after asc keys i idx) keys).
Proof.
  unfold take.
  induction idx as [|j t IH]; simpl; intros Hs.
  - constructor; constructor.
  - inversion Hs as [|? ? Ht Hall]; subst.
    destruct (ord_dec asc (nth j keys 0) (nth i keys 0)) as [Hle|Hnle]; simpl.
    + constructor; [now apply IH|].
      apply Forall_forall. intros z Hz.
      apply in_map_iff in Hz. destruct Hz as [m [<- Hm]].
      apply (Permutation_in _ (insert_after_perm asc keys i t)) in Hm.
      destruct Hm as [<-|Hm]; [exact Hle|].
      rewrite Forall_forall in Hall. apply Hall.
      apply in_map_iff. now exists m.
    + apply ord_total in Hnle.
      constructor; [exact Hs|].
      constructor; [exact Hnle|].
      eapply Forall_impl; [|exact Hall].
      intros z Hz. eapply ord_trans; eauto.
Qed.

Lemma reversing_argsort_perm (asc : bool) (keys : Series) :
  Permutation (reversing_argsort asc keys) (seq 0 (length keys)).
Proof.
  unfold reversing_argsort.
  induction (seq 0 (length keys)) as [|i t IH]; simpl.
  - constructor.
  - eapply perm_trans; [apply insert_after_perm|]. now apply perm_skip.
Qed.

Lemma reversing_argsort_sorted (asc : bool) (keys : Series) :
  StronglySorted (ord asc) (take (reversing_argsort asc keys) keys).
Proof.
  unfold reversing_argsort.
  induction (seq 0 (length keys)) as [|i t IH]; simpl.
  - constructor.
  - now apply insert_after_sorted.
Qed.

Definition reversing_kind : sort_kind :=
  {| argsort := reversing_argsort;
     argsort_perm := reversing_argsort_perm;
     argsort_sorted := reversing_argsort_sorted |}.

(** ** Specification-level quantities *)

(** The logarithmically discounted gain of the first [i] entries of [r]:
    the value of the accumulators [a] and [b] after [i] iterations. *)
Fixpoint dcg (r : Series) (i : nat) : R :=
  match i with
  | O => 0
  | S j => dcg r j + nth j r 0 / log2 (INR (j + 2))
  end.

(** The score appended at iteration [i-1], i.e. for the prefix of length [i]. *)
Definition score_at (y_pred : Series) (i : nat) : R :=
  let a := dcg y_pred i in
  let b := dcg (sorted_rev y_pred) i in
  if Req_dec_T b 0 then 0 else a / b.

(** A sum of the entries of [l] weighted by position. *)
Fixpoint wsum (w : nat -> R) (l : list R) : R :=
  match l with
  | [] => 0
  | x :: t => w O * x + wsum (fun j => w (S j)) t
  end.

(** The discount of position [j] when only the first [k] positions count. *)
Definition discount (k j : nat) : R :=
  if (j <? k)%nat then / log2 (INR (j + 2)) else 0.

Definition decreasing (w : nat -> R) : Prop := forall j, w (S j) <= w j.

(** Frames as pandas keeps them: distinct labels, columns of one length. *)
Definition wf_frame (ds : DataFrame) (n : nat) : Prop :=
  NoDup (map fst ds) /\ Forall (fun col => length (snd col) = n) ds.

(** The two-column batch of the design document. *)
Definition batch (actual predicted : Series) : DataFrame :=
  [("actual"%string, actual); ("predicted"%string, predicted)].

(** The accumulators after [m] iterations. *)
Definition state_at (y_pred : Series) (m : nat) : acc :=
  {| acc_a := dcg y_pred m;
     acc_b := dcg (sorted_rev y_pred) m;
     acc_thr := map Z.of_nat (seq 0 m);
     acc_score := map (fun i => score_at y_pred (S i)) (seq 0 m) |}.

(** The binning step of the ranking stage. *)
Definition binned_of (ds : DataFrame) (actual_col : Z) : result Series :=
  actual <- iloc ds (actual_col - 1) ;;
  edges <- quantile actual quantile_list ;;
  cut actual edges labels.

(** The sort, and the column read from the sorted frame. *)
Definition ordered_by (K : sort_kind) (ds : DataFrame) (c : Z) (asc : bool)
    (read : DataFrame -> result Series) : result Series :=
  by_ <- columns ds c ;; ds_sort <- sort_values K ds by_ asc ;; read ds_sort.

(** The scores a call returned, whatever the output mode. *)
Definition retval_scores (r : retval) : list R :=
  match r with
  | Scalar s => [s]
  | Pair score _ => score
  end.

Definition scenario : DataFrame := batch [0.9; 0.1; 0.5] [0.2; 0.8; 0.5].

Definition zeros : DataFrame := batch [0; 0] [2; 1].


Definition ties : DataFrame := batch [1; 2] [5; 5].


(** ** Facts about [log2] *)

Lemma ln_2_pos : 0 < ln 2.
Proof. pose proof ln_lt_2. lra. Qed.

Lemma log2_2 : log2 2 = 1.
Proof. unfold log2. field. pose proof ln_2_pos. lra. Qed.

Lemma log2_ge_1 (x : R) : 2 <= x -> 1 <= log2 x.
Proof.
  intros Hx. unfold log2. pose proof ln_2_pos as H2.
  assert (ln 2 <= ln x).
  { destruct Hx as [Hx|<-]; [|lra]. left. apply ln_increasing; lra. }
  apply Rmult_le_reg_r with (ln 2); [exact H2|].
  unfold Rdiv. rewrite Rmult_assoc, Rinv_l by lra. lra.
Qed.

Lemma log2_mono (x y : R) : 0 < x -> x <= y -> log2 x <= log2 y.
Proof.
  intros Hx Hxy. unfold log2. pose proof ln_2_pos as H2.
  assert (ln x <= ln y).
  { destruct Hxy as [Hxy|<-]; [|lra]. left. now apply ln_increasing. }
  apply Rmult_le_compat_r; [|assumption].
  left. now apply Rinv_0_lt_compat.
Qed.

Lemma INR_plus2 (i : nat) : 2 <= INR (i + 2).
Proof. rewrite plus_INR. simpl. pose proof (pos_INR i). lra. Qed.

Lemma log2_idx_pos (i : nat) : 0 < log2 (INR (i + 2)).
Proof. pose proof (log2_ge_1 _ (INR_plus2 i)). lra. Qed.

Lemma fdiv_log2 (y : R) (i : nat) :
  fdiv y (log2 (INR (i + 2))) = Ok (y / log2 (INR (i + 2))).
Proof.
  unfold fdiv. destruct (Req_dec_T _ 0) as [E|_]; [|reflexivity].
  pose proof (log2_idx_pos i). lra.
Qed.

Lemma discount_nonneg (k j : nat) : 0 <= discount k j.
Proof.
  unfold discount. destruct (j <? k)%nat; [|lra].
  left. apply Rinv_0_lt_compat, log2_idx_pos.
Qed.

Lemma discount_decreasing (k : nat) : decreasing (discount k).
Proof.
  intros j. unfold discount.
  destruct (S j <? k)%nat eqn:E1.
  - assert (E2 : (j <? k)%nat = true).
    { apply Nat.ltb_lt in E1. apply Nat.ltb_lt. lia. }
    rewrite E2. apply Rinv_le_contravar; [apply log2_idx_pos|].
    apply log2_mono.
    + pose proof (INR_plus2 j). lra.
    + apply le_INR. lia.
  - destruct (j <? k)%nat; [|lra].
    left. apply Rinv_0_lt_compat, log2_idx_pos.
Qed.

(** ** Weighted sums and the rearrangement inequality *)

Lemma wsum_ext (u v : nat -> R) (l : list R) :
  (forall j, u j = v j) -> wsum u l = wsum v l.
Proof.
  revert u v. induction l as [|x t IH]; intros u v E; simpl.
  - reflexivity.
  - rewrite E. f_equal. apply IH. intros j. apply E.
Qed.

Lemma wsum_plus (u v : nat -> R) (l : list R) :
  wsum (fun j => u j + v j) l = wsum u l + wsum v l.
Proof.
  revert u v. induction l as [|x t IH]; intros u v; simpl.
  - lra.
  - rewrite (IH (fun j => u (S j)) (fun j => v (S j))). lra.
Qed.

Lemma wsum_zero (l : list R) : wsum (fun _ => 0) l = 0.
Proof. induction l as [|x t IH]; simpl; [reflexivity|]. rewrite IH. lra. Qed.

Lemma wsum_delta (c : R) (k : nat) (l : list R) :
  wsum (fun j => if (j =? k)%nat then c else 0) l = nth k l 0 * c.
Proof.
  revert k. induction l as [|x t IH]; intros k; simpl.
  - destruct k; lra.
  - destruct k as [|k]; simpl.
    + rewrite wsum_zero. lra.
    + rewrite IH. lra.
Qed.

Lemma discount_succ (k j : nat) :
  discount (S k) j =
  discount k j + (if (j =? k)%nat then / log2 (INR (k + 2)) else 0).
Proof.
  unfold discount.
  destruct (Nat.eqb_spec j k) as [->|Hne].
  - rewrite Nat.ltb_irrefl.
    replace (k <? S k)%nat with true by (symmetry; apply Nat.ltb_lt; lia). lra.
  - destruct (j <? k)%nat eqn:E.
    + replace (j <? S k)%nat with true.
      * lra.
      * symmetry. apply Nat.ltb_lt. apply Nat.ltb_lt in E. lia.
    + replace (j <? S k)%nat with false.
      * lra.
      * symmetry. apply Nat.ltb_ge. apply Nat.ltb_ge in E. lia.
Qed.

(** The accumulator of the loop is a weighted sum of the whole ordering. *)
Lemma dcg_wsum (r : Series) (k : nat) : dcg r k = wsum (discount k) r.
Proof.
  induction k as [|k IH]; simpl.
  - rewrite (wsum_ext _ (fun _ => 0)); [now rewrite wsum_zero|].
    intros j. reflexivity.
  - rewrite (wsum_ext _ _ r (discount_succ k)), wsum_plus, wsum_delta, IH.
    unfold Rdiv. reflexivity.
Qed.

Lemma decreasing_shift (w : nat -> R) :
  decreasing w -> decreasing (fun j => w (S j)).
Proof. intros H j. apply H. Qed.

(** Moving an entry to its place in descending order cannot lower the sum. *)
Lemma wsum_insert_desc (w : nat -> R) (x : R) (s : list R) :
  decreasing w ->
  w O * x + wsum (fun j => w (S j)) s <= wsum w (insert_desc x s).
Proof.
  revert w. induction s as [|y t IH]; intros w Hw; simpl.
  - lra.
  - destruct (Rle_dec y x) as [Hyx|Hyx]; simpl.
    + lra.
    + specialize (IH (fun j => w (S j)) (decreasing_shift w Hw)).
      simpl in IH. pose proof (Hw O). nra.
Qed.

(** Moving an entry to its place in ascending order cannot raise the sum. *)
Lemma wsum_insert_asc (w : nat -> R) (x : R) (s : list R) :
  decreasing w ->
  wsum w (insert_asc x s) <= w O * x + wsum (fun j => w (S j)) s.
Proof.
  revert w. induction s as [|y t IH]; intros w Hw; simpl.
  - lra.
  - destruct (Rle_dec x y) as [Hxy|Hxy]; simpl.
    + lra.
    + specialize (IH (fun j => w (S j)) (decreasing_shift w Hw)).
      simpl in IH. pose proof (Hw O). nra.
Qed.

Lemma wsum_sorted_rev (w : nat -> R) (l : list R) :
  decreasing w -> wsum w l <= wsum w (sorted_rev l).
Proof.
  revert w. induction l as [|x t IH]; intros w Hw; simpl.
  - lra.
  - eapply Rle_trans; [|apply wsum_insert_desc; exact Hw].
    specialize (IH _ (decreasing_shift w Hw)). lra.
Qed.

Lemma wsum_sort_asc (w : nat -> R) (l : list R) :
  decreasing w -> wsum w (sort_asc l) <= wsum w l.
Proof.
  revert w. induction l as [|x t IH]; intros w Hw; simpl.
  - lra.
  - eapply Rle_trans; [apply wsum_insert_asc; exact Hw|].
    specialize (IH _ (decreasing_shift w Hw)). lra.
Qed.

(** No ordering gains more than the ideal one, at any prefix. *)
Lemma dcg_le_ideal (r : Series) (i : nat) : dcg r i <= dcg (sorted_rev r) i.
Proof. rewrite !dcg_wsum. apply wsum_sorted_rev, discount_decreasing. Qed.

(** No ordering gains less than the ascending one, at any prefix. *)
Lemma dcg_ge_worst (r : Series) (i : nat) : dcg (sort_asc r) i <= dcg r i.
Proof. rewrite !dcg_wsum. apply wsum_sort_asc, discount_decreasing. Qed.

Lemma wsum_nonneg (w : nat -> R) (l : list R) :
  (forall j, 0 <= w j) -> Forall (fun x => 0 <= x) l -> 0 <= wsum w l.
Proof.
  revert w. induction l as [|x t IH]; intros w Hw Hl; simpl.
  - lra.
  - inversion Hl; subst.
    specialize (IH (fun j => w (S j)) (fun j => Hw (S j)) H2).
    pose proof (Hw O). nra.
Qed.

Lemma dcg_nonneg (r : Series) (i : nat) :
  Forall (fun x => 0 <= x) r -> 0 <= dcg r i.
Proof. intros H. rewrite dcg_wsum. apply wsum_nonneg; [apply discount_nonneg|exact H]. Qed.

(** ** Python's [sorted] *)

Lemma insert_desc_length (x : R) (l : list R) :
  length (insert_desc x l) = S (length l).
Proof.
  induction l as [|y t IH]; simpl; [reflexivity|].
  destruct (Rle_dec y x); simpl; [reflexivity|now rewrite IH].
Qed.

Lemma sorted_rev_length (l : list R) : length (sorted_rev l) = length l.
Proof.
  induction l as [|x t IH]; simpl; [reflexivity|].
  now rewrite insert_desc_length, IH.
Qed.

Lemma insert_desc_perm (x : R) (l : list R) :
  Permutation (insert_desc x l) (x :: l).
Proof.
  induction l as [|y t IH]; simpl; [apply Permutation_refl|].
  destruct (Rle_dec y x); [apply Permutation_refl|].
  eapply perm_trans; [apply perm_skip, IH|apply perm_swap].
Qed.

Lemma sorted_rev_perm (l : list R) : Permutation (sorted_rev l) l.
Proof.
  induction l as [|x t IH]; simpl; [constructor|].
  eapply perm_trans; [apply insert_desc_perm|now apply perm_skip].
Qed.

Lemma insert_asc_perm (x : R) (l : list R) :
  Permutation (insert_asc x l) (x :: l).
Proof.
  induction l as [|y t IH]; simpl; [apply Permutation_refl|].
  destruct (Rle_dec x y); [apply Permutation_refl|].
  eapply perm_trans; [apply perm_skip, IH|apply perm_swap].
Qed.

Lemma sort_asc_perm (l : list R) : Permutation (sort_asc l) l.
Proof.
  induction l as [|x t IH]; simpl; [constructor|].
  eapply perm_trans; [apply insert_asc_perm|now apply perm_skip].
Qed.

Lemma insert_desc_sorted (x : R) (l : list R) :
  StronglySorted (ord false) l -> StronglySorted (ord false) (insert_desc x l).
Proof.
  induction l as [|y t IH]; simpl; intros Hs.
  - constructor; constructor.
  - inversion Hs as [|? ? Ht Hall]; subst.
    destruct (Rle_dec y x) as [Hyx|Hyx].
    + constructor; [exact Hs|]. constructor; [exact Hyx|].
      eapply Forall_impl; [|exact Hall]. simpl. intros z Hz. lra.
    + constructor; [now apply IH|].
      apply Forall_forall. intros z Hz.
      apply (Permutation_in _ (insert_desc_perm x t)) in Hz.
      destruct Hz as [<-|Hz]; simpl; [lra|].
      rewrite Forall_forall in Hall. now apply Hall.
Qed.

Lemma sorted_rev_sorted (l : list R) : StronglySorted (ord false) (sorted_rev l).
Proof.
  induction l as [|x t IH]; simpl; [constructor|now apply insert_desc_sorted].
Qed.

Lemma insert_asc_sorted (x : R) (l : list R) :
  StronglySorted (ord true) l -> StronglySorted (ord true) (insert_asc x l).
Proof.
  induction l as [|y t IH]; simpl; intros Hs.
  - constructor; constructor.
  - inversion Hs as [|? ? Ht Hall]; subst.
    destruct (Rle_dec x y) as [Hxy|Hxy].
    + constructor; [exact Hs|]. constructor; [exact Hxy|].
      eapply Forall_impl; [|exact Hall]. simpl. intros z Hz. lra.
    + constructor; [now apply IH|].
      apply Forall_forall. intros z Hz.
      apply (Permutation_in _ (insert_asc_perm x t)) in Hz.
      destruct Hz as [<-|Hz]; simpl; [lra|].
      rewrite Forall_forall in Hall. now apply Hall.
Qed.

Lemma sort_asc_sorted (l : list R) : StronglySorted (ord true) (sort_asc l).
Proof.
  induction l as [|x t IH]; simpl; [constructor|now apply insert_asc_sorted].
Qed.

(** A multiset has one arrangement in a given order. *)
Lemma sorted_unique (asc : bool) (l l' : list R) :
  StronglySorted (ord asc) l -> StronglySorted (ord asc) l' ->
  Permutation l l' -> l = l'.
Proof.
  revert l'. induction l as [|x t IH]; intros l' Hs Hs' Hp.
  - apply Permutation_nil in Hp. now subst.
  - destruct l' as [|y t'].
    + apply Permutation_sym, Permutation_nil in Hp. discriminate.
    + inversion Hs as [|? ? Ht Hall]; subst.
      inversion Hs' as [|? ? Ht' Hall']; subst.
      assert (x = y) as ->.
      { rewrite Forall_forall in Hall, Hall'.
        assert (Hy : In y (x :: t)).
        { apply (Permutation_in _ (Permutation_sym Hp)). now left. }
        assert (Hx : In x (y :: t')).
        { apply (Permutation_in _ Hp). now left. }
        destruct Hy as [E|Hy]; [now symmetry|].
        destruct Hx as [E|Hx]; [exact (eq_sym E)|].
        apply (ord_antisym asc); [now apply Hall|now apply Hall']. }
      f_equal. apply IH; try assumption.
      now apply Permutation_cons_inv in Hp.
Qed.

Lemma sorted_rev_of_perm (l l' : list R) :
  Permutation l l' -> sorted_rev l = sorted_rev l'.
Proof.
  intros Hp. apply (sorted_unique false); try apply sorted_rev_sorted.
  eapply perm_trans; [apply sorted_rev_perm|].
  eapply perm_trans; [exact Hp|]. apply Permutation_sym, sorted_rev_perm.
Qed.

Lemma sort_asc_of_perm (l l' : list R) :
  Permutation l l' -> sort_asc l = sort_asc l'.
Proof.
  intros Hp. apply (sorted_unique true); try apply sort_asc_sorted.
  eapply perm_trans; [apply sort_asc_perm|].
  eapply perm_trans; [exact Hp|]. apply Permutation_sym, sort_asc_perm.
Qed.

(** ** The loop *)

Lemma getitem_lt {A : Type} (l : list A) (i : nat) (d : A) :
  (i < length l)%nat -> getitem l i = Ok (nth i l d).
Proof.
  intros H. unfold getitem.
  destruct (nth_error l i) eqn:E.
  - f_equal. symmetry. now apply nth_error_nth.
  - apply nth_error_None in E. lia.
Qed.

Lemma getitem_ge {A : Type} (l : list A) (i : nat) :
  (length l <= i)%nat -> getitem l i = Raise IndexError.
Proof.
  intros H. unfold getitem.
  apply nth_error_None in H. now rewrite H.
Qed.

Lemma body_state (y : Series) (m : nat) :
  (m < length y)%nat ->
  body y (sorted_rev y) (state_at y m) m = Ok (state_at y (S m)).
Proof.
  intros Hm. unfold body.
  rewrite (getitem_lt y m 0 Hm). cbn [bind].
  rewrite fdiv_log2. cbn [bind].
  rewrite (getitem_lt (sorted_rev y) m 0) by (now rewrite sorted_rev_length).
  cbn [bind]. rewrite fdiv_log2. cbn [bind].
  assert (Es : (if Req_dec_T (acc_b (state_at y m)
                    + nth m (sorted_rev y) 0 / log2 (INR (m + 2))) 0
                then Ok 0
                else fdiv (acc_a (state_at y m) + nth m y 0 / log2 (INR (m + 2)))
                          (acc_b (state_at y m)
                           + nth m (sorted_rev y) 0 / log2 (INR (m + 2))))
               = Ok (score_at y (S m))).
  { unfold score_at, fdiv. simpl.
    destruct (Req_dec_T _ 0); reflexivity. }
  rewrite Es. cbn [bind]. unfold state_at.
  rewrite !seq_S, !map_app. reflexivity.
Qed.

Lemma loop_state (y : Series) (n m : nat) :
  (m + n <= length y)%nat ->
  loop y (sorted_rev y) (seq m n) (state_at y m) = Ok (state_at y (m + n)).
Proof.
  revert m. induction n as [|n IH]; intros m H; simpl.
  - now rewrite Nat.add_0_r.
  - rewrite body_state by lia. simpl.
    rewrite IH by lia. f_equal. f_equal. lia.
Qed.

Lemma loop_overrun (y : Series) (n m : nat) :
  (m <= length y)%nat -> (length y < m + n)%nat ->
  loop y (sorted_rev y) (seq m n) (state_at y m) = Raise IndexError.
Proof.
  revert m. induction n as [|n IH]; intros m Hm H; simpl.
  - lia.
  - destruct (Nat.eq_dec m (length y)) as [->|Hne].
    + unfold body. now rewrite getitem_ge.
    + rewrite body_state by lia. simpl. apply IH; lia.
Qed.

Lemma py_index_last {A : Type} (l : list A) (x : A) :
  py_index (l ++ [x]) (-1) = Ok x.
Proof.
  unfold py_index. rewrite length_app. simpl length.
  replace (-1 <? 0)%Z with true by reflexivity.
  replace (Z.of_nat (length l + 1) + -1)%Z with (Z.of_nat (length l)) by lia.
  replace (0 <=? Z.of_nat (length l))%Z with true by (symmetry; apply Z.leb_le; lia).
  replace (Z.of_nat (length l) <? Z.of_nat (length l + 1))%Z with true
    by (symmetry; apply Z.ltb_lt; lia).
  simpl. rewrite Nat2Z.id, nth_error_app2, Nat.sub_diag by lia. reflexivity.
Qed.

(** The scoring stage for a cutoff within the ordering. *)
Lemma scores_valid (y : Series) (k : Z) (multiple : bool) :
  (1 <= k <= Z.of_nat (length y))%Z ->
  scores y k multiple =
  Ok (if multiple
      then Pair (map (fun i => score_at y (S i)) (seq 0 (Z.to_nat k)))
                (map Z.of_nat (seq 0 (Z.to_nat k)))
      else Scalar (score_at y (Z.to_nat k))).
Proof.
  intros Hk. unfold scores, range0.
  change acc0 with (state_at y 0).
  rewrite loop_state by lia. cbn [bind].
  destruct multiple; [reflexivity|].
  simpl acc_score.
  destruct (Z.to_nat k) as [|n] eqn:E; [lia|].
  rewrite seq_S, map_app. simpl map at 2.
  rewrite py_index_last. reflexivity.
Qed.

(** The scoring stage for a cutoff beyond the ordering. *)
Lemma scores_overrun (y : Series) (k : Z) (multiple : bool) :
  (Z.of_nat (length y) < k)%Z -> scores y k multiple = Raise IndexError.
Proof.
  intros Hk. unfold scores, range0.
  change acc0 with (state_at y 0).
  rewrite loop_overrun by lia. reflexivity.
Qed.

(** The scoring stage for a cutoff that is not positive. *)
Lemma scores_nonpositive (y : Series) (k : Z) (multiple : bool) :
  (k <= 0)%Z ->
  scores y k multiple = if multiple then Ok (Pair [] []) else Raise IndexError.
Proof.
  intros Hk. unfold scores, range0.
  replace (Z.to_nat k) with O by lia. simpl.
  destruct multiple; reflexivity.
Qed.

(** ** Frames and the ranking stage *)

Lemma map_nth_seq (v : Series) :
  map (fun i => nth i v 0) (seq 0 (length v)) = v.
Proof.
  induction v as [|x t IH]; simpl; [reflexivity|].
  f_equal. rewrite <- seq_shift, map_map. exact IH.
Qed.

Lemma argsort_length (K : sort_kind) (asc : bool) (keys : Series) :
  length (argsort K asc keys) = length keys.
Proof.
  rewrite (Permutation_length (argsort_perm K asc keys)). apply length_seq.
Qed.

Lemma take_length (idx : list nat) (v : Series) : length (take idx v) = length idx.
Proof. apply length_map. Qed.

(** Sorting the rows permutes every column. *)
Lemma take_perm (K : sort_kind) (asc : bool) (keys v : Series) :
  length v = length keys -> Permutation (take (argsort K asc keys) v) v.
Proof.
  intros Hl. unfold take.
  eapply perm_trans.
  - apply Permutation_map, argsort_perm.
  - rewrite <- Hl, map_nth_seq. apply Permutation_refl.
Qed.

(** Whatever the tie-break, the key column comes out in its one sorted
    arrangement. *)
Lemma take_keys_asc (K : sort_kind) (keys : Series) :
  take (argsort K true keys) keys = sort_asc keys.
Proof.
  apply (sorted_unique true).
  - apply argsort_sorted.
  - apply sort_asc_sorted.
  - eapply perm_trans; [now apply take_perm|].
    apply Permutation_sym, sort_asc_perm.
Qed.

Lemma take_keys_desc (K : sort_kind) (keys : Series) :
  take (argsort K false keys) keys = sorted_rev keys.
Proof.
  apply (sorted_unique false).
  - apply argsort_sorted.
  - apply sorted_rev_sorted.
  - eapply perm_trans; [now apply take_perm|].
    apply Permutation_sym, sorted_rev_perm.
Qed.

Lemma py_index_map {A B : Type} (f : A -> B) (l : list A) (c : Z) :
  py_index (map f l) c = (x <- py_index l c ;; Ok (f x)).
Proof.
  unfold py_index. rewrite length_map.
  destruct (_ && _)%bool; [|reflexivity].
  rewrite nth_error_map.
  destruct (nth_error l _); reflexivity.
Qed.

Lemma py_index_In {A : Type} (l : list A) (c : Z) (x : A) :
  py_index l c = Ok x -> In x l.
Proof.
  unfold py_index. destruct (_ && _)%bool; [|discriminate].
  destruct (nth_error l _) eqn:E; [|discriminate].
  intros [= <-]. eapply nth_error_In; eauto.
Qed.

Lemma get_col_In (ds : DataFrame) (label : string) (v : Series) :
  get_col ds label = Ok v -> In (label, v) ds.
Proof.
  induction ds as [|[l w] rest IH]; simpl; [discriminate|].
  destruct (String.eqb_spec l label) as [->|Hne].
  - intros [= ->]. now left.
  - intros H. right. now apply IH.
Qed.

Lemma In_get_col (ds : DataFrame) (label : string) (v : Series) :
  NoDup (map fst ds) -> In (label, v) ds -> get_col ds label = Ok v.
Proof.
  induction ds as [|[l w] rest IH]; simpl; [tauto|].
  intros Hnd Hin. inversion Hnd as [|? ? Hnotin Hnd']; subst.
  destruct (String.eqb_spec l label) as [->|Hne].
  - destruct Hin as [[= ->]|Hin]; [reflexivity|].
    exfalso. apply Hnotin. apply in_map_iff. now exists (label, v).
  - destruct Hin as [[= -> ->]|Hin]; [congruence|]. now apply IH.
Qed.

Lemma iloc_inv (ds : DataFrame) (c : Z) (v : Series) :
  iloc ds c = Ok v -> exists label, py_index ds c = Ok (label, v).
Proof.
  unfold iloc. destruct (py_index ds c) as [[l w]|e]; simpl; [|discriminate].
  intros [= ->]. now exists l.
Qed.

Lemma wf_In_length (ds : DataFrame) (n : nat) (label : string) (v : Series) :
  wf_frame ds n -> In (label, v) ds -> length v = n.
Proof.
  intros [_ Hall] Hin. rewrite Forall_forall in Hall. exact (Hall _ Hin).
Qed.

Lemma sort_values_wf (K : sort_kind) (ds ds' : DataFrame) (n : nat)
    (by_ : string) (asc : bool) :
  wf_frame ds n -> sort_values K ds by_ asc = Ok ds' -> wf_frame ds' n.
Proof.
  intros Hwf. unfold sort_values.
  destruct (get_col ds by_) as [keys|e] eqn:E; simpl; [|discriminate].
  intros [= <-]. apply get_col_In in E.
  pose proof (wf_In_length _ _ _ _ Hwf E) as Hk.
  destruct Hwf as [Hnd Hall]. split.
  - now rewrite map_map, (map_ext _ fst) by reflexivity.
  - apply Forall_map. eapply Forall_impl; [|exact Hall].
    intros col _. simpl. now rewrite take_length, argsort_length.
Qed.

Lemma setitem_wf (ds : DataFrame) (n : nat) (label : string) (v : Series) :
  wf_frame ds n -> length v = n -> wf_frame (setitem ds label v) n.
Proof.
  intros [Hnd Hall] Hv. split.
  - clear Hall. induction ds as [|[l w] rest IH]; simpl.
    + constructor; [intros []|constructor].
    + inversion Hnd as [|? ? Hnotin Hnd']; subst.
      destruct (String.eqb_spec l label) as [->|Hne]; simpl.
      * exact Hnd.
      * constructor; [|now apply IH].
        intros Hin. apply Hnotin. clear IH Hnd Hnd' Hnotin.
        induction rest as [|[l' w'] rest' IH']; simpl in *.
        -- destruct Hin as [E|[]]. congruence.
        -- destruct (String.eqb_spec l' label) as [->|Hne'];
             simpl in Hin; [exact Hin|].
           destruct Hin as [E|Hin]; [now left|right; now apply IH'].
  - induction ds as [|[l w] rest IH]; simpl.
    + constructor; [exact Hv|constructor].
    + inversion Hall; subst. inversion Hnd; subst.
      destruct (String.eqb l label); constructor; auto.
Qed.

(** The ranking stage without binning: the relevance column read in the
    order of the sorted rows; the caller's frame stays as it was. *)
Lemma ranker_plain (K : sort_kind) (ds : DataFrame) (n : nat)
    (actual_col pred_col : Z) (reverse : bool) (actual predicted : Series) :
  wf_frame ds n ->
  iloc ds (actual_col - 1) = Ok actual ->
  iloc ds (pred_col - 1) = Ok predicted ->
  ranker K ds actual_col pred_col false reverse =
  (Ok (take (argsort K reverse (if reverse then actual else predicted)) actual),
   ds).
Proof.
  intros Hwf Ha Hp.
  destruct (iloc_inv _ _ _ Ha) as [la Hia].
  destruct (iloc_inv _ _ _ Hp) as [lp Hip].
  pose proof (In_get_col _ _ _ (proj1 Hwf) (py_index_In _ _ _ Hia)) as Ga.
  pose proof (In_get_col _ _ _ (proj1 Hwf) (py_index_In _ _ _ Hip)) as Gp.
  unfold ranker, columns, sort_values, iloc.
  destruct reverse.
  - rewrite Hia. cbn [bind fst]. rewrite Ga. cbn [bind].
    rewrite py_index_map, Hia. reflexivity.
  - rewrite Hip. cbn [bind fst]. rewrite Gp. cbn [bind].
    rewrite py_index_map, Hia. reflexivity.
Qed.

Lemma mapM_length {A B : Type} (f : A -> result B) (l : list A) (l' : list B) :
  mapM f l = Ok l' -> length l' = length l.
Proof.
  revert l'. induction l as [|x t IH]; simpl; intros l'.
  - now intros [= <-].
  - destruct (f x) as [y|e]; simpl; [|discriminate].
    destruct (mapM f t) as [ys|e]; simpl; [|discriminate].
    intros [= <-]. simpl. f_equal. now apply IH.
Qed.

Lemma mapM_Forall {A B : Type} (f : A -> result B) (P : B -> Prop)
    (l : list A) (l' : list B) :
  (forall x y, f x = Ok y -> P y) -> mapM f l = Ok l' -> Forall P l'.
Proof.
  intros Hf. revert l'. induction l as [|x t IH]; simpl; intros l'.
  - intros [= <-]. constructor.
  - destruct (f x) as [y|e] eqn:E; simpl; [|discriminate].
    destruct (mapM f t) as [ys|e]; simpl; [|discriminate].
    intros [= <-]. constructor; [now apply (Hf x)|now apply IH].
Qed.

Lemma cut_length (x : Series) (edges : list R) (labs : list nat) (v : Series) :
  cut x edges labs = Ok v -> length v = length x.
Proof.
  unfold cut. destruct (increasing edges); [|discriminate].
  destruct (_ =? _)%nat; [|discriminate]. apply mapM_length.
Qed.

(** Grades are never negative. *)
Lemma cut_nonneg (x : Series) (edges : list R) (labs : list nat) (v : Series) :
  cut x edges labs = Ok v -> Forall (fun g => 0 <= g) v.
Proof.
  unfold cut. destruct (increasing edges); [|discriminate].
  destruct (_ =? _)%nat; [|discriminate].
  apply mapM_Forall. intros x0 y. unfold cut1.
  destruct (_ || _)%bool; [discriminate|].
  destruct (nth_error labs _); [|discriminate].
  intros [= <-]. apply pos_INR.
Qed.

Lemma get_col_map (ds : DataFrame) (f : Series -> Series) (label : string) :
  get_col (map (fun col => (fst col, f (snd col))) ds) label =
  (v <- get_col ds label ;; Ok (f v)).
Proof.
  induction ds as [|[l w] rest IH]; simpl; [reflexivity|].
  destruct (String.eqb l label); [reflexivity|exact IH].
Qed.

Lemma get_setitem (ds : DataFrame) (label : string) (v : Series) :
  get_col (setitem ds label v) label = Ok v.
Proof.
  induction ds as [|[l w] rest IH]; simpl.
  - now rewrite String.eqb_refl.
  - destruct (String.eqb l label) eqn:E; simpl; rewrite E; [reflexivity|exact IH].
Qed.

Lemma get_setitem_other (ds : DataFrame) (label other : string) (v : Series) :
  String.eqb other label = false ->
  get_col (setitem ds label v) other = get_col ds other.
Proof.
  intros Hne. induction ds as [|[l w] rest IH]; simpl.
  - rewrite String.eqb_sym. now rewrite Hne.
  - destruct (String.eqb_spec l label) as [->|Hl]; simpl.
    + rewrite String.eqb_sym, Hne. reflexivity.
    + destruct (String.eqb l other); [reflexivity|exact IH].
Qed.

Lemma take_nonneg (idx : list nat) (v : Series) :
  Forall (fun x => 0 <= x) v -> Forall (fun x => 0 <= x) (take idx v).
Proof.
  intros Hv. unfold take. apply Forall_map, Forall_forall. intros i _.
  destruct (Nat.lt_ge_cases i (length v)) as [Hi|Hi].
  - rewrite Forall_forall in Hv. apply Hv. now apply nth_In.
  - rewrite nth_overflow by assumption. lra.
Qed.

Lemma ranker_unfold (K : sort_kind) (ds : DataFrame) (actual_col pred_col : Z)
    (bins reverse : bool) :
  ranker K ds actual_col pred_col bins reverse =
  if bins then
    match binned_of ds actual_col with
    | Raise e => (Raise e, ds)
    | Ok binned =>
        let ds1 := setitem ds "binned"%string binned in
        (ordered_by K ds1 (if reverse then actual_col - 1 else pred_col - 1)%Z
           reverse (fun ds_sort => get_col ds_sort "binned"%string), ds1)
    end
  else
    (ordered_by K ds (if reverse then actual_col - 1 else pred_col - 1)%Z
       reverse (fun ds_sort => iloc ds_sort (actual_col - 1)), ds).
Proof.
  unfold ranker, binned_of, ordered_by.
  destruct bins, reverse; try reflexivity;
    destruct (_ <- iloc ds (actual_col - 1) ;; _); reflexivity.
Qed.

Lemma binned_of_length (ds : DataFrame) (n : nat) (actual_col : Z) (v : Series) :
  wf_frame ds n -> binned_of ds actual_col = Ok v -> length v = n.
Proof.
  intros Hwf. unfold binned_of.
  destruct (iloc ds (actual_col - 1)) as [actual|e] eqn:Ha; simpl; [|discriminate].
  destruct (quantile actual quantile_list) as [edges|e]; simpl; [|discriminate].
  intros Hc. apply cut_length in Hc. rewrite Hc.
  destruct (iloc_inv _ _ _ Ha) as [l Hl].
  eapply wf_In_length; [exact Hwf|]. eapply py_index_In; eauto.
Qed.

Lemma binned_of_nonneg (ds : DataFrame) (actual_col : Z) (v : Series) :
  binned_of ds actual_col = Ok v -> Forall (fun g => 0 <= g) v.
Proof.
  unfold binned_of.
  destruct (iloc ds (actual_col - 1)) as [actual|e]; simpl; [|discriminate].
  destruct (quantile actual quantile_list) as [edges|e]; simpl; [|discriminate].
  apply cut_nonneg.
Qed.

Lemma ordered_by_length (K : sort_kind) (ds : DataFrame) (n : nat) (c : Z)
    (asc : bool) (read : DataFrame -> result Series) (y : Series) :
  wf_frame ds n ->
  (forall ds' v, wf_frame ds' n -> read ds' = Ok v -> length v = n) ->
  ordered_by K ds c asc read = Ok y -> length y = n.
Proof.
  intros Hwf Hread. unfold ordered_by.
  destruct (columns ds c) as [by_|e]; simpl; [|discriminate].
  destruct (sort_values K ds by_ asc) as [ds'|e] eqn:E; simpl; [|discriminate].
  apply Hread. eapply sort_values_wf; eauto.
Qed.

Lemma get_col_length (ds : DataFrame) (n : nat) (label : string) (v : Series) :
  wf_frame ds n -> get_col ds label = Ok v -> length v = n.
Proof.
  intros Hwf H. exact (wf_In_length _ _ _ _ Hwf (get_col_In _ _ _ H)).
Qed.

Lemma iloc_length (ds : DataFrame) (n : nat) (c : Z) (v : Series) :
  wf_frame ds n -> iloc ds c = Ok v -> length v = n.
Proof.
  intros Hwf H. destruct (iloc_inv _ _ _ H) as [l Hl].
  eapply wf_In_length; [exact Hwf|]. eapply py_index_In; eauto.
Qed.

(** The evaluation ordering has one entry per row of the batch. *)
Lemma ranker_length (K : sort_kind) (ds : DataFrame) (n : nat)
    (actual_col pred_col : Z) (bins reverse : bool) (y : Series) :
  wf_frame ds n ->
  fst (ranker K ds actual_col pred_col bins reverse) = Ok y -> length y = n.
Proof.
  intros Hwf. rewrite ranker_unfold. destruct bins.
  - destruct (binned_of ds actual_col) as [binned|e] eqn:Eb; simpl; [|discriminate].
    apply ordered_by_length.
    + apply setitem_wf; [exact Hwf|]. eapply binned_of_length; eauto.
    + intros ds' v. apply get_col_length.
  - simpl. apply ordered_by_length; [exact Hwf|].
    intros ds' v. apply iloc_length.
Qed.

(** With binning the evaluation ordering holds grades, which are not
    negative. *)
Lemma ranker_bins_nonneg (K : sort_kind) (ds : DataFrame)
    (actual_col pred_col : Z) (reverse : bool) (y : Series) :
  fst (ranker K ds actual_col pred_col true reverse) = Ok y ->
  Forall (fun g => 0 <= g) y.
Proof.
  rewrite ranker_unfold.
  destruct (binned_of ds actual_col) as [binned|e] eqn:Eb; simpl; [|discriminate].
  unfold ordered_by.
  destruct (columns _ _) as [by_|e]; simpl; [|discriminate].
  unfold sort_values.
  destruct (get_col _ by_) as [keys|e]; simpl; [|discriminate].
  rewrite get_col_map, get_setitem. simpl. intros [= <-].
  apply take_nonneg. eapply binned_of_nonneg; eauto.
Qed.

(** [ndcg_at_k] is the ranking stage followed by the scoring stage. *)
Lemma ndcg_at_k_stages (K : sort_kind) (ds : DataFrame) (k : Z)
    (actual_col pred_col : Z) (bins reverse multiple : bool) :
  ndcg_at_k K ds k actual_col pred_col bins reverse multiple =
  (y_pred <- fst (ranker K ds actual_col pred_col bins reverse) ;;
   scores y_pred k multiple,
   snd (ranker K ds actual_col pred_col bins reverse)).
Proof.
  unfold ndcg_at_k.
  destruct (ranker K ds actual_col pred_col bins reverse); reflexivity.
Qed.

(** ** Keys without ties *)

Lemma map_inj_on {A B : Type} (f : A -> B) (l1 l2 : list A) :
  (forall x y, In x l1 -> In y l2 -> f x = f y -> x = y) ->
  map f l1 = map f l2 -> l1 = l2.
Proof.
  revert l2. induction l1 as [|x t IH]; intros [|y t'] Hinj; simpl;
    try discriminate; [reflexivity|].
  intros [= Hxy Ht]. f_equal.
  - apply Hinj; simpl; auto.
  - apply IH; [|exact Ht]. intros; apply Hinj; simpl; auto.
Qed.

Lemma argsort_In (K : sort_kind) (asc : bool) (keys : Series) (i : nat) :
  In i (argsort K asc keys) -> (i < length keys)%nat.
Proof.
  intros Hi. apply (Permutation_in _ (argsort_perm K asc keys)) in Hi.
  apply in_seq in Hi. lia.
Qed.

(** When no two keys are equal, every [sort_kind] orders the rows alike. *)
Lemma argsort_unique (K K' : sort_kind) (asc : bool) (keys : Series) :
  NoDup keys -> argsort K asc keys = argsort K' asc keys.
Proof.
  intros Hnd. apply map_inj_on with (f := fun i => nth i keys 0).
  - intros i j Hi Hj. apply argsort_In in Hi, Hj.
    rewrite NoDup_nth in Hnd. now apply Hnd.
  - change (take (argsort K asc keys) keys = take (argsort K' asc keys) keys).
    apply (sorted_unique asc); try apply argsort_sorted.
    eapply perm_trans; [now apply take_perm|].
    apply Permutation_sym. now apply take_perm.
Qed.

(** Decides the comparisons of concrete reals met while evaluating. *)
Ltac decide_reals :=
  repeat match goal with
    | |- context [Rle_dec ?x ?y] =>
        destruct (Rle_dec x y); [try (exfalso; lra)|try (exfalso; lra)]
    | |- context [Rlt_dec ?x ?y] =>
        destruct (Rlt_dec x y); [try (exfalso; lra)|try (exfalso; lra)]
    | |- context [Req_dec_T ?x ?y] =>
        destruct (Req_dec_T x y); [try (exfalso; lra)|try (exfalso; lra)]
    end.

Ltac eval_reals := repeat (progress (cbn; decide_reals)).

Ltac nodup_reals :=
  repeat (constructor; [simpl; intuition lra|]); constructor.

Ltac wf_batch :=
  split; [repeat (constructor; [simpl; intuition discriminate|]); constructor
         |repeat constructor].

(** ** Properties of the scores *)

Lemma log2_first : log2 (INR (0 + 2)) = 1.
Proof. replace (INR (0 + 2)) with 2 by (simpl; lra). apply log2_2. Qed.

Lemma score_at_1 (y : Series) :
  score_at y 1 =
  if Req_dec_T (nth 0 (sorted_rev y) 0) 0 then 0
  else nth 0 y 0 / nth 0 (sorted_rev y) 0.
Proof.
  unfold score_at. cbn [dcg]. rewrite log2_first.
  destruct (Req_dec_T (0 + nth 0 (sorted_rev y) 0 / 1) 0) as [E|E];
    destruct (Req_dec_T (nth 0 (sorted_rev y) 0) 0) as [E'|E'];
    try reflexivity; try (exfalso; lra).
  field. exact E'.
Qed.

Lemma score_at_unit (y : Series) (i : nat) :
  Forall (fun x => 0 <= x) y -> 0 <= score_at y i <= 1.
Proof.
  intros Hy. unfold score_at.
  pose proof (dcg_nonneg y i Hy) as Ha.
  pose proof (dcg_le_ideal y i) as Hab.
  destruct (Req_dec_T (dcg (sorted_rev y) i) 0) as [E|E]; [lra|].
  assert (Hb : 0 < dcg (sorted_rev y) i) by lra.
  split.
  - apply Rmult_le_pos; [exact Ha|]. left. now apply Rinv_0_lt_compat.
  - apply Rmult_le_reg_r with (dcg (sorted_rev y) i); [exact Hb|].
    unfold Rdiv. rewrite Rmult_assoc, Rinv_l by exact E. lra.
Qed.

Lemma dcg_all_zero (y : Series) (i : nat) :
  Forall (fun x => x = 0) y -> dcg y i = 0.
Proof.
  intros Hy. induction i as [|i IH]; simpl; [reflexivity|].
  rewrite IH.
  assert (E : nth i y 0 = 0).
  { destruct (Nat.lt_ge_cases i (length y)) as [Hi|Hi].
    - rewrite Forall_forall in Hy. apply Hy. now apply nth_In.
    - now apply nth_overflow. }
  rewrite E. unfold Rdiv. lra.
Qed.

Lemma score_at_all_zero (y : Series) (i : nat) :
  Forall (fun x => x = 0) y -> score_at y i = 0.
Proof.
  intros Hy. unfold score_at. rewrite (dcg_all_zero y i Hy).
  destruct (Req_dec_T _ 0); [reflexivity|]. unfold Rdiv. lra.
Qed.

(** The ascending arrangement scores no more than any other arrangement of
    the same nonnegative relevance values. *)
Lemma score_at_worst (y : Series) (i : nat) :
  Forall (fun x => 0 <= x) y -> score_at (sort_asc y) i <= score_at y i.
Proof.
  intros Hy. unfold score_at.
  rewrite (sorted_rev_of_perm _ _ (sort_asc_perm y)).
  pose proof (dcg_ge_worst y i) as Hw.
  pose proof (dcg_le_ideal y i) as Hab.
  pose proof (dcg_nonneg y i Hy) as Ha.
  destruct (Req_dec_T (dcg (sorted_rev y) i) 0) as [E|E]; [lra|].
  apply Rmult_le_compat_r; [|exact Hw].
  left. apply Rinv_0_lt_compat. lra.
Qed.

Lemma scores_length (y : Series) (k : Z) (multiple : bool) (r : retval) :
  (1 <= k <= Z.of_nat (length y))%Z ->
  scores y k multiple = Ok r ->
  length (retval_scores r) = (if multiple then Z.to_nat k else 1%nat)
  /\ (Forall (fun x => 0 <= x) y ->
      Forall (fun s => 0 <= s <= 1) (retval_scores r)).
Proof.
  intros Hk. rewrite scores_valid by exact Hk. intros [= <-].
  destruct multiple; simpl.
  - split; [now rewrite length_map, length_seq|].
    intros Hy. apply Forall_map, Forall_forall. intros i _.
    now apply score_at_unit.
  - split; [reflexivity|]. intros Hy. constructor; [|constructor].
    now apply score_at_unit.
Qed.

(** ** The concrete scenario of the design document *)

Lemma scenario_wf : wf_frame scenario 3.
Proof. wf_batch. Qed.

Lemma scenario_ranker (K : sort_kind) :
  ranker K scenario 1 2 false false = (Ok [0.1; 0.5; 0.9], scenario).
Proof.
  unfold scenario.
  rewrite (ranker_plain K _ 3 1 2 false [0.9; 0.1; 0.5] [0.2; 0.8; 0.5]);
    [|wf_batch|reflexivity|reflexivity].
  rewrite (argsort_unique K stable_kind) by nodup_reals.
  eval_reals. reflexivity.
Qed.

Lemma scenario_ideal : sorted_rev [0.1; 0.5; 0.9] = [0.9; 0.5; 0.1].
Proof. eval_reals. reflexivity. Qed.

(** C1: for actual = [0.9, 0.1, 0.5], predicted = [0.2, 0.8, 0.5], k = 3,
    without bins and without baseline, the prediction ordering of the
    relevance values is [0.1, 0.5, 0.9], the ideal ordering is
    [0.9, 0.5, 0.1], after the first iteration the gain is 0.1 and the ideal
    gain 0.9, and the first score of the curve is 0.1/0.9.  This holds for
    every [sort_kind]. *)
Theorem ndcg_concrete_scenario (K : sort_kind) :
  fst (ranker K scenario 1 2 false false) = Ok [0.1; 0.5; 0.9]
  /\ sorted_rev [0.1; 0.5; 0.9] = [0.9; 0.5; 0.1]
  /\ loop [0.1; 0.5; 0.9] [0.9; 0.5; 0.1] (range0 1) acc0
     = Ok {| acc_a := 0.1; acc_b := 0.9; acc_thr := [0%Z];
             acc_score := [0.1 / 0.9] |}
  /\ exists s2 s3 thr,
       fst (ndcg_at_k K scenario 3 1 2 false false true)
       = Ok (Pair [0.1 / 0.9; s2; s3] thr).
Proof.
  split; [now rewrite scenario_ranker|].
  split; [apply scenario_ideal|].
  split.
  - rewrite <- scenario_ideal. change acc0 with (state_at [0.1; 0.5; 0.9] 0).
    unfold range0. change (Z.to_nat 1) with 1%nat.
    rewrite loop_state by (simpl; lia).
    unfold state_at. cbn [Nat.add seq map].
    rewrite score_at_1. cbn [dcg]. rewrite log2_first, scenario_ideal.
    cbn [nth]. destruct (Req_dec_T 0.9 0) as [E|_]; [exfalso; lra|].
    f_equal. f_equal; lra.
  - rewrite ndcg_at_k_stages, scenario_ranker. cbn [fst bind].
    rewrite scores_valid by (simpl; lia).
    change (Z.to_nat 3) with 3%nat. cbn [seq map].
    rewrite score_at_1, scenario_ideal. cbn [nth].
    destruct (Req_dec_T 0.9 0) as [E|_]; [exfalso; lra|].
    eexists _, _, _. reflexivity.
Qed.

(** ** Effect on the caller's frame *)

Ltac eval_positions :=
  repeat match goal with
    | |- context [Z.to_nat ?z] =>
        let v := eval vm_compute in (Z.to_nat z) in change (Z.to_nat z) with v
    | |- context [Z.modulo ?a ?b] =>
        let v := eval vm_compute in (Z.modulo a b) in
        change (Z.modulo a b) with v
    end.

Lemma scenario_edges :
  quantile [0.9; 0.1; 0.5] quantile_list
  = Ok [0.1; 0.26; 0.42; 0.58; 0.74; 0.9].
Proof.
  unfold quantile, quantile_list, quantile1.
  assert (Es : sort_asc [0.9; 0.1; 0.5] = [0.1; 0.5; 0.9]).
  { eval_reals. reflexivity. }
  rewrite Es. cbn [map length Qnum Qden]. eval_positions. cbn [nth].
  f_equal. repeat (apply f_equal2; [lra|]). reflexivity.
Qed.

Lemma scenario_binned : binned_of scenario 1 = Ok [INR 4; INR 0; INR 2].
Proof.
  unfold binned_of, scenario, batch.
  change (iloc _ _) with (Ok (A:=Series) [0.9; 0.1; 0.5]). cbn [bind].
  rewrite scenario_edges. cbn [bind].
  unfold cut.
  assert (Ei : increasing [0.1; 0.26; 0.42; 0.58; 0.74; 0.9] = true).
  { eval_reals. reflexivity. }
  rewrite Ei. cbn [labels length Nat.eqb Nat.sub mapM].
  unfold cut1, searchsorted. cbn [nth filter length]. eval_reals. reflexivity.
Qed.

(** C3, as stated, fails: with bins enabled the call appends a column
    labelled "binned" to the caller's frame. *)
Lemma binning_adds_column :
  snd (ndcg_at_k stable_kind scenario 3 1 2 true false false)
  = [("actual"%string, [0.9; 0.1; 0.5]);
     ("predicted"%string, [0.2; 0.8; 0.5]);
     ("binned"%string, [INR 4; INR 0; INR 2])]
  /\ snd (ndcg_at_k stable_kind scenario 3 1 2 true false false) <> scenario.
Proof.
  assert (E : snd (ndcg_at_k stable_kind scenario 3 1 2 true false false)
              = [("actual"%string, [0.9; 0.1; 0.5]);
                 ("predicted"%string, [0.2; 0.8; 0.5]);
                 ("binned"%string, [INR 4; INR 0; INR 2])]).
  { rewrite ndcg_at_k_stages, ranker_unfold, scenario_binned. reflexivity. }
  split; [exact E|]. rewrite E. unfold scenario, batch. discriminate.
Qed.

(** C3, amended: with bins disabled the call leaves the caller's frame as it
    was.  With bins enabled the frame the call leaves is the caller's frame
    with the grades of the relevance column assigned under the label
    "binned" (appended, or written over a column of that label), and the
    caller's frame as it was when the binning raises; in every configuration
    each column of another label is unchanged. *)
Theorem ndcg_frame_effect (K : sort_kind) (ds : DataFrame) (k : Z)
    (actual_col pred_col : Z) (bins reverse multiple : bool) :
  snd (ndcg_at_k K ds k actual_col pred_col false reverse multiple) = ds
  /\ snd (ndcg_at_k K ds k actual_col pred_col true reverse multiple)
     = match binned_of ds actual_col with
       | Ok binned => setitem ds "binned"%string binned
       | Raise _ => ds
       end
  /\ forall label, String.eqb label "binned"%string = false ->
       get_col (snd (ndcg_at_k K ds k actual_col pred_col bins reverse multiple))
               label
       = get_col ds label.
Proof.
  rewrite !ndcg_at_k_stages. cbn [snd]. rewrite !ranker_unfold.
  split; [reflexivity|]. split.
  - destruct (binned_of ds actual_col) as [binned|e]; reflexivity.
  - intros label Hl. destruct bins; [|reflexivity].
    destruct (binned_of ds actual_col) as [binned|e]; [|reflexivity].
    cbn [snd]. now apply get_setitem_other.
Qed.

(** ** Cutoffs *)

Lemma py_index_bounds {A : Type} (l : list A) (c : Z) (x : A) :
  py_index l c = Ok x ->
  (- Z.of_nat (length l) <= c < Z.of_nat (length l))%Z.
Proof.
  unfold py_index.
  destruct (c <? 0)%Z eqn:Ec;
    destruct (_ && _)%bool eqn:E; try discriminate; intros _;
    apply andb_prop in E; destruct E as [E1 E2];
    apply Z.leb_le in E1; apply Z.ltb_lt in E2.
  - apply Z.ltb_lt in Ec. lia.
  - apply Z.ltb_ge in Ec. lia.
Qed.

Lemma py_index_range {A : Type} (l : list A) (c : Z) :
  (- Z.of_nat (length l) <= c < Z.of_nat (length l))%Z ->
  exists x, py_index l c = Ok x.
Proof.
  intros Hc. unfold py_index.
  set (j := if (c <? 0)%Z then (Z.of_nat (length l) + c)%Z else c).
  assert (Hj : (0 <= j < Z.of_nat (length l))%Z).
  { unfold j. destruct (c <? 0)%Z eqn:Ec.
    - apply Z.ltb_lt in Ec. lia.
    - apply Z.ltb_ge in Ec. lia. }
  replace (0 <=? j)%Z with true by (symmetry; apply Z.leb_le; lia).
  replace (j <? Z.of_nat (length l))%Z with true
    by (symmetry; apply Z.ltb_lt; lia).
  cbn [andb].
  destruct (nth_error l (Z.to_nat j)) as [x|] eqn:E; [now exists x|].
  apply nth_error_None in E. lia.
Qed.

Lemma setitem_length (ds : DataFrame) (label : string) (v : Series) :
  (length ds <= length (setitem ds label v))%nat.
Proof.
  induction ds as [|[l w] rest IH]; simpl; [lia|].
  destruct (String.eqb l label); simpl; lia.
Qed.

Lemma get_col_label (ds : DataFrame) (l : string) (w : Series) :
  In (l, w) ds -> exists v, get_col ds l = Ok v.
Proof.
  induction ds as [|[l0 w0] rest IH]; simpl; [tauto|].
  intros Hin. destruct (String.eqb_spec l0 l) as [->|Hne].
  - now exists w0.
  - destruct Hin as [[= -> ->]|Hin]; [congruence|]. now apply IH.
Qed.

(** Once the grades are computed the ranking stage yields an ordering. *)
Lemma ranker_bins_returns (K : sort_kind) (ds : DataFrame)
    (actual_col pred_col : Z) (reverse : bool)
    (actual predicted binned : Series) :
  iloc ds (actual_col - 1) = Ok actual ->
  iloc ds (pred_col - 1) = Ok predicted ->
  binned_of ds actual_col = Ok binned ->
  exists y, fst (ranker K ds actual_col pred_col true reverse) = Ok y.
Proof.
  intros Ha Hp Hb. rewrite ranker_unfold, Hb. cbn [fst].
  set (c := (if reverse then actual_col - 1 else pred_col - 1)%Z).
  assert (Hc : exists v, iloc ds c = Ok v).
  { unfold c. destruct reverse; eauto. }
  destruct Hc as [v Hv]. destruct (iloc_inv _ _ _ Hv) as [l Hl].
  pose proof (py_index_bounds _ _ _ Hl) as Hr.
  pose proof (setitem_length ds "binned"%string binned) as Hs.
  destruct (py_index_range (setitem ds "binned"%string binned) c)
    as [[by_ w] Hby]; [lia|].
  unfold ordered_by, columns. rewrite Hby. cbn [bind fst].
  destruct (get_col_label _ _ _ (py_index_In _ _ _ Hby)) as [keys Hk].
  unfold sort_values. rewrite Hk. cbn [bind].
  rewrite get_col_map, get_setitem. cbn [bind]. eauto.
Qed.

Lemma zeros_binned : binned_of zeros 1 = Raise ValueError.
Proof.
  unfold binned_of, zeros, batch.
  change (iloc _ _) with (Ok (A:=Series) [0; 0]). cbn [bind].
  assert (Eq : quantile [0; 0] quantile_list = Ok [0; 0; 0; 0; 0; 0]).
  { unfold quantile, quantile_list, quantile1.
    assert (Es : sort_asc [0; 0] = [0; 0]) by (eval_reals; reflexivity).
    rewrite Es. cbn [map length Qnum Qden]. eval_positions. cbn [nth].
    f_equal. repeat (apply f_equal2; [lra|]). reflexivity. }
  rewrite Eq. cbn [bind]. unfold cut.
  assert (Ei : increasing [0; 0; 0; 0; 0; 0] = false).
  { eval_reals. reflexivity. }
  now rewrite Ei.
Qed.

(** C2, as stated, fails on each of its parts: a cutoff of 0 in curve mode
    raises nothing and returns two empty lists, with bins off and on; the
    full ranking [k = n] of a batch the binner refuses (all relevance values
    equal) raises [ValueError]; and on the empty batch [k = n = 0] raises
    [IndexError] in scalar mode. *)
Lemma cutoff_zero_curve_returns_empty :
  fst (ndcg_at_k stable_kind scenario 0 1 2 false false true) = Ok (Pair [] [])
  /\ fst (ndcg_at_k stable_kind scenario 0 1 2 true false true) = Ok (Pair [] [])
  /\ fst (ndcg_at_k stable_kind zeros 2 1 2 true false false) = Raise ValueError
  /\ fst (ndcg_at_k stable_kind (batch [] []) 0 1 2 false false false)
     = Raise IndexError.
Proof.
  split; [|split; [|split]].
  - rewrite ndcg_at_k_stages, scenario_ranker. cbn [fst bind].
    now rewrite scores_nonpositive.
  - rewrite ndcg_at_k_stages. cbn [fst].
    destruct (ranker_bins_returns stable_kind scenario 1 2 false _ _ _
                eq_refl eq_refl scenario_binned) as [y ->].
    cbn [bind]. now rewrite scores_nonpositive.
  - rewrite ndcg_at_k_stages, ranker_unfold, zeros_binned. reflexivity.
  - rewrite ndcg_at_k_stages. cbn [fst].
    destruct (fst (ranker stable_kind (batch [] []) 1 2 false false))
      as [y|e] eqn:E; [|discriminate E].
    cbn [bind]. now rewrite scores_nonpositive.
Qed.

(** C2, amended.  A cutoff beyond the batch size raises in every
    configuration and output mode, and no result is returned.  With bins
    on, an exception of the binner is the exception of the call, whatever
    the cutoff.  In every other case, that is with bins off or with the
    grades computed: a cutoff beyond the batch size raises [IndexError];
    every cutoff from 1 to the batch size, the full ranking [k = n] of a
    batch that is not empty included, returns a result; and a cutoff
    [k <= 0] raises [IndexError] in scalar mode but returns the empty curve
    in curve mode. *)
Theorem ndcg_cutoff_outcomes (K : sort_kind) (ds : DataFrame) (n : nat) (k : Z)
    (actual_col pred_col : Z) (bins reverse multiple : bool)
    (actual predicted : Series) :
  wf_frame ds n ->
  iloc ds (actual_col - 1) = Ok actual ->
  iloc ds (pred_col - 1) = Ok predicted ->
  ((Z.of_nat n < k)%Z ->
     exists e, fst (ndcg_at_k K ds k actual_col pred_col bins reverse multiple)
               = Raise e)
  /\ (forall e, binned_of ds actual_col = Raise e ->
        fst (ndcg_at_k K ds k actual_col pred_col true reverse multiple)
        = Raise e)
  /\ ((bins = true -> exists binned, binned_of ds actual_col = Ok binned) ->
      ((Z.of_nat n < k)%Z ->
         fst (ndcg_at_k K ds k actual_col pred_col bins reverse multiple)
         = Raise IndexError)
      /\ ((1 <= k <= Z.of_nat n)%Z ->
          exists r,
            fst (ndcg_at_k K ds k actual_col pred_col bins reverse multiple)
            = Ok r)
      /\ ((k <= 0)%Z ->
          fst (ndcg_at_k K ds k actual_col pred_col bins reverse multiple)
          = if multiple then Ok (Pair [] []) else Raise IndexError)).
Proof.
  intros Hwf Ha Hp.
  assert (Hlen : forall y,
             fst (ranker K ds actual_col pred_col bins reverse) = Ok y ->
             length y = n).
  { intros y. now apply ranker_length. }
  split; [|split].
  - intros Hk. rewrite ndcg_at_k_stages. cbn [fst].
    destruct (fst (ranker K ds actual_col pred_col bins reverse)) as [y|e] eqn:E.
    + exists IndexError. cbn [bind]. apply scores_overrun.
      now rewrite (Hlen _ eq_refl).
    + exists e. reflexivity.
  - intros e He. now rewrite ndcg_at_k_stages, ranker_unfold, He.
  - intros Hb.
    assert (Hy : exists y,
               fst (ranker K ds actual_col pred_col bins reverse) = Ok y).
    { destruct bins.
      - destruct (Hb eq_refl) as [binned Hbin].
        exact (ranker_bins_returns K ds _ _ reverse _ _ _ Ha Hp Hbin).
      - rewrite (ranker_plain K ds n _ _ reverse _ _ Hwf Ha Hp). cbn [fst].
        eauto. }
    destruct Hy as [y Hy]. pose proof (Hlen y Hy) as Hl.
    rewrite ndcg_at_k_stages, Hy. cbn [fst bind].
    split; [|split]; intros Hk.
    + apply scores_overrun. now rewrite Hl.
    + rewrite scores_valid by (rewrite Hl; lia). eexists. reflexivity.
    + now apply scores_nonpositive.
Qed.

Lemma ndcg_cutoff_outcomes_witness :
  fst (ndcg_at_k stable_kind scenario 4 1 2 true false false) = Raise IndexError
  /\ (exists r, fst (ndcg_at_k stable_kind scenario 3 1 2 true false false) = Ok r)
  /\ fst (ndcg_at_k stable_kind scenario 0 1 2 true false false) = Raise IndexError.
Proof.
  assert (Hb : true = true -> exists binned, binned_of scenario 1 = Ok binned).
  { intros _. exists [INR 4; INR 0; INR 2]. exact scenario_binned. }
  split; [|split].
  - refine (proj1 (proj2 (proj2 (ndcg_cutoff_outcomes stable_kind scenario 3 4
             1 2 true false false [0.9; 0.1; 0.5] [0.2; 0.8; 0.5]
             scenario_wf eq_refl eq_refl)) Hb) _).
    reflexivity.
  - refine (proj1 (proj2 (proj2 (proj2 (ndcg_cutoff_outcomes stable_kind
             scenario 3 3 1 2 true false false [0.9; 0.1; 0.5] [0.2; 0.8; 0.5]
             scenario_wf eq_refl eq_refl)) Hb)) _).
    lia.
  - refine (proj2 (proj2 (proj2 (proj2 (ndcg_cutoff_outcomes stable_kind
             scenario 3 0 1 2 true false false [0.9; 0.1; 0.5] [0.2; 0.8; 0.5]
             scenario_wf eq_refl eq_refl)) Hb)) _).
    lia.
Defined.

(** ** The scoring contract *)

Lemma zeros_ranker (K : sort_kind) (reverse : bool) :
  ranker K zeros 1 2 false reverse = (Ok [0; 0], zeros).
Proof.
  rewrite (ranker_plain K _ 2 1 2 reverse [0; 0] [2; 1]);
    [|wf_batch|reflexivity|reflexivity].
  f_equal. f_equal.
  assert (Hz : Forall (fun x => x = 0)
                 (take (argsort K reverse (if reverse then [0; 0] else [2; 1]))
                       [0; 0])).
  { apply Forall_map, Forall_forall. intros i _.
    destruct i as [|[|[|i]]]; reflexivity. }
  assert (Hl : length (take (argsort K reverse
                               (if reverse then [0; 0] else [2; 1])) [0; 0])
               = 2%nat).
  { rewrite take_length, argsort_length. now destruct reverse. }
  destruct (take _ _) as [|a [|b [|c t]]]; try discriminate.
  inversion Hz as [|? ? -> Hz']; inversion Hz' as [|? ? -> _]. reflexivity.
Qed.



(** C8, as stated, fails: the indices returned with the curve start at 0;
    for k = 3 they are 0, 1, 2 and not 1, 2, 3. *)
Lemma curve_indices_start_at_zero :
  exists score,
    fst (ndcg_at_k stable_kind scenario 3 1 2 false false true)
    = Ok (Pair score [0; 1; 2]%Z).
Proof.
  rewrite ndcg_at_k_stages, scenario_ranker. cbn [fst bind].
  rewrite scores_valid by (simpl; lia).
  eexists. reflexivity.
Qed.

(** C8, amended: in curve mode with a cutoff within the ordering the call
    returns the list of the k prefix scores together with the list of the
    loop indices 0, 1, ..., k-1; the score at position [i] is the one of the
    prefix of length [i+1]. *)
Theorem ndcg_curve_indices (K : sort_kind) (ds : DataFrame) (k : Z)
    (actual_col pred_col : Z) (bins reverse : bool) (y : Series) :
  fst (ranker K ds actual_col pred_col bins reverse) = Ok y ->
  (1 <= k <= Z.of_nat (length y))%Z ->
  fst (ndcg_at_k K ds k actual_col pred_col bins reverse true)
  = Ok (Pair (map (fun i => score_at y (S i)) (seq 0 (Z.to_nat k)))
             (map Z.of_nat (seq 0 (Z.to_nat k)))).
Proof.
  intros Hy Hk. rewrite ndcg_at_k_stages, Hy. cbn [fst bind].
  now rewrite scores_valid.
Qed.

Lemma ndcg_curve_indices_witness :
  fst (ndcg_at_k stable_kind scenario 3 1 2 false false true)
  = Ok (Pair (map (fun i => score_at [0.1; 0.5; 0.9] (S i)) (seq 0 (Z.to_nat 3)))
             (map Z.of_nat (seq 0 (Z.to_nat 3)))).
Proof.
  apply (ndcg_curve_indices stable_kind scenario 3 1 2 false false).
  - now rewrite scenario_ranker.
  - simpl. lia.
Defined.

Lemma nth_map_seq (f : nat -> R) (n i : nat) :
  (i < n)%nat -> nth i (map f (seq 0 n)) 0 = f i.
Proof.
  intros Hi.
  rewrite (nth_indep _ 0 (f O)) by (now rewrite length_map, length_seq).
  rewrite map_nth, seq_nth by exact Hi. reflexivity.
Qed.

(** * The scoring stage in binary64

    Lines 79-100 of [ndcg_at_k] once more, with the arithmetic NumPy and
    CPython perform on a relevance column of dtype float64: the relevance
    values, the two accumulators and the scores are IEEE 754 binary64
    numbers, every sum and quotient is rounded to nearest, a sum can
    overflow to infinity and a quotient of two infinities is NaN; the
    arithmetic raises nothing, only a subscript does.  The integer 0 of
    [a = b = 0] and of [score.append(0)] is the number 0.0.  [math.log2] is
    a function of the C library: the embedding takes it as a parameter
    [log2], and [log2_table] lists the values it returns on the arguments
    the examples use. *)

Module Binary64.

Local Open Scope float_scope.

Definition Series := list float.

Fixpoint insert_desc (x : float) (l : Series) : Series :=
  match l with
  | [] => [x]
  | y :: t => if y <=? x then x :: y :: t else y :: insert_desc x t
  end.

(** [sorted(y_pred, reverse=True)], for values that are not NaN. *)
Definition sorted_rev (l : Series) : Series := fold_right insert_desc [] l.

Record acc : Type := {
  acc_a : float;
  acc_b : float;
  acc_thr : list Z;
  acc_score : list float
}.

(** [a = b = 0], [thr = []], [score = []]. *)
Definition acc0 : acc :=
  {| acc_a := 0; acc_b := 0; acc_thr := []; acc_score := [] |}.

Inductive retval : Type :=
| Scalar (s : float)
| Pair (score : list float) (thr : list Z).

Definition retval_scores (r : retval) : list float :=
  match r with
  | Scalar s => [s]
  | Pair score _ => score
  end.

Section Scoring.

Variable log2 : Z -> float.

(** One iteration of the [for] loop; [not b] holds of both zeros and of
    nothing else. *)
Definition body (y_pred Y_test : Series) (st : acc) (i : nat) : result acc :=
  y <- getitem y_pred i ;;
  let a := acc_a st + y / log2 (Z.of_nat i + 2)%Z in
  t <- getitem Y_test i ;;
  let b := acc_b st + t / log2 (Z.of_nat i + 2)%Z in
  let thr := acc_thr st ++ [Z.of_nat i] in
  let s := if is_zero b then 0 else a / b in
  Ok {| acc_a := a; acc_b := b; acc_thr := thr;
        acc_score := acc_score st ++ [s] |}.

Fixpoint loop (y_pred Y_test : Series) (is_ : list nat) (st : acc) : result acc :=
  match is_ with
  | [] => Ok st
  | i :: rest => st' <- body y_pred Y_test st i ;; loop y_pred Y_test rest st'
  end.

Definition scores (y_pred : Series) (k : Z) (multiple : bool) : result retval :=
  let Y_test := sorted_rev y_pred in
  st <- loop y_pred Y_test (range0 k) acc0 ;;
  if multiple then Ok (Pair (acc_score st) (acc_thr st))
  else s <- py_index (acc_score st) (-1) ;; Ok (Scalar s).

(** The accumulator after [i] iterations over [r]. *)
Fixpoint gain (r : Series) (i : nat) : float :=
  match i with
  | O => 0
  | S j => gain r j + nth j r 0 / log2 (Z.of_nat j + 2)%Z
  end.

(** The score appended for the prefix of length [i]. *)
Definition score_at (y_pred : Series) (i : nat) : float :=
  let a := gain y_pred i in
  let b := gain (sorted_rev y_pred) i in
  if is_zero b then 0 else a / b.

Definition state_at (y_pred : Series) (m : nat) : acc :=
  {| acc_a := gain y_pred m;
     acc_b := gain (sorted_rev y_pred) m;
     acc_thr := map Z.of_nat (seq 0 m);
     acc_score := map (fun i => score_at y_pred (S i)) (seq 0 m) |}.

End Scoring.

(** [math.log2] on the integers from 2 to 9, as CPython returns it. *)
Definition log2_table (n : Z) : float :=
  match n with
  | 2%Z => 1
  | 3%Z => 0x1.95c01a39fbd68p+0
  | 4%Z => 2
  | 5%Z => 0x1.2934f0979a371p+1
  | 6%Z => 0x1.4ae00d1cfdeb4p+1
  | 7%Z => 0x1.675767f54042dp+1
  | 8%Z => 3
  | 9%Z => 0x1.95c01a39fbd68p+1
  | _ => nan
  end.

(** ** The loop *)

Lemma insert_desc_size (x : float) (l : Series) :
  length (insert_desc x l) = S (length l).
Proof.
  induction l as [|y t IH]; simpl; [reflexivity|].
  destruct (y <=? x); simpl; [reflexivity|now rewrite IH].
Qed.

Lemma sorted_rev_size (l : Series) : length (sorted_rev l) = length l.
Proof.
  induction l as [|x t IH]; simpl; [reflexivity|].
  now rewrite insert_desc_size, IH.
Qed.

Lemma insert_desc_member (x z : float) (l : Series) :
  In z (insert_desc x l) -> z = x \/ In z l.
Proof.
  induction l as [|y t IH]; simpl.
  - intros [<-|[]]. now left.
  - destruct (y <=? x); simpl.
    + intros [<-|[<-|H]]; auto.
    + intros [<-|H]; [auto|]. destruct (IH H); auto.
Qed.

Lemma sorted_rev_member (z : float) (l : Series) : In z (sorted_rev l) -> In z l.
Proof.
  induction l as [|x t IH]; simpl; [tauto|].
  intros H. destruct (insert_desc_member _ _ _ H) as [->|H']; auto.
Qed.

Lemma body_step (log2 : Z -> float) (y : Series) (m : nat) :
  (m < length y)%nat ->
  body log2 y (sorted_rev y) (state_at log2 y m) m = Ok (state_at log2 y (S m)).
Proof.
  intros Hm. unfold body.
  rewrite (getitem_lt y m 0 Hm). cbn [bind].
  rewrite (getitem_lt (sorted_rev y) m 0) by (now rewrite sorted_rev_size).
  cbn [bind]. unfold state_at.
  rewrite !seq_S, !map_app. reflexivity.
Qed.

Lemma loop_steps (log2 : Z -> float) (y : Series) (n m : nat) :
  (m + n <= length y)%nat ->
  loop log2 y (sorted_rev y) (seq m n) (state_at log2 y m)
  = Ok (state_at log2 y (m + n)).
Proof.
  revert m. induction n as [|n IH]; intros m H; simpl.
  - now rewrite Nat.add_0_r.
  - rewrite body_step by lia. cbn [bind].
    rewrite IH by lia. do 2 f_equal. lia.
Qed.

(** The scoring stage for a cutoff within the ordering. *)
Lemma scores_within (log2 : Z -> float) (y : Series) (k : Z) (multiple : bool) :
  (1 <= k <= Z.of_nat (length y))%Z ->
  scores log2 y k multiple =
  Ok (if multiple
      then Pair (map (fun i => score_at log2 y (S i)) (seq 0 (Z.to_nat k)))
                (map Z.of_nat (seq 0 (Z.to_nat k)))
      else Scalar (score_at log2 y (Z.to_nat k))).
Proof.
  intros Hk. unfold scores, range0.
  change acc0 with (state_at log2 y 0).
  rewrite loop_steps by lia. cbn [bind].
  destruct multiple; [reflexivity|].
  simpl acc_score.
  destruct (Z.to_nat k) as [|n] eqn:E; [lia|].
  rewrite seq_S, map_app. simpl map at 2.
  rewrite py_index_last. reflexivity.
Qed.

(** ** Binary64 numbers and their specification *)

Lemma Prim2SF_zero : Prim2SF 0 = S754_zero false.
Proof. reflexivity. Qed.

(** A number is a zero, an infinity, NaN, or finite and not zero. *)
Lemma float_cases (x : float) :
  x = 0 \/ x = neg_zero \/ x = infinity \/ x = neg_infinity \/ x = nan
  \/ exists s m e, Prim2SF x = S754_finite s m e.
Proof.
  pose proof (SF2Prim_Prim2SF x) as H.
  destruct (Prim2SF x) as [s|s| |s m e] eqn:E.
  - destruct s; cbn in H; auto.
  - destruct s; cbn in H; auto 6.
  - cbn in H; auto 6.
  - do 5 right. now exists s, m, e.
Qed.

Lemma finite_tests (x : float) (s : bool) (m : positive) (e : Z) :
  Prim2SF x = S754_finite s m e ->
  is_zero x = false /\ is_nan x = false /\ is_infinity x = false.
Proof.
  intros E. unfold is_zero, is_nan, is_infinity.
  rewrite !FloatAxioms.eqb_spec, FloatAxioms.abs_spec, E.
  change (Prim2SF zero) with (S754_zero false).
  change (Prim2SF infinity) with (S754_infinity false).
  repeat split.
  - destruct s; reflexivity.
  - unfold SFeqb, SFcompare.
    destruct s; rewrite Z.compare_refl, Pos.compare_cont_refl; reflexivity.
Qed.

Lemma div_eucl_self (m : positive) :
  Z.div_eucl (Z.shiftl (Zpos m) 53) (Zpos m) = ((2 ^ 53)%Z, 0%Z).
Proof.
  rewrite Z.shiftl_mul_pow2 by lia.
  pose proof (Z.div_eucl_eq (Z.pos m * 2 ^ 53) (Z.pos m) ltac:(lia)) as H.
  pose proof (Z.mod_pos_bound (Z.pos m * 2 ^ 53) (Z.pos m) ltac:(lia)) as Hb.
  unfold Z.modulo in Hb.
  destruct (Z.div_eucl (Z.pos m * 2 ^ 53) (Z.pos m)) as [q r].
  assert (Hq : (2 ^ 53 - q = 0)%Z) by nia.
  assert (Hr : r = 0%Z) by nia.
  subst r. f_equal. lia.
Qed.

(** The quotient of a finite number that is not zero by itself is 1: the
    division is exact, so nothing is rounded. *)
Lemma SFdiv_self (s : bool) (m : positive) (e : Z) :
  SF64div (S754_finite s m e) (S754_finite s m e) = Prim2SF 1.
Proof.
  unfold SF64div, SFdiv, SFdiv_core_binary.
  replace (Zdigits2 (Z.pos m) + e - (Zdigits2 (Z.pos m) + e))%Z with 0%Z by lia.
  replace (e - e)%Z with 0%Z by lia.
  change (Z.min (fexp prec emax 0) 0) with (-53)%Z.
  change (0 - -53)%Z with 53%Z.
  cbv iota beta.
  rewrite div_eucl_self, xorb_nilpotent.
  assert (Hl : new_location (Z.pos m) 0 = loc_Exact).
  { unfold new_location, new_location_even, new_location_odd.
    destruct (Z.even (Z.pos m)); reflexivity. }
  rewrite Hl. reflexivity.
Qed.

(** [x / x] for a number that is not a zero. *)
Lemma div_self (x : float) :
  is_zero x = false -> x / x = if is_finite x then 1 else nan.
Proof.
  intros Hz.
  destruct (float_cases x) as [->|[->|[->|[->|[->|(s & m & e & E)]]]]];
    try discriminate Hz; try reflexivity.
  destruct (finite_tests x s m e E) as (_ & Hn & Hi).
  unfold is_finite. rewrite Hn, Hi. cbn [orb negb].
  apply Prim2SF_inj. now rewrite FloatAxioms.div_spec, E, SFdiv_self.
Qed.
















Lemma score_at_self (log2 : Z -> float) (y : Series) (i : nat) :
  sorted_rev y = y ->
  score_at log2 y i
  = if is_zero (gain log2 y i) then 0
    else if is_finite (gain log2 y i) then 1 else nan.
Proof.
  intros Hs. unfold score_at. rewrite Hs.
  destruct (is_zero (gain log2 y i)) eqn:Hz; [reflexivity|].
  now apply div_self.
Qed.

(** ** An ordering of zeros *)

Lemma zero_cases (x : float) : is_zero x = true -> x = 0 \/ x = neg_zero.
Proof.
  intros Hz.
  destruct (float_cases x) as [->|[->|[->|[->|[->|(s & m & e & E)]]]]];
    auto; try discriminate Hz.
  destruct (finite_tests x s m e E) as (Hz' & _). congruence.
Qed.

Lemma is_zero_of_SF (x : float) (s : bool) :
  Prim2SF x = S754_zero s -> is_zero x = true.
Proof.
  intros E. rewrite <- (SF2Prim_Prim2SF x), E. destruct s; reflexivity.
Qed.

Lemma zero_div_pos (x l : float) :
  is_zero x = true -> (0 <? l) = true -> is_zero (x / l) = true.
Proof.
  intros Hx Hl. rewrite FloatAxioms.ltb_spec, Prim2SF_zero in Hl.
  assert (E : exists s, Prim2SF (x / l) = S754_zero s).
  { rewrite FloatAxioms.div_spec.
    destruct (zero_cases x Hx) as [->| ->];
      [change (Prim2SF 0) with (S754_zero false)
      |change (Prim2SF neg_zero) with (S754_zero true)];
      destruct (Prim2SF l) as [s|s| |s m e]; try destruct s;
      try discriminate Hl; eexists; reflexivity. }
  destruct E as [s E]. exact (is_zero_of_SF _ s E).
Qed.

Lemma zero_add_zero (x y : float) :
  is_zero x = true -> is_zero y = true -> is_zero (x + y) = true.
Proof.
  intros Hx Hy.
  destruct (zero_cases x Hx) as [->| ->], (zero_cases y Hy) as [->| ->];
    reflexivity.
Qed.

Lemma gain_zero (log2 : Z -> float) (y : Series) (k i : nat) :
  Forall (fun x => is_zero x = true) y ->
  (forall j, (j < k)%nat -> (0 <? log2 (Z.of_nat j + 2)%Z) = true) ->
  (i <= k)%nat -> is_zero (gain log2 y i) = true.
Proof.
  intros Hy Hl. induction i as [|j IH]; intros Hi; [reflexivity|].
  cbn [gain]. apply zero_add_zero; [apply IH; lia|].
  apply zero_div_pos; [|apply Hl; lia].
  destruct (Nat.lt_ge_cases j (length y)) as [Hj|Hj].
  - rewrite Forall_forall in Hy. apply Hy. now apply nth_In.
  - now rewrite nth_overflow.
Qed.

(** X24: in binary64 too an ordering whose relevance values are all zero
    (of either sign) scores exactly 0 at every prefix, in both output modes:
    the guard of the division answers before any quotient is formed, so
    there is no NaN. *)
Theorem scores_all_zero (log2 : Z -> float) (y : Series) (k : Z)
    (multiple : bool) :
  Forall (fun x => is_zero x = true) y ->
  (forall i, (i < Z.to_nat k)%nat ->
             (0 <? log2 (Z.of_nat i + 2)%Z) = true) ->
  (1 <= k <= Z.of_nat (length y))%Z ->
  exists r,
    scores log2 y k multiple = Ok r
    /\ length (retval_scores r) = (if multiple then Z.to_nat k else 1%nat)
    /\ Forall (fun s => s = 0) (retval_scores r).
Proof.
  intros Hy Hl Hk. rewrite scores_within by exact Hk.
  assert (Hs : forall i, (i <= Z.to_nat k)%nat -> score_at log2 y i = 0).
  { intros i Hi. unfold score_at.
    rewrite (gain_zero log2 (sorted_rev y) (Z.to_nat k) i); auto.
    rewrite Forall_forall in *. intros x Hx. now apply Hy, sorted_rev_member. }
  eexists. split; [reflexivity|]. destruct multiple; cbn [retval_scores].
  - split; [now rewrite length_map, length_seq|].
    apply Forall_map, Forall_forall. intros i Hi. apply in_seq in Hi.
    apply Hs. lia.
  - split; [reflexivity|]. constructor; [apply Hs; lia|constructor].
Qed.

Lemma scores_all_zero_witness :
  exists r,
    scores log2_table [0; neg_zero; 0] 3 true = Ok r
    /\ length (retval_scores r) = Z.to_nat 3
    /\ Forall (fun s => s = 0) (retval_scores r).
Proof.
  apply (scores_all_zero log2_table [0; neg_zero; 0] 3 true).
  - repeat constructor.
  - intros i Hi. destruct i as [|[|[|i]]]; [reflexivity..|].
    simpl in Hi. lia.
  - simpl. lia.
Defined.

End Binary64.

(** ** The ideal ordering as prediction *)

(** C5, as stated, fails.  When every relevance value is 0 the prediction
    ordering is the ideal ordering and every score is 0, not 1.  When the
    accumulated gain overflows (two relevance values of 1.7e308) the
    prediction ordering is again the ideal ordering and the score of the
    second prefix is the quotient of two infinities, NaN. *)
Lemma ideal_ordering_zero_relevance :
  fst (ranker stable_kind zeros 1 2 false false) = Ok [0; 0]
  /\ sorted_rev [0; 0] = [0; 0]
  /\ fst (ndcg_at_k stable_kind zeros 2 1 2 false false true)
     = Ok (Pair [0; 0] [0; 1]%Z)
  /\ Binary64.sorted_rev [0; 0]%float = [0; 0]%float
  /\ Binary64.scores Binary64.log2_table [0; 0]%float 2 true
     = Ok (Binary64.Pair [0; 0]%float [0; 1]%Z)
  /\ Binary64.sorted_rev
       [0x1.e42d130773b76p+1023; 0x1.e42d130773b76p+1023]%float
     = [0x1.e42d130773b76p+1023; 0x1.e42d130773b76p+1023]%float
  /\ Binary64.scores Binary64.log2_table
       [0x1.e42d130773b76p+1023; 0x1.e42d130773b76p+1023]%float 2 true
     = Ok (Binary64.Pair [1; nan]%float [0; 1]%Z).
Proof.
  split; [now rewrite zeros_ranker|].
  split; [eval_reals; reflexivity|].
  split.
  - rewrite ndcg_at_k_stages, zeros_ranker. cbn [fst bind].
    rewrite scores_valid by (simpl; lia).
    change (Z.to_nat 2) with 2%nat. cbn [seq map].
    rewrite !score_at_all_zero by (repeat constructor). reflexivity.
  - repeat split; vm_compute; reflexivity.
Qed.

(** C5, amended: when the evaluation ordering is its own ideal ordering and
    the cutoff is within it, the accumulated gain of every prefix equals its
    ideal accumulated gain [b], and the score of the prefix is 0 if [b] is
    zero, exactly 1.0 if [b] is finite and not zero, and NaN if [b] has
    overflowed to infinity (or is NaN); the scalar mode returns the last of
    these scores.  This is the binary64 arithmetic of the program, for every
    [math.log2]. *)
Theorem ndcg_ideal_ordering_scores (log2 : Z -> float) (y : Binary64.Series)
    (k : Z) :
  Binary64.sorted_rev y = y ->
  (1 <= k <= Z.of_nat (length y))%Z ->
  exists score,
    Binary64.scores log2 y k true
    = Ok (Binary64.Pair score (map Z.of_nat (seq 0 (Z.to_nat k))))
    /\ length score = Z.to_nat k
    /\ (forall i, (i < Z.to_nat k)%nat ->
          let b := Binary64.gain log2 (Binary64.sorted_rev y) (S i) in
          Binary64.gain log2 y (S i) = b
          /\ nth i score 0%float
             = if is_zero b then 0%float
               else if is_finite b then 1%float else nan)
    /\ Binary64.scores log2 y k false
       = Ok (Binary64.Scalar (nth (Z.to_nat k - 1) score 0%float)).
Proof.
  intros Hs Hk. rewrite !Binary64.scores_within by exact Hk.
  eexists. split; [reflexivity|].
  split; [now rewrite length_map, length_seq|].
  assert (Hn : forall i, (i < Z.to_nat k)%nat ->
             nth i (map (fun i => Binary64.score_at log2 y (S i))
                        (seq 0 (Z.to_nat k))) 0%float
             = Binary64.score_at log2 y (S i)).
  { intros i Hi.
    rewrite (nth_indep _ 0%float (Binary64.score_at log2 y 1))
      by (now rewrite length_map, length_seq).
    rewrite (map_nth (fun i => Binary64.score_at log2 y (S i))
               (seq 0 (Z.to_nat k)) 0%nat i).
    now rewrite seq_nth. }
  split.
  - intros i Hi. cbv zeta. rewrite Hs. split; [reflexivity|].
    rewrite Hn by exact Hi. now apply Binary64.score_at_self.
  - rewrite Hn by lia. do 3 f_equal. lia.
Qed.

Lemma ndcg_ideal_ordering_scores_witness :
  exists score,
    Binary64.scores Binary64.log2_table [3; 2; 1]%float 3 true
    = Ok (Binary64.Pair score (map Z.of_nat (seq 0 (Z.to_nat 3))))
    /\ length score = Z.to_nat 3
    /\ (forall i, (i < Z.to_nat 3)%nat ->
          let b := Binary64.gain Binary64.log2_table
                     (Binary64.sorted_rev [3; 2; 1]%float) (S i) in
          Binary64.gain Binary64.log2_table [3; 2; 1]%float (S i) = b
          /\ nth i score 0%float
             = if is_zero b then 0%float
               else if is_finite b then 1%float else nan)
    /\ Binary64.scores Binary64.log2_table [3; 2; 1]%float 3 false
       = Ok (Binary64.Scalar (nth (Z.to_nat 3 - 1) score 0%float)).
Proof.
  apply (ndcg_ideal_ordering_scores Binary64.log2_table [3; 2; 1]%float 3).
  - reflexivity.
  - simpl. lia.
Defined.

(** ** Range of the scores *)




(** In exact arithmetic, that is for the quotients of the real-valued sums
    the two accumulators approximate, the scores of nonnegative relevance
    values lie in [0, 1]: by the rearrangement inequality no ordering
    accumulates more discounted gain than the descending one. *)
Lemma scores_in_unit_interval_exact (K : sort_kind) (ds : DataFrame) (n : nat)
    (k : Z) (actual_col pred_col : Z) (bins reverse multiple : bool)
    (actual predicted : Series) :
  wf_frame ds n ->
  iloc ds (actual_col - 1) = Ok actual ->
  iloc ds (pred_col - 1) = Ok predicted ->
  (bins = false -> Forall (fun x => 0 <= x) actual) ->
  (1 <= k <= Z.of_nat n)%Z ->
  forall r,
    fst (ndcg_at_k K ds k actual_col pred_col bins reverse multiple) = Ok r ->
    length (retval_scores r) = (if multiple then Z.to_nat k else 1%nat)
    /\ Forall (fun s => 0 <= s <= 1) (retval_scores r).
Proof.
  intros Hwf Ha Hp Hnn Hk. rewrite ndcg_at_k_stages. cbn [fst].
  assert (Hy : forall y, fst (ranker K ds actual_col pred_col bins reverse) = Ok y ->
                         length y = n /\ Forall (fun x => 0 <= x) y).
  { intros y Hy. split; [eapply ranker_length; eauto|].
    destruct bins; [eapply ranker_bins_nonneg; eauto|].
    rewrite (ranker_plain K ds n _ _ reverse _ _ Hwf Ha Hp) in Hy.
    cbn [fst] in Hy. injection Hy as <-. apply take_nonneg. now apply Hnn. }
  intros r. destruct (fst (ranker K ds actual_col pred_col bins reverse))
    as [y|e]; cbn [bind]; [|discriminate].
  destruct (Hy y eq_refl) as [Hl Hpos]. intros Hr.
  apply scores_length in Hr; [|rewrite Hl; exact Hk].
  destruct Hr as [H1 H2]. split; [exact H1|now apply H2].
Qed.

(** ** Grades follow the order of the values *)

Lemma mapM_Forall2 {A B : Type} (f : A -> result B) (l : list A) (l' : list B) :
  mapM f l = Ok l' -> Forall2 (fun x y => f x = Ok y) l l'.
Proof.
  revert l'. induction l as [|x t IH]; simpl; intros l'.
  - intros [= <-]. constructor.
  - destruct (f x) as [y|e] eqn:E; simpl; [|discriminate].
    destruct (mapM f t) as [ys|e]; simpl; [|discriminate].
    intros [= <-]. constructor; [exact E|now apply IH].
Qed.

Lemma searchsorted_mono (edges : list R) (x x' : R) :
  x <= x' -> (searchsorted edges x <= searchsorted edges x')%nat.
Proof.
  intros Hx. unfold searchsorted.
  induction edges as [|e t IH]; simpl; [lia|].
  destruct (Rlt_dec e x) as [H|H]; destruct (Rlt_dec e x') as [H'|H'];
    simpl; try lia.
  exfalso. lra.
Qed.

Lemma increasing_lower (e0 : R) (t : list R) :
  increasing (e0 :: t) = true -> Forall (fun e => e0 <= e) t.
Proof.
  revert e0. induction t as [|e1 t IH]; intros e0 H; [constructor|].
  simpl in H. destruct (Rlt_dec e0 e1) as [Hlt|]; [|discriminate].
  constructor; [lra|].
  eapply Forall_impl; [|apply IH; exact H]. simpl. intros; lra.
Qed.

Lemma searchsorted_lowest (edges : list R) (x : R) :
  increasing edges = true -> x <= nth 0 edges 0 -> searchsorted edges x = O.
Proof.
  intros Hi Hx. destruct edges as [|e0 t]; [reflexivity|].
  pose proof (increasing_lower e0 t Hi) as Hall. simpl in Hx.
  unfold searchsorted. simpl.
  destruct (Rlt_dec e0 x) as [H|_]; [exfalso; lra|].
  induction t as [|e1 t IH]; [reflexivity|].
  inversion Hall as [|? ? H1 Hall']; subst. simpl.
  destruct (Rlt_dec e1 x) as [H|_]; [exfalso; lra|].
  apply IH; [|exact Hall'].
  simpl in Hi. destruct (Rlt_dec e0 e1) as [H01|]; [|discriminate].
  destruct t as [|e2 t']; [reflexivity|].
  simpl in Hi |- *. destruct (Rlt_dec e1 e2) as [H12|]; [|discriminate].
  destruct (Rlt_dec e0 e2) as [_|H02]; [exact Hi|exfalso; lra].
Qed.

Lemma nth_error_labels (i g : nat) : nth_error labels i = Some g -> g = i.
Proof.
  unfold labels.
  do 5 (destruct i as [|i]; [now intros [= <-]|]). simpl.
  destruct i; discriminate.
Qed.

(** A larger value never gets a smaller grade. *)
Lemma cut1_mono (edges : list R) (x x' g g' : R) :
  increasing edges = true ->
  cut1 edges labels x = Ok g -> cut1 edges labels x' = Ok g' ->
  x <= x' -> g <= g'.
Proof.
  intros Hi. unfold cut1.
  set (ids := if Req_dec_T x (nth 0 edges 0) then 1%nat
              else searchsorted edges x).
  set (ids' := if Req_dec_T x' (nth 0 edges 0) then 1%nat
               else searchsorted edges x').
  destruct ((ids =? 0)%nat || (ids =? length edges)%nat)%bool eqn:E;
    [discriminate|].
  destruct ((ids' =? 0)%nat || (ids' =? length edges)%nat)%bool eqn:E';
    [discriminate|].
  apply orb_false_iff in E, E'. destruct E as [E _], E' as [E' _].
  apply Nat.eqb_neq in E, E'.
  destruct (nth_error labels (ids - 1)) as [n|] eqn:N; [|discriminate].
  destruct (nth_error labels (ids' - 1)) as [n'|] eqn:N'; [|discriminate].
  apply nth_error_labels in N, N'. intros [= <-] [= <-] Hx.
  apply le_INR. subst n n'.
  assert (ids <= ids')%nat; [|lia].
  unfold ids, ids' in *.
  destruct (Req_dec_T x (nth 0 edges 0)) as [Hx0|Hx0];
    destruct (Req_dec_T x' (nth 0 edges 0)) as [Hx0'|Hx0'].
  - lia.
  - lia.
  - rewrite (searchsorted_lowest edges x Hi) in E by lra. contradiction.
  - now apply searchsorted_mono.
Qed.

Lemma Forall2_take (P : R -> R -> Prop) (l l' : Series)
    (idx : list nat) :
  Forall2 P l l' -> (forall i, In i idx -> (i < length l)%nat) ->
  Forall2 P (take idx l) (take idx l').
Proof.
  intros H Hidx. unfold take.
  induction idx as [|i t IH]; simpl; [constructor|].
  constructor.
  - assert (Hi : (i < length l)%nat) by (apply Hidx; now left).
    clear IH Hidx. revert i Hi.
    induction H as [|x y l l' Hxy H IH]; intros i Hi; simpl in *; [lia|].
    destruct i as [|i]; [exact Hxy|]. apply IH. lia.
  - apply IH. intros j Hj. apply Hidx. now right.
Qed.

Lemma sorted_Forall2 (P : R -> R -> Prop) (xs gs : Series) :
  (forall x x' g g', P x g -> P x' g' -> x <= x' -> g <= g') ->
  Forall2 P xs gs ->
  StronglySorted (ord true) xs -> StronglySorted (ord true) gs.
Proof.
  intros Hmono H. induction H as [|x g xs gs Hxg H IH]; intros Hs.
  - constructor.
  - inversion Hs as [|? ? Hs' Hall]; subst.
    constructor; [now apply IH|].
    clear IH Hs Hs'. induction H as [|x' g' xs gs Hxg' H IH]; [constructor|].
    inversion Hall; subst. constructor; [|now apply IH].
    simpl in *. eapply Hmono; eauto.
Qed.

(** ** Baseline against prediction ordering *)

Lemma py_index_nonneg {A : Type} (l : list A) (c : Z) (x : A) :
  (0 <= c)%Z -> py_index l c = Ok x -> nth_error l (Z.to_nat c) = Some x.
Proof.
  intros Hc. unfold py_index.
  replace (c <? 0)%Z with false by (symmetry; apply Z.ltb_ge; lia).
  destruct (_ && _)%bool; [|discriminate].
  destruct (nth_error l (Z.to_nat c)); [now intros [= ->]|discriminate].
Qed.

Lemma py_index_of_nth {A : Type} (l : list A) (c : Z) (x : A) :
  (0 <= c)%Z -> nth_error l (Z.to_nat c) = Some x -> py_index l c = Ok x.
Proof.
  intros Hc H. unfold py_index.
  replace (c <? 0)%Z with false by (symmetry; apply Z.ltb_ge; lia).
  assert (Hlt : (Z.to_nat c < length l)%nat).
  { apply nth_error_Some. now rewrite H. }
  replace (0 <=? c)%Z with true by (symmetry; apply Z.leb_le; lia).
  replace (c <? Z.of_nat (length l))%Z with true
    by (symmetry; apply Z.ltb_lt; lia).
  simpl. now rewrite H.
Qed.

Lemma nth_error_setitem (ds : DataFrame) (label : string) (v : Series)
    (i : nat) (l : string) (w : Series) :
  nth_error ds i = Some (l, w) ->
  exists w', nth_error (setitem ds label v) i = Some (l, w').
Proof.
  revert i. induction ds as [|[l0 w0] rest IH]; intros i; simpl.
  - destruct i; discriminate.
  - destruct (String.eqb l0 label); destruct i as [|i]; simpl.
    + intros [= -> ->]. now exists v.
    + intros H. now exists w.
    + intros [= -> ->]. now exists w.
    + apply IH.
Qed.

(** Assigning a column does not move the labels at positions counted from
    the left. *)
Lemma columns_setitem (ds : DataFrame) (label : string) (v : Series) (c : Z)
    (l : string) :
  (0 <= c)%Z -> columns ds c = Ok l -> columns (setitem ds label v) c = Ok l.
Proof.
  intros Hc. unfold columns.
  destruct (py_index ds c) as [[l0 w]|e] eqn:E; simpl; [|discriminate].
  intros [= ->]. apply py_index_nonneg in E; [|exact Hc].
  destruct (nth_error_setitem ds label v _ _ _ E) as [w' Hw'].
  now rewrite (py_index_of_nth _ _ _ Hc Hw').
Qed.

Lemma binned_of_inv (ds : DataFrame) (actual_col : Z) (actual binned : Series) :
  iloc ds (actual_col - 1) = Ok actual ->
  binned_of ds actual_col = Ok binned ->
  exists edges, increasing edges = true
                /\ mapM (cut1 edges labels) actual = Ok binned.
Proof.
  intros Ha. unfold binned_of. rewrite Ha. cbn [bind].
  destruct (quantile actual quantile_list) as [edges|e]; cbn [bind];
    [|discriminate].
  unfold cut. destruct (increasing edges) eqn:Ei; [|discriminate].
  destruct (_ =? _)%nat; [|discriminate].
  intros H. now exists edges.
Qed.

(** With bins, the baseline ordering is the ascending arrangement of the
    grades and the prediction ordering is a rearrangement of them. *)
Lemma ranker_bins_orders (K : sort_kind) (ds : DataFrame) (n : nat)
    (actual_col pred_col : Z) (actual binned : Series) :
  wf_frame ds n -> (1 <= actual_col)%Z ->
  iloc ds (actual_col - 1) = Ok actual ->
  binned_of ds actual_col = Ok binned ->
  fst (ranker K ds actual_col pred_col true true) = Ok (sort_asc binned)
  /\ forall yp, fst (ranker K ds actual_col pred_col true false) = Ok yp ->
                Permutation yp binned.
Proof.
  intros Hwf Hac Ha Hb.
  pose proof (binned_of_length _ _ _ _ Hwf Hb) as Hbl.
  pose proof (setitem_wf ds n "binned"%string binned Hwf Hbl) as Hwf1.
  rewrite !ranker_unfold, Hb. cbn [fst]. unfold ordered_by. split.
  - destruct (iloc_inv _ _ _ Ha) as [la Hla].
    assert (Hcol : columns ds (actual_col - 1) = Ok la).
    { unfold columns. now rewrite Hla. }
    assert (Hc0 : (0 <= actual_col - 1)%Z) by lia.
    rewrite (columns_setitem ds "binned"%string binned _ la Hc0 Hcol).
    cbn [bind]. unfold sort_values.
    pose proof (In_get_col _ _ _ (proj1 Hwf) (py_index_In _ _ _ Hla)) as Ga.
    pose proof (iloc_length _ _ _ _ Hwf Ha) as Hal.
    destruct (String.eqb la "binned"%string) eqn:El.
    + apply String.eqb_eq in El. subst la.
      rewrite get_setitem. cbn [bind].
      rewrite get_col_map, get_setitem. cbn [bind].
      now rewrite take_keys_asc.
    + rewrite get_setitem_other, Ga by exact El. cbn [bind].
      rewrite get_col_map, get_setitem. cbn [bind]. f_equal.
      destruct (binned_of_inv _ _ _ _ Ha Hb) as [edges [Hinc Hm]].
      apply (sorted_unique true).
      * apply (sorted_Forall2 (fun x g => cut1 edges labels x = Ok g)
                 (take (argsort K true actual) actual)).
        -- intros x x' g g'. now apply cut1_mono.
        -- apply Forall2_take; [now apply mapM_Forall2|].
           intros i. apply argsort_In.
        -- apply argsort_sorted.
      * apply sort_asc_sorted.
      * eapply perm_trans; [apply take_perm; lia|].
        apply Permutation_sym, sort_asc_perm.
  - intros yp.
    destruct (columns _ (pred_col - 1)) as [by_|e]; cbn [bind]; [|discriminate].
    unfold sort_values.
    destruct (get_col _ by_) as [keys|e] eqn:Ek; cbn [bind]; [|discriminate].
    rewrite get_col_map, get_setitem. cbn [bind]. intros [= <-].
    apply take_perm. now rewrite Hbl, (get_col_length _ _ _ _ Hwf1 Ek).
Qed.

(** In every configuration the baseline ordering is the ascending
    arrangement of the prediction ordering. *)
Lemma ranker_baseline (K : sort_kind) (ds : DataFrame) (n : nat)
    (actual_col pred_col : Z) (bins : bool) (actual predicted yb yp : Series) :
  wf_frame ds n -> (1 <= actual_col)%Z ->
  iloc ds (actual_col - 1) = Ok actual ->
  iloc ds (pred_col - 1) = Ok predicted ->
  (bins = false -> Forall (fun x => 0 <= x) actual) ->
  fst (ranker K ds actual_col pred_col bins true) = Ok yb ->
  fst (ranker K ds actual_col pred_col bins false) = Ok yp ->
  yb = sort_asc yp /\ Forall (fun x => 0 <= x) yp.
Proof.
  intros Hwf Hac Ha Hp Hnn Hyb Hyp. destruct bins.
  - split; [|eapply ranker_bins_nonneg; eauto].
    destruct (binned_of ds actual_col) as [binned|e] eqn:Hb.
    + destruct (ranker_bins_orders K ds n actual_col pred_col _ _
                  Hwf Hac Ha Hb) as [H1 H2].
      rewrite H1 in Hyb. injection Hyb as <-.
      apply sort_asc_of_perm, Permutation_sym, H2, Hyp.
    + rewrite ranker_unfold, Hb in Hyb. discriminate.
  - rewrite (ranker_plain K ds n _ _ true _ _ Hwf Ha Hp) in Hyb.
    rewrite (ranker_plain K ds n _ _ false _ _ Hwf Ha Hp) in Hyp.
    cbn [fst] in *. injection Hyb as <-. injection Hyp as <-.
    assert (Hl : length actual = length predicted).
    { now rewrite (iloc_length _ _ _ _ Hwf Ha), (iloc_length _ _ _ _ Hwf Hp). }
    split.
    + rewrite take_keys_asc. apply sort_asc_of_perm, Permutation_sym.
      now apply take_perm.
    + apply take_nonneg. now apply Hnn.
Qed.







(** In exact arithmetic, that is for the quotients of the real-valued sums
    the two accumulators approximate, and for relevance values that are not
    negative, each score of the baseline call is at most the score of the
    prediction-ordering call at the same prefix. *)
Lemma baseline_le_prediction_exact (K : sort_kind) (ds : DataFrame) (n : nat)
    (k : Z) (actual_col pred_col : Z) (bins multiple : bool)
    (actual predicted : Series) :
  wf_frame ds n ->
  (1 <= actual_col)%Z ->
  iloc ds (actual_col - 1) = Ok actual ->
  iloc ds (pred_col - 1) = Ok predicted ->
  (bins = false -> Forall (fun x => 0 <= x) actual) ->
  (1 <= k <= Z.of_nat n)%Z ->
  forall rb rp,
    fst (ndcg_at_k K ds k actual_col pred_col bins true multiple) = Ok rb ->
    fst (ndcg_at_k K ds k actual_col pred_col bins false multiple) = Ok rp ->
    Forall2 Rle (retval_scores rb) (retval_scores rp).
Proof.
  intros Hwf Hac Ha Hp Hnn Hk. rewrite !ndcg_at_k_stages. cbn [fst].
  intros rb rp.
  destruct (fst (ranker K ds actual_col pred_col bins true)) as [yb|e] eqn:Eb;
    cbn [bind]; [|discriminate].
  destruct (fst (ranker K ds actual_col pred_col bins false)) as [yp|e] eqn:Ep;
    cbn [bind]; [|discriminate].
  destruct (ranker_baseline K ds n actual_col pred_col bins _ _ yb yp
              Hwf Hac Ha Hp Hnn Eb Ep) as [-> Hpos].
  pose proof (ranker_length K ds n _ _ _ _ _ Hwf Eb) as Lb.
  pose proof (ranker_length K ds n _ _ _ _ _ Hwf Ep) as Lp.
  rewrite !scores_valid by (rewrite ?Lb, ?Lp; exact Hk).
  intros [= <-] [= <-]. destruct multiple; cbn [retval_scores].
  - induction (seq 0 (Z.to_nat k)) as [|i t IH]; simpl; constructor.
    + now apply score_at_worst.
    + exact IH.
  - constructor; [now apply score_at_worst|constructor].
Qed.


Lemma rankdata_1234 : rankdata [1; 2; 3; 4] = [1; 2; 3; 4].
Proof.
  unfold rankdata, rank. cbn [map filter]. decide_reals. cbn [length INR].
  repeat (apply f_equal2; [lra|]). reflexivity.
Qed.

Lemma rankdata_4321 : rankdata [4; 3; 2; 1] = [4; 3; 2; 1].
Proof.
  unfold rankdata, rank. cbn [map filter]. decide_reals. cbn [length INR].
  repeat (apply f_equal2; [lra|]). reflexivity.
Qed.

Ltac eval_codev :=
  unfold codev, mean, Rsum;
  cbn [combine map fold_right fst snd length INR]; lra.

Lemma pearson_reversed : pearson [1; 2; 3; 4] [4; 3; 2; 1] = Ok (-1).
Proof.
  unfold pearson.
  replace (codev [1; 2; 3; 4] [4; 3; 2; 1]) with (-5) by eval_codev.
  replace (codev [1; 2; 3; 4] [1; 2; 3; 4]) with 5 by eval_codev.
  replace (codev [4; 3; 2; 1] [4; 3; 2; 1]) with 5 by eval_codev.
  rewrite sqrt_square by lra. unfold fdiv.
  destruct (Req_dec_T 5 0) as [E|_]; [exfalso; lra|].
  f_equal. lra.
Qed.

(** C9: for actual = [1,2,3,4] and predicted = [4,3,2,1] the coefficient
    returned by [spearman_ds] is -1, whatever the missing-value policy. *)
Theorem spearman_reversed_sequences (pvalue : R -> nat -> R)
    (policy : nan_policy) :
  spearman_ds pvalue (batch [1; 2; 3; 4] [4; 3; 2; 1]) 1 2 false policy
  = Ok (Coefficient (-1)).
Proof.
  unfold spearman_ds, batch.
  change (iloc _ (1 - 1)) with (Ok (A:=Series) [1; 2; 3; 4]).
  change (iloc _ (2 - 1)) with (Ok (A:=Series) [4; 3; 2; 1]).
  cbn [bind]. unfold spearmanr. cbn [length Nat.eqb].
  rewrite rankdata_1234, rankdata_4321, pearson_reversed. reflexivity.
Qed.

(** ** Ties in the predicted scores *)






(** * Further properties of [ndcg_at_k] *)

(** ** Cutoffs of one ordering *)

Lemma firstn_seq_le (a k k' : nat) :
  (k <= k')%nat -> firstn k (seq a k') = seq a k.
Proof.
  revert a k'. induction k as [|k IH]; intros a k' H; [reflexivity|].
  destruct k' as [|k']; [lia|]. simpl. f_equal. apply IH. lia.
Qed.

Lemma firstn_map_seq {A : Type} (f : nat -> A) (k k' : nat) :
  (k <= k')%nat -> firstn k (map f (seq 0 k')) = map f (seq 0 k).
Proof. intros H. now rewrite firstn_map, firstn_seq_le. Qed.

(** X1: the score of a prefix does not depend on the cutoff.  For cutoffs
    1 <= k <= k' within the ordering, the curve returned for k is the first k
    entries of the curve returned for k' (scores and indices alike), and the
    scalar returned for k is entry k-1 of that longer curve. *)
Theorem ndcg_curve_prefix (K : sort_kind) (ds : DataFrame) (k k' : Z)
    (actual_col pred_col : Z) (bins reverse : bool) (y : Series) :
  fst (ranker K ds actual_col pred_col bins reverse) = Ok y ->
  (1 <= k <= k')%Z -> (k' <= Z.of_nat (length y))%Z ->
  exists score thr,
    fst (ndcg_at_k K ds k' actual_col pred_col bins reverse true)
    = Ok (Pair score thr)
    /\ fst (ndcg_at_k K ds k actual_col pred_col bins reverse true)
       = Ok (Pair (firstn (Z.to_nat k) score) (firstn (Z.to_nat k) thr))
    /\ fst (ndcg_at_k K ds k actual_col pred_col bins reverse false)
       = Ok (Scalar (nth (Z.to_nat k - 1) score 0)).
Proof.
  intros Hy Hk Hk'. rewrite !ndcg_at_k_stages, Hy. cbn [fst bind].
  rewrite !scores_valid by lia.
  eexists _, _. split; [reflexivity|].
  rewrite !firstn_map_seq by lia. split; [reflexivity|].
  rewrite nth_map_seq by lia. do 3 f_equal. lia.
Qed.

Lemma ndcg_curve_prefix_witness :
  exists score thr,
    fst (ndcg_at_k stable_kind scenario 3 1 2 false false true)
    = Ok (Pair score thr)
    /\ fst (ndcg_at_k stable_kind scenario 2 1 2 false false true)
       = Ok (Pair (firstn (Z.to_nat 2) score) (firstn (Z.to_nat 2) thr))
    /\ fst (ndcg_at_k stable_kind scenario 2 1 2 false false false)
       = Ok (Scalar (nth (Z.to_nat 2 - 1) score 0)).
Proof.
  apply (ndcg_curve_prefix stable_kind scenario 2 3 1 2 false false
           [0.1; 0.5; 0.9]).
  - now rewrite scenario_ranker.
  - lia.
  - simpl. lia.
Defined.

(** ** Independence from the tie-break of the sort *)

(** X2: the baseline call does not depend on how [sort_values] orders rows
    with equal keys: for column positions counted from 1, any two sorts give
    the same result and leave the same frame, with and without bins. *)
Theorem ndcg_baseline_sort_independent (K K' : sort_kind) (ds : DataFrame)
    (n : nat) (k : Z) (actual_col pred_col : Z) (bins multiple : bool)
    (actual predicted : Series) :
  wf_frame ds n ->
  (1 <= actual_col)%Z ->
  iloc ds (actual_col - 1) = Ok actual ->
  iloc ds (pred_col - 1) = Ok predicted ->
  ndcg_at_k K ds k actual_col pred_col bins true multiple
  = ndcg_at_k K' ds k actual_col pred_col bins true multiple.
Proof.
  intros Hwf Hac Ha Hp. rewrite !ndcg_at_k_stages.
  assert (E : ranker K ds actual_col pred_col bins true
              = ranker K' ds actual_col pred_col bins true);
    [|now rewrite E].
  destruct bins.
  - destruct (binned_of ds actual_col) as [binned|e] eqn:Hb.
    + pose proof (proj1 (ranker_bins_orders K ds n actual_col pred_col _ _
                           Hwf Hac Ha Hb)) as H1.
      pose proof (proj1 (ranker_bins_orders K' ds n actual_col pred_col _ _
                           Hwf Hac Ha Hb)) as H2.
      rewrite (surjective_pairing (ranker K ds actual_col pred_col true true)).
      rewrite (surjective_pairing (ranker K' ds actual_col pred_col true true)).
      rewrite H1, H2. f_equal.
      rewrite !ranker_unfold, Hb. reflexivity.
    + rewrite !ranker_unfold, Hb. reflexivity.
  - rewrite !(ranker_plain _ ds n _ _ true _ _ Hwf Ha Hp).
    now rewrite !take_keys_asc.
Qed.

Lemma ndcg_baseline_sort_independent_witness :
  ndcg_at_k stable_kind ties 2 1 2 false true true
  = ndcg_at_k reversing_kind ties 2 1 2 false true true.
Proof.
  apply (ndcg_baseline_sort_independent stable_kind reversing_kind ties 2 2 1 2
           false true [1; 2] [5; 5]).
  - wf_batch.
  - lia.
  - reflexivity.
  - reflexivity.
Defined.

(** X3: when no two predicted scores are equal, the prediction-ordering call
    without bins does not depend on the sort either. *)
Theorem ndcg_prediction_sort_independent (K K' : sort_kind) (ds : DataFrame)
    (n : nat) (k : Z) (actual_col pred_col : Z) (multiple : bool)
    (actual predicted : Series) :
  wf_frame ds n ->
  iloc ds (actual_col - 1) = Ok actual ->
  iloc ds (pred_col - 1) = Ok predicted ->
  NoDup predicted ->
  ndcg_at_k K ds k actual_col pred_col false false multiple
  = ndcg_at_k K' ds k actual_col pred_col false false multiple.
Proof.
  intros Hwf Ha Hp Hnd. rewrite !ndcg_at_k_stages.
  rewrite !(ranker_plain _ ds n _ _ false _ _ Hwf Ha Hp).
  now rewrite (argsort_unique K K' false predicted Hnd).
Qed.

Lemma ndcg_prediction_sort_independent_witness :
  ndcg_at_k stable_kind scenario 3 1 2 false false true
  = ndcg_at_k reversing_kind scenario 3 1 2 false false true.
Proof.
  apply (ndcg_prediction_sort_independent stable_kind reversing_kind scenario
           3 3 1 2 true [0.9; 0.1; 0.5] [0.2; 0.8; 0.5] scenario_wf
           eq_refl eq_refl).
  nodup_reals.
Defined.

(** ** Calling again on the frame a call has left *)

Lemma nth_error_setitem_other (ds : DataFrame) (label : string) (v : Series)
    (i : nat) (l : string) (w : Series) :
  String.eqb l label = false ->
  nth_error ds i = Some (l, w) ->
  nth_error (setitem ds label v) i = Some (l, w).
Proof.
  intros Hne. revert i. induction ds as [|[l0 w0] rest IH]; intros i; simpl.
  - destruct i; discriminate.
  - destruct (String.eqb l0 label) eqn:E; destruct i as [|i]; simpl.
    + intros [= -> ->]. congruence.
    + trivial.
    + trivial.
    + apply IH.
Qed.

Lemma setitem_again (ds : DataFrame) (label : string) (v v' : Series) :
  setitem (setitem ds label v) label v' = setitem ds label v'.
Proof.
  induction ds as [|[l0 w0] rest IH]; simpl.
  - now rewrite String.eqb_refl.
  - destruct (String.eqb l0 label) eqn:E; simpl; rewrite E; [reflexivity|].
    now rewrite IH.
Qed.

Lemma iloc_setitem_other (ds : DataFrame) (label : string) (v : Series)
    (c : Z) (l : string) (w : Series) :
  (0 <= c)%Z -> String.eqb l label = false ->
  py_index ds c = Ok (l, w) -> iloc (setitem ds label v) c = Ok w.
Proof.
  intros Hc Hne H. apply py_index_nonneg in H; [|exact Hc].
  unfold iloc.
  rewrite (py_index_of_nth _ _ _ Hc (nth_error_setitem_other _ _ v _ _ _ Hne H)).
  reflexivity.
Qed.

(** X4: a call is idempotent, its effect on the frame included.  When the
    relevance column is not itself labelled "binned" and its position is
    counted from 1, calling [ndcg_at_k] again with the same arguments on the
    frame the first call has left returns the same result and leaves the
    same frame. *)
Theorem ndcg_call_again (K : sort_kind) (ds : DataFrame) (k : Z)
    (actual_col pred_col : Z) (bins reverse multiple : bool)
    (la : string) (actual : Series) :
  (1 <= actual_col)%Z ->
  py_index ds (actual_col - 1) = Ok (la, actual) ->
  String.eqb la "binned"%string = false ->
  ndcg_at_k K
    (snd (ndcg_at_k K ds k actual_col pred_col bins reverse multiple))
    k actual_col pred_col bins reverse multiple
  = ndcg_at_k K ds k actual_col pred_col bins reverse multiple.
Proof.
  intros Hac Hla Hne. rewrite !ndcg_at_k_stages. cbn [snd].
  assert (E : ranker K (snd (ranker K ds actual_col pred_col bins reverse))
                actual_col pred_col bins reverse
              = ranker K ds actual_col pred_col bins reverse);
    [|now rewrite E].
  rewrite (ranker_unfold K ds). destruct bins; [|cbn [snd]; apply ranker_unfold].
  destruct (binned_of ds actual_col) as [binned|e] eqn:Hb; cbn [snd].
  - rewrite ranker_unfold.
    assert (Hb' : binned_of (setitem ds "binned"%string binned) actual_col
                  = Ok binned).
    { unfold binned_of in *.
      assert (Ha : iloc ds (actual_col - 1) = Ok actual).
      { unfold iloc. now rewrite Hla. }
      rewrite (iloc_setitem_other ds _ binned _ la actual) by (lia || assumption).
      now rewrite Ha in Hb. }
    rewrite Hb'. cbn zeta. now rewrite setitem_again.
  - now rewrite ranker_unfold, Hb.
Qed.

Lemma ndcg_call_again_witness :
  ndcg_at_k stable_kind
    (snd (ndcg_at_k stable_kind scenario 3 1 2 true false true))
    3 1 2 true false true
  = ndcg_at_k stable_kind scenario 3 1 2 true false true.
Proof.
  apply (ndcg_call_again stable_kind scenario 3 1 2 true false true
           "actual"%string [0.9; 0.1; 0.5]).
  - lia.
  - reflexivity.
  - reflexivity.
Defined.

(** ** Degenerate binning *)

Lemma nth_const (l : Series) (v : R) (i : nat) :
  Forall (fun x => x = v) l -> (i < length l)%nat -> nth i l 0 = v.
Proof.
  intros Hl Hi. rewrite Forall_forall in Hl. apply Hl. now apply nth_In.
Qed.

Lemma sort_asc_const (l : Series) (v : R) :
  Forall (fun x => x = v) l -> Forall (fun x => x = v) (sort_asc l).
Proof.
  intros Hl. rewrite Forall_forall in *. intros x Hx.
  apply Hl. apply (Permutation_in _ (sort_asc_perm l) Hx).
Qed.

Lemma sort_asc_length (l : Series) : length (sort_asc l) = length l.
Proof. apply Permutation_length, sort_asc_perm. Qed.

(** The two lowest edges of a column whose values are all equal coincide. *)
Lemma quantile1_const (s : Series) (v : R) :
  Forall (fun x => x = v) s -> s <> [] ->
  quantile1 s 0 = v /\ quantile1 s (1 # 5) = v.
Proof.
  intros Hs Hne.
  pose proof (sort_asc_const s v Hs) as Hv.
  assert (Hn : (1 <= length s)%nat).
  { destruct s; [contradiction|simpl; lia]. }
  unfold quantile1. cbn [Qnum Qden]. split.
  - rewrite Z.mul_0_l. change (Z.to_nat (0 / 1)) with O.
    change (0 mod 1)%Z with 0%Z.
    rewrite (nth_const _ v O Hv) by (rewrite sort_asc_length; lia).
    unfold Rdiv. lra.
  - rewrite Z.mul_1_l.
    set (m := (Z.of_nat (length s) - 1)%Z).
    assert (Hm : (0 <= m)%Z) by (unfold m; lia).
    assert (Hlo : (Z.to_nat (m / 5) < length s)%nat).
    { assert (m / 5 <= m)%Z by (apply Z.div_le_upper_bound; lia).
      assert (0 <= m / 5)%Z by (apply Z.div_pos; lia). unfold m in *. lia. }
    rewrite (nth_const _ v _ Hv) by (rewrite sort_asc_length; exact Hlo).
    destruct (Nat.lt_ge_cases (S (Z.to_nat (m / 5))) (length s)) as [Hs1|Hs1].
    + rewrite (nth_const _ v _ Hv) by (rewrite sort_asc_length; exact Hs1).
      unfold Rdiv. lra.
    + assert (m = 0)%Z.
      { assert (m / 5 <= m)%Z by (apply Z.div_le_upper_bound; lia).
        assert (0 <= m / 5)%Z by (apply Z.div_pos; lia).
        assert (m <= m / 5)%Z by (unfold m in *; lia).
        assert (m / 5 = m)%Z by lia.
        pose proof (Z.div_mod m 5 ltac:(lia)).
        pose proof (Z.mod_pos_bound m 5 ltac:(lia)). lia. }
      replace (m mod 5)%Z with 0%Z by (subst m; rewrite H; reflexivity).
      unfold Rdiv. lra.
Qed.

(** X5: binning a relevance column whose values are all equal (an empty
    column and a one-row batch included) is refused: with bins enabled the
    call raises [ValueError] and the caller's frame stays as it was. *)
Theorem ndcg_bins_degenerate (K : sort_kind) (ds : DataFrame) (k : Z)
    (actual_col pred_col : Z) (reverse multiple : bool)
    (actual : Series) (v : R) :
  iloc ds (actual_col - 1) = Ok actual ->
  Forall (fun x => x = v) actual ->
  ndcg_at_k K ds k actual_col pred_col true reverse multiple
  = (Raise ValueError, ds).
Proof.
  intros Ha Hv. rewrite ndcg_at_k_stages, ranker_unfold.
  assert (Hb : binned_of ds actual_col = Raise ValueError);
    [|now rewrite Hb].
  unfold binned_of. rewrite Ha. cbn [bind].
  destruct actual as [|x t] eqn:E; [reflexivity|].
  rewrite <- E in *. unfold quantile. rewrite E at 1. cbn [bind].
  destruct (quantile1_const actual v Hv) as [H0 H1]; [now rewrite E|].
  unfold cut, quantile_list. cbn [map]. rewrite H0, H1. cbn [increasing].
  destruct (Rlt_dec v v) as [H|_]; [exfalso; lra|reflexivity].
Qed.

Lemma ndcg_bins_degenerate_witness :
  ndcg_at_k stable_kind zeros 2 1 2 true false true = (Raise ValueError, zeros).
Proof.
  apply (ndcg_bins_degenerate stable_kind zeros 2 1 2 false true [0; 0] 0).
  - reflexivity.
  - repeat constructor.
Defined.

(** ** The grades of the binner *)

Lemma Forall2_nth_pair {A B : Type} (P : A -> B -> Prop) (l : list A)
    (l' : list B) (d : A) (d' : B) (i : nat) :
  Forall2 P l l' -> (i < length l)%nat -> P (nth i l d) (nth i l' d').
Proof.
  intros H. revert i. induction H as [|x y l l' Hxy H IH]; intros i Hi;
    simpl in *; [lia|].
  destruct i as [|i]; [exact Hxy|]. apply IH. lia.
Qed.

Lemma sorted_nth_le (l : Series) (i j : nat) :
  StronglySorted (ord true) l -> (i <= j)%nat -> (j < length l)%nat ->
  nth i l 0 <= nth j l 0.
Proof.
  intros Hs. revert i j. induction Hs as [|x l Hs IH Hall]; intros i j Hij Hj;
    simpl in *; [lia|].
  destruct i as [|i]; destruct j as [|j]; try lia.
  - lra.
  - rewrite Forall_forall in Hall. apply Hall, nth_In. lia.
  - apply IH; lia.
Qed.

(** What a successful binning has computed. *)
Lemma binned_of_edges (ds : DataFrame) (actual_col : Z) (actual binned : Series) :
  iloc ds (actual_col - 1) = Ok actual ->
  binned_of ds actual_col = Ok binned ->
  actual <> []
  /\ increasing (map (quantile1 actual) quantile_list) = true
  /\ Forall2 (fun x g => cut1 (map (quantile1 actual) quantile_list) labels x
                         = Ok g) actual binned.
Proof.
  intros Ha. unfold binned_of. rewrite Ha. cbn [bind]. unfold quantile.
  destruct actual as [|x t]; [discriminate|]. cbn [bind].
  unfold cut. destruct (increasing _) eqn:Ei; [|discriminate].
  destruct (_ =? _)%nat; [|discriminate].
  intros H. split; [discriminate|]. split; [reflexivity|].
  now apply mapM_Forall2.
Qed.

Lemma quantile1_lowest (s : Series) :
  quantile1 s 0 = nth 0 (sort_asc s) 0.
Proof.
  unfold quantile1. cbn [Qnum Qden]. rewrite Z.mul_0_l.
  change (Z.to_nat (0 / 1)) with O. change (0 mod 1)%Z with 0%Z.
  unfold Rdiv. lra.
Qed.

Lemma quantile1_highest (s : Series) :
  quantile1 s 1 = nth (length s - 1) (sort_asc s) 0.
Proof.
  unfold quantile1. cbn [Qnum Qden]. rewrite Z.mul_1_l, Z.div_1_r, Z.mod_1_r.
  replace (Z.to_nat (Z.of_nat (length s) - 1)) with (length s - 1)%nat by lia.
  unfold Rdiv. lra.
Qed.

Lemma cut1_grade (edges : list R) (x g : R) :
  cut1 edges labels x = Ok g -> exists j, (j <= 4)%nat /\ g = INR j.
Proof.
  unfold cut1. destruct (_ || _)%bool; [discriminate|].
  destruct (nth_error labels _) as [j|] eqn:E; [|discriminate].
  intros [= <-]. exists j. split; [|reflexivity].
  assert (Hlt : (j < length labels)%nat).
  { pose proof (nth_error_labels _ _ E) as ->.
    apply nth_error_Some. now rewrite E. }
  simpl in Hlt. lia.
Qed.

Lemma cut1_lowest (edges : list R) (x g : R) :
  x = nth 0 edges 0 -> cut1 edges labels x = Ok g -> g = 0.
Proof.
  intros Hx. unfold cut1.
  destruct (Req_dec_T x (nth 0 edges 0)) as [_|H]; [|contradiction].
  destruct (_ || _)%bool; [discriminate|]. simpl. now intros [= <-].
Qed.

Lemma cut1_highest (e0 e1 e2 e3 e4 x g : R) :
  increasing [e0; e1; e2; e3; e4; x] = true ->
  cut1 [e0; e1; e2; e3; e4; x] labels x = Ok g -> g = 4.
Proof.
  intros Hi. simpl in Hi.
  destruct (Rlt_dec e0 e1); [|discriminate].
  destruct (Rlt_dec e1 e2); [|discriminate].
  destruct (Rlt_dec e2 e3); [|discriminate].
  destruct (Rlt_dec e3 e4); [|discriminate].
  destruct (Rlt_dec e4 x); [|discriminate].
  unfold cut1, searchsorted. cbn [nth filter].
  decide_reals. simpl. intros [= <-]. lra.
Qed.

(** X6: what the binner hands to the scorer.  When binning succeeds there is
    one grade per row, every grade is one of 0, 1, 2, 3, 4, a row with a
    larger relevance value never has a smaller grade, every row holding the
    minimum of the column has grade 0 and every row holding its maximum has
    grade 4. *)
Theorem binned_grades (ds : DataFrame) (actual_col : Z)
    (actual binned : Series) :
  iloc ds (actual_col - 1) = Ok actual ->
  binned_of ds actual_col = Ok binned ->
  length binned = length actual
  /\ (forall i, (i < length actual)%nat ->
        exists j, (j <= 4)%nat /\ nth i binned 0 = INR j)
  /\ (forall i j, (i < length actual)%nat -> (j < length actual)%nat ->
        nth i actual 0 <= nth j actual 0 -> nth i binned 0 <= nth j binned 0)
  /\ (forall i, (i < length actual)%nat ->
        (forall j, (j < length actual)%nat -> nth i actual 0 <= nth j actual 0) ->
        nth i binned 0 = 0)
  /\ (forall i, (i < length actual)%nat ->
        (forall j, (j < length actual)%nat -> nth j actual 0 <= nth i actual 0) ->
        nth i binned 0 = 4).
Proof.
  intros Ha Hb.
  destruct (binned_of_edges _ _ _ _ Ha Hb) as [Hne [Hinc HF]].
  set (edges := map (quantile1 actual) quantile_list) in *.
  assert (Hcut : forall i, (i < length actual)%nat ->
                   cut1 edges labels (nth i actual 0) = Ok (nth i binned 0)).
  { intros i Hi. exact (Forall2_nth_pair _ _ _ 0 0 i HF Hi). }
  assert (Hin : forall x, In x (sort_asc actual) ->
                  exists j, (j < length actual)%nat /\ nth j actual 0 = x).
  { intros x Hx. apply (Permutation_in _ (sort_asc_perm actual)) in Hx.
    destruct (In_nth _ _ 0 Hx) as [j [Hj Ej]]. now exists j. }
  assert (Hn : (1 <= length actual)%nat).
  { destruct actual; [contradiction|simpl; lia]. }
  assert (Hsl := sort_asc_length actual).
  assert (Hpos : forall i, (i < length actual)%nat ->
                   exists p, (p < length actual)%nat
                             /\ nth p (sort_asc actual) 0 = nth i actual 0).
  { intros i Hi.
    assert (Hx : In (nth i actual 0) (sort_asc actual)).
    { apply (Permutation_in _ (Permutation_sym (sort_asc_perm actual))).
      now apply nth_In. }
    destruct (In_nth _ _ 0 Hx) as [p [Hp Ep]]. exists p. split; [lia|exact Ep]. }
  split; [eapply Forall2_length in HF; now symmetry|].
  split; [intros i Hi; eapply cut1_grade; apply (Hcut i Hi)|].
  split; [intros i j Hi Hj Hle;
          exact (cut1_mono edges _ _ _ _ Hinc (Hcut i Hi) (Hcut j Hj) Hle)|].
  split.
  - intros i Hi Hmin. apply (cut1_lowest edges (nth i actual 0)); [|now apply Hcut].
    unfold edges, quantile_list. cbn [map nth]. rewrite quantile1_lowest.
    destruct (Hin (nth 0 (sort_asc actual) 0)) as [j [Hj Ej]];
      [apply nth_In; lia|].
    destruct (Hpos i Hi) as [p [Hp Ep]].
    pose proof (sorted_nth_le _ 0 p (sort_asc_sorted actual) ltac:(lia)
                  ltac:(lia)) as H1.
    pose proof (Hmin j Hj) as H2. lra.
  - intros i Hi Hmax.
    assert (Ex : nth i actual 0 = quantile1 actual 1).
    { rewrite quantile1_highest.
      destruct (Hin (nth (length actual - 1) (sort_asc actual) 0)) as [j [Hj Ej]];
        [apply nth_In; lia|].
      destruct (Hpos i Hi) as [p [Hp Ep]].
      pose proof (sorted_nth_le _ p (length actual - 1) (sort_asc_sorted actual)
                    ltac:(lia) ltac:(lia)) as H1.
      pose proof (Hmax j Hj) as H2. lra. }
    pose proof (Hcut i Hi) as Hc. rewrite Ex in Hc.
    unfold edges, quantile_list in Hc, Hinc. cbn [map] in Hc, Hinc.
    exact (cut1_highest _ _ _ _ _ _ _ Hinc Hc).
Qed.

Lemma binned_grades_witness :
  length [INR 4; INR 0; INR 2] = length [0.9; 0.1; 0.5]
  /\ (forall i, (i < 3)%nat ->
        exists j, (j <= 4)%nat /\ nth i [INR 4; INR 0; INR 2] 0 = INR j)
  /\ (forall i j, (i < 3)%nat ->
        (j < 3)%nat ->
        nth i [0.9; 0.1; 0.5] 0 <= nth j [0.9; 0.1; 0.5] 0 ->
        nth i [INR 4; INR 0; INR 2] 0 <= nth j [INR 4; INR 0; INR 2] 0)
  /\ (forall i, (i < 3)%nat ->
        (forall j, (j < 3)%nat ->
           nth i [0.9; 0.1; 0.5] 0 <= nth j [0.9; 0.1; 0.5] 0) ->
        nth i [INR 4; INR 0; INR 2] 0 = 0)
  /\ (forall i, (i < 3)%nat ->
        (forall j, (j < 3)%nat ->
           nth j [0.9; 0.1; 0.5] 0 <= nth i [0.9; 0.1; 0.5] 0) ->
        nth i [INR 4; INR 0; INR 2] 0 = 4).
Proof.
  exact (binned_grades scenario 1 [0.9; 0.1; 0.5] [INR 4; INR 0; INR 2]
           eq_refl scenario_binned).
Defined.

(** * Scripts/training.py: one-hot encoding *)

Module Training.

Import Ascii.

(** The universe of input values. *)
Definition dna_code : string := "TACG"%string.

(** [enumerate(s)], counting from [i]. *)
Fixpoint enumerate (i : nat) (s : list ascii) : list (nat * ascii) :=
  match s with
  | [] => []
  | c :: t => (i, c) :: enumerate (S i) t
  end.

(** A dict keyed by characters, in insertion order. *)
Definition dict := list (ascii * nat).

(** [d[k] = v]: a key already present keeps its place and takes the new
    value. *)
Fixpoint dict_set (d : dict) (k : ascii) (v : nat) : dict :=
  match d with
  | [] => [(k, v)]
  | (k', v') :: t =>
      if Ascii.eqb k' k then (k', v) :: t else (k', v') :: dict_set t k v
  end.

(** [d[k]]. *)
Fixpoint dict_get (d : dict) (k : ascii) : result nat :=
  match d with
  | [] => Raise KeyError
  | (k', v) :: t => if Ascii.eqb k' k then Ok v else dict_get t k
  end.

(** [dict((c, i) for i, c in enumerate(dna_code))]. *)
Definition char_to_int : dict :=
  fold_left (fun d ic => dict_set d (snd ic) (fst ic))
            (enumerate 0 (list_ascii_of_string dna_code)) [].

(** [l[i] = x] for a list and an index that is not negative. *)
Fixpoint list_set (l : list Z) (i : nat) (x : Z) : result (list Z) :=
  match l, i with
  | [], _ => Raise IndexError
  | _ :: t, O => Ok (x :: t)
  | y :: t, S j => t' <- list_set t j x ;; Ok (y :: t')
  end.

(** The body of the loop: one row of the encoding. *)
Definition letter_of (value : nat) : result (list Z) :=
  let letter := repeat 0%Z (String.length dna_code) in
  list_set letter value 1%Z.

(** [encode(seq)]: the rows of the array it returns. *)
Definition encode (seq : string) : result (list (list Z)) :=
  int_encoded <- mapM (dict_get char_to_int) (list_ascii_of_string seq) ;;
  mapM letter_of int_encoded.

(** The four nucleotides. *)
Definition nucleotide (c : ascii) : Prop :=
  c = "T"%char \/ c = "A"%char \/ c = "C"%char \/ c = "G"%char.

Lemma char_to_int_table :
  char_to_int = [("T"%char, 0%nat); ("A"%char, 1%nat); ("C"%char, 2%nat);
                 ("G"%char, 3%nat)].
Proof. reflexivity. Qed.

Lemma dict_get_nucleotide (c : ascii) :
  nucleotide c -> exists v, (v < 4)%nat /\ dict_get char_to_int c = Ok v.
Proof.
  intros [-> | [-> | [-> | ->]]]; [exists 0%nat|exists 1%nat|exists 2%nat|exists 3%nat];
    split; try lia; reflexivity.
Qed.

Lemma dict_get_inv (c : ascii) (v : nat) :
  dict_get char_to_int c = Ok v -> nucleotide c /\ (v < 4)%nat.
Proof.
  rewrite char_to_int_table. unfold nucleotide. cbn [dict_get].
  destruct (Ascii.eqb_spec "T"%char c) as [<-|_]; [intros [= <-]; split; [tauto|lia]|].
  destruct (Ascii.eqb_spec "A"%char c) as [<-|_]; [intros [= <-]; split; [tauto|lia]|].
  destruct (Ascii.eqb_spec "C"%char c) as [<-|_]; [intros [= <-]; split; [tauto|lia]|].
  destruct (Ascii.eqb_spec "G"%char c) as [<-|_]; [intros [= <-]; split; [tauto|lia]|].
  discriminate.
Qed.

Lemma dict_get_other (c : ascii) :
  ~ nucleotide c -> dict_get char_to_int c = Raise KeyError.
Proof.
  intros Hn. destruct (dict_get char_to_int c) as [v|e] eqn:E.
  - exfalso. apply Hn. now apply dict_get_inv in E.
  - rewrite char_to_int_table in E. cbn [dict_get] in E.
    repeat match type of E with
           | (if ?b then _ else _) = _ => destruct b; [discriminate|]
           end.
    congruence.
Qed.

Lemma dict_get_raise (c : ascii) (e : exn) :
  dict_get char_to_int c = Raise e -> e = KeyError.
Proof.
  rewrite char_to_int_table. cbn [dict_get].
  repeat match goal with
         | |- (if ?b then _ else _) = _ -> _ => destruct b; [discriminate|]
         end.
  congruence.
Qed.

Lemma dict_get_injective (c c' : ascii) (v : nat) :
  dict_get char_to_int c = Ok v -> dict_get char_to_int c' = Ok v -> c = c'.
Proof.
  intros H H'.
  destruct (dict_get_inv _ _ H) as [Hc _].
  destruct (dict_get_inv _ _ H') as [Hc' _].
  destruct Hc as [-> | [-> | [-> | ->]]];
    destruct Hc' as [-> | [-> | [-> | ->]]];
    try reflexivity; vm_compute in H, H'; congruence.
Qed.

(** The row with its single 1 at position [v]. *)
Definition one_hot (v : nat) : list Z :=
  repeat 0%Z v ++ [1%Z] ++ repeat 0%Z (3 - v).

Lemma letter_of_one_hot (v : nat) :
  (v < 4)%nat -> letter_of v = Ok (one_hot v).
Proof.
  intros Hv. do 4 (destruct v as [|v]; [reflexivity|]). lia.
Qed.

Lemma letter_of_inv (v : nat) (row : list Z) :
  letter_of v = Ok row -> (v < 4)%nat /\ row = one_hot v.
Proof.
  do 4 (destruct v as [|v]; [intros [= <-]; split; [lia|reflexivity]|]).
  discriminate.
Qed.

Lemma one_hot_injective (v v' : nat) :
  (v < 4)%nat -> (v' < 4)%nat -> one_hot v = one_hot v' -> v = v'.
Proof.
  intros Hv Hv'.
  do 4 (destruct v as [|v]; [do 4 (destruct v' as [|v']; [try reflexivity; discriminate|]); lia|]).
  lia.
Qed.

Lemma mapM_app {A B : Type} (f : A -> result B) (l1 l2 : list A) :
  mapM f (l1 ++ l2)
  = (r1 <- mapM f l1 ;; r2 <- mapM f l2 ;; Ok (r1 ++ r2)).
Proof.
  induction l1 as [|x t IH]; simpl.
  - destruct (mapM f l2); reflexivity.
  - destruct (f x) as [y|e]; simpl; [|reflexivity].
    rewrite IH. destruct (mapM f t) as [r1|e]; simpl; [|reflexivity].
    destruct (mapM f l2); reflexivity.
Qed.

(** Every row of an encoding is the one-hot row of its character. *)
Lemma encode_rows (seq : string) (m : list (list Z)) :
  encode seq = Ok m ->
  Forall2 (fun c row => exists v, dict_get char_to_int c = Ok v
                                  /\ (v < 4)%nat /\ row = one_hot v)
          (list_ascii_of_string seq) m.
Proof.
  unfold encode.
  destruct (mapM _ (list_ascii_of_string seq)) as [vs|e] eqn:E; [|discriminate].
  cbn [bind]. intros Hm.
  apply mapM_Forall2 in E. apply mapM_Forall2 in Hm.
  revert m Hm. induction E as [|c v cs vs Hcv E IH]; intros m Hm.
  - inversion Hm. constructor.
  - inversion Hm as [|? row ? rows Hrow Hrows]; subst.
    constructor; [|now apply IH].
    exists v. destruct (letter_of_inv _ _ Hrow) as [Hv ->]. auto.
Qed.

Lemma one_hot_shape (v : nat) :
  (v < 4)%nat ->
  length (one_hot v) = 4%nat
  /\ count_occ Z.eq_dec (one_hot v) 1%Z = 1%nat
  /\ count_occ Z.eq_dec (one_hot v) 0%Z = 3%nat.
Proof.
  intros Hv. do 4 (destruct v as [|v]; [repeat split|]). lia.
Qed.

(** X8: [encode] returns one row per character of the sequence, and every
    row has four entries of which exactly one is 1 and the other three
    are 0. *)
Theorem encode_one_hot (seq : string) (m : list (list Z)) :
  encode seq = Ok m ->
  length m = String.length seq
  /\ Forall (fun row => length row = 4%nat
                        /\ count_occ Z.eq_dec row 1%Z = 1%nat
                        /\ count_occ Z.eq_dec row 0%Z = 3%nat) m.
Proof.
  intros H. apply encode_rows in H. split.
  - apply Forall2_length in H. rewrite <- H.
    clear. induction seq as [|c s IH]; simpl; [reflexivity|now rewrite IH].
  - induction H as [|c row cs rows [v [_ [Hv ->]]] H IH]; constructor.
    + now apply one_hot_shape.
    + exact IH.
Qed.

Lemma encode_one_hot_witness :
  length [[1; 0; 0; 0]; [0; 0; 0; 1]; [0; 1; 0; 0]]%Z = String.length "TGA"
  /\ Forall (fun row => length row = 4%nat
                        /\ count_occ Z.eq_dec row 1%Z = 1%nat
                        /\ count_occ Z.eq_dec row 0%Z = 3%nat)
            [[1; 0; 0; 0]; [0; 0; 0; 1]; [0; 1; 0; 0]]%Z.
Proof.
  exact (encode_one_hot "TGA" [[1; 0; 0; 0]; [0; 0; 0; 1]; [0; 1; 0; 0]]%Z
           eq_refl).
Defined.

(** X9: [encode] succeeds exactly on the sequences written with the letters
    T, A, C and G; any other character (a lowercase letter, an N) makes it
    raise [KeyError], and it raises nothing else. *)
Theorem encode_alphabet (seq : string) :
  ((exists m, encode seq = Ok m)
   <-> Forall nucleotide (list_ascii_of_string seq))
  /\ (forall e, encode seq = Raise e -> e = KeyError).
Proof.
  unfold encode.
  induction (list_ascii_of_string seq) as [|c cs [IH1 IH2]].
  - split; [split; [constructor|intros _; now exists []]|discriminate].
  - cbn [mapM].
    destruct (dict_get char_to_int c) as [v|e] eqn:Ec.
    + destruct (dict_get_inv _ _ Ec) as [Hc Hv]. cbn [bind].
      destruct (mapM (dict_get char_to_int) cs) as [vs|e] eqn:Ecs; cbn [bind] in *.
      * cbn [mapM]. rewrite (letter_of_one_hot v Hv). cbn [bind].
        destruct (mapM letter_of vs) as [rows|e] eqn:Er; cbn [bind].
        -- split; [split|discriminate].
           ++ intros _. constructor; [exact Hc|]. apply IH1. now exists rows.
           ++ intros _. eexists. reflexivity.
        -- split; [split|].
           ++ intros [m Hm]. discriminate.
           ++ intros HF. inversion HF; subst.
              destruct (proj2 IH1) as [m Hm]; [assumption|discriminate].
           ++ intros e0 [= <-]. now apply IH2.
      * split; [split|].
        -- intros [m Hm]. discriminate.
        -- intros HF. inversion HF; subst.
           destruct (proj2 IH1) as [m Hm]; [assumption|discriminate].
        -- intros e0 [= <-]. now apply IH2.
    + cbn [bind]. split; [split|].
      * intros [m Hm]. discriminate.
      * intros HF. inversion HF; subst.
        destruct (dict_get_nucleotide c) as [v [_ Hv]]; [assumption|congruence].
      * intros e0 [= <-]. exact (dict_get_raise _ _ Ec).
Qed.

(** X10: the encoding determines the sequence: two sequences with the same
    encoding are equal. *)
Theorem encode_injective (s1 s2 : string) (m : list (list Z)) :
  encode s1 = Ok m -> encode s2 = Ok m -> s1 = s2.
Proof.
  intros H1 H2. apply encode_rows in H1, H2.
  rewrite <- (string_of_list_ascii_of_string s1),
          <- (string_of_list_ascii_of_string s2).
  f_equal.
  revert H2. generalize (list_ascii_of_string s2).
  induction H1 as [|c row cs rows [v [Hc [Hv ->]]] H1 IH]; intros l2 H2.
  - now inversion H2.
  - inversion H2 as [|c' ? cs' ? [v' [Hc' [Hv' E]]] H2']; subst.
    apply one_hot_injective in E; [|assumption|assumption]. subst v'.
    f_equal; [exact (dict_get_injective _ _ _ Hc Hc')|now apply IH].
Qed.

Lemma encode_injective_witness : "TGA"%string = "TGA"%string.
Proof.
  exact (encode_injective "TGA" "TGA" [[1; 0; 0; 0]; [0; 0; 0; 1]; [0; 1; 0; 0]]%Z
           eq_refl eq_refl).
Defined.

Lemma list_ascii_of_string_app (s1 s2 : string) :
  list_ascii_of_string (s1 ++ s2)
  = (list_ascii_of_string s1 ++ list_ascii_of_string s2)%list.
Proof. induction s1 as [|c s IH]; simpl; [reflexivity|now rewrite IH]. Qed.

(** X11: the encoding works character by character: the encoding of a
    concatenation is the concatenation of the encodings, and it fails when
    one of the two parts fails. *)
Theorem encode_app (s1 s2 : string) :
  encode (s1 ++ s2)
  = (m1 <- encode s1 ;; m2 <- encode s2 ;; Ok (m1 ++ m2)%list).
Proof.
  unfold encode. rewrite list_ascii_of_string_app, mapM_app.
  destruct (mapM (dict_get char_to_int) (list_ascii_of_string s1))
    as [v1|e1] eqn:E1; cbn [bind]; [|reflexivity].
  assert (H1 : exists r1, mapM letter_of v1 = Ok r1).
  { apply mapM_Forall2 in E1. clear -E1.
    induction E1 as [|c v cs vs Hc E IH]; [now exists []|].
    destruct IH as [r Hr]. destruct (dict_get_inv _ _ Hc) as [_ Hv].
    exists (one_hot v :: r). cbn [mapM]. now rewrite letter_of_one_hot, Hr. }
  destruct H1 as [r1 Hr1]. rewrite Hr1. cbn [bind].
  destruct (mapM (dict_get char_to_int) (list_ascii_of_string s2))
    as [v2|e2]; cbn [bind]; [|reflexivity].
  rewrite mapM_app, Hr1. cbn [bind]. reflexivity.
Qed.

End Training.

(** * Scripts/processing.py *)

Module Processing.

(** ** Exceptions and results *)

(** Besides the built-in exceptions of [exn], the functions of this file
    meet attribute and type errors and raise the generic [Exception]. *)
Inductive failure : Type :=
| Builtin (e : exn)
| AttributeError
| TypeError
| Exception (message : string).

Inductive outcome (A : Type) : Type :=
| Return (x : A)
| Throw (f : failure).
Arguments Return {A} x.
Arguments Throw {A} f.

Definition lift {A : Type} (r : result A) : outcome A :=
  match r with
  | Ok x => Return x
  | Raise e => Throw (Builtin e)
  end.

Definition obind {A B : Type} (m : outcome A) (f : A -> outcome B) : outcome B :=
  match m with
  | Return x => f x
  | Throw e => Throw e
  end.

Notation "x <~ m ;; k" := (obind m (fun x => k))
  (at level 61, m at next level, right associativity).

(** ** most_common *)

(** The order in which Python iterates over [set(lst)] is not fixed by the
    language; the embedding is parametric in it.  Whatever the order, the
    set holds every value of the list once. *)
Record set_order : Type := {
  elements : list Z -> list Z;
  elements_NoDup : forall l, NoDup (elements l);
  elements_In : forall l x, In x (elements l) <-> In x l
}.

(** [max(x :: t, key=key)]: the first element, in iteration order, whose key
    no other element exceeds. *)
Definition max_by (key : Z -> nat) (x : Z) (t : list Z) : Z :=
  fold_left (fun best y => if (key best <? key y)%nat then y else best) t x.

(** [most_common(lst)]: [max(set(lst), key=lst.count)]. *)
Definition most_common (O : set_order) (lst : list Z) : result Z :=
  match elements O lst with
  | [] => Raise ValueError
  | x :: t => Ok (max_by (count_occ Z.eq_dec lst) x t)
  end.

(** One iteration order: values in the order of their last occurrence. *)
Definition last_seen : set_order :=
  {| elements := nodup Z.eq_dec;
     elements_NoDup := NoDup_nodup Z.eq_dec;
     elements_In := fun l x => nodup_In Z.eq_dec l x |}.

(** ** find_pam *)

(** [s.find(sub)]. *)
Definition find (s sub : string) : Z :=
  match String.index 0 sub s with
  | Some i => Z.of_nat i
  | None => (-1)%Z
  end.

(** The lists of the function live in a store; a name holds a reference. *)
Definition heap := list (list Z).

(** [[]]: a new empty list. *)
Definition new_list (h : heap) : heap * nat := (h ++ [[]], length h).

(** [r.append(x)]. *)
Fixpoint append (h : heap) (r : nat) (x : Z) : heap :=
  match h, r with
  | [], _ => []
  | l :: t, O => (l ++ [x]) :: t
  | l :: t, S r' => l :: append t r' x
  end.

Definition read (h : heap) (r : nat) : list Z := nth r h [].

(** [[x for x in l if x != -1]]. *)
Definition found (l : list Z) : list Z :=
  filter (fun x => negb (x =? -1)%Z) l.

(** The body of the loop over the sequences. *)
Definition record_indices (agg tgg cgg ggg : nat) (h : heap) (sequence : string)
  : heap :=
  let agg_index := find sequence "AGG" in
  let h := append h agg agg_index in
  let tgg_index := find sequence "TGG" in
  let h := append h tgg tgg_index in
  let cgg_index := find sequence "CGG" in
  let h := append h cgg cgg_index in
  let ggg_index := find sequence "GGG" in
  append h ggg ggg_index.

(** [find_pam(seq)].  The statement [agg = tgg = cgg = ggg = []] creates one
    list and binds the four names to it. *)
Definition find_pam (O : set_order) (seq : list string) : outcome Z :=
  let (h, l) := new_list [] in
  let agg := l in
  let tgg := l in
  let cgg := l in
  let ggg := l in
  let h := fold_left (record_indices agg tgg cgg ggg) seq h in
  let agg_new := found (read h agg) in
  let tgg_new := found (read h tgg) in
  let cgg_new := found (read h cgg) in
  let ggg_new := found (read h ggg) in
  a <~ lift (most_common O agg_new) ;;
  t <~ lift (most_common O tgg_new) ;;
  if (a =? t)%Z then
    c <~ lift (most_common O cgg_new) ;;
    if (t =? c)%Z then
      g <~ lift (most_common O ggg_new) ;;
      if (c =? g)%Z then lift (most_common O agg_new)
      else Throw (Exception "PAM indices are different")
    else Throw (Exception "PAM indices are different")
  else Throw (Exception "PAM indices are different").

(** The indices the loop records for one sequence. *)
Definition indices_of (sequence : string) : list Z :=
  [find sequence "AGG"; find sequence "TGG"; find sequence "CGG";
   find sequence "GGG"].

Lemma max_by_spec (key : Z -> nat) (x : Z) (t : list Z) :
  In (max_by key x t) (x :: t)
  /\ forall y, In y (x :: t) -> (key y <= key (max_by key x t))%nat.
Proof.
  unfold max_by. revert x. induction t as [|z t IH]; intros x; simpl.
  - split; [now left|]. intros y [<-|[]]. lia.
  - destruct (IH (if (key x <? key z)%nat then z else x)) as [Hin Hmax].
    split.
    + destruct Hin as [E|Hin]; [|now right; right].
      rewrite <- E. destruct (key x <? key z)%nat; [right; now left|now left].
    + intros y Hy.
      assert (Hx : (key x <= key (if (key x <? key z)%nat then z else x))%nat).
      { destruct (key x <? key z)%nat eqn:E; [apply Nat.ltb_lt in E|]; lia. }
      assert (Hz : (key z <= key (if (key x <? key z)%nat then z else x))%nat).
      { destruct (key x <? key z)%nat eqn:E; [|apply Nat.ltb_ge in E]; lia. }
      pose proof (Hmax _ (or_introl eq_refl)) as Hb.
      destruct Hy as [<-|[<-|Hy]]; [lia|lia|].
      apply Hmax. now right.
Qed.

(** X12: [most_common] raises [ValueError] on an empty list and on no other;
    on a list that is not empty it returns one of its values, and no value
    occurs more often than the one returned, whatever the iteration order of
    the set. *)
Theorem most_common_spec (O : set_order) (lst : list Z) :
  (lst = [] -> most_common O lst = Raise ValueError)
  /\ (lst <> [] -> exists x, most_common O lst = Ok x)
  /\ (forall x, most_common O lst = Ok x ->
        In x lst
        /\ forall y, (count_occ Z.eq_dec lst y <= count_occ Z.eq_dec lst x)%nat).
Proof.
  unfold most_common.
  destruct (elements O lst) as [|x t] eqn:E.
  - assert (Hl : lst = []).
    { destruct lst as [|z l]; [reflexivity|].
      assert (H : In z (elements O (z :: l)))
        by (apply elements_In; now left).
      rewrite E in H. contradiction. }
    split; [reflexivity|]. split; [contradiction|discriminate].
  - split; [|split].
    + intros ->. assert (H : In x (elements O [])) by (rewrite E; now left).
      apply elements_In in H. contradiction.
    + intros _. eexists. reflexivity.
    + intros r [= <-].
      destruct (max_by_spec (count_occ Z.eq_dec lst) x t) as [Hin Hmax].
      rewrite <- E in Hin. split; [now apply elements_In in Hin|].
      intros y. destruct (in_dec Z.eq_dec y lst) as [Hy|Hy].
      * apply Hmax. rewrite <- E. now apply elements_In.
      * rewrite (proj1 (count_occ_not_In Z.eq_dec lst y) Hy). lia.
Qed.

(** The four motifs. *)
Definition pams : list string := ["AGG"; "TGG"; "CGG"; "GGG"]%string.

Lemma record_indices_shared (l0 : list Z) (rest : heap) (sequence : string) :
  record_indices 0 0 0 0 (l0 :: rest) sequence
  = (l0 ++ indices_of sequence) :: rest.
Proof.
  unfold record_indices, indices_of. cbn [append].
  now rewrite <- !app_assoc.
Qed.

Lemma loop_shared (seq : list string) (l0 : list Z) (rest : heap) :
  fold_left (record_indices 0 0 0 0) seq (l0 :: rest)
  = (l0 ++ flat_map indices_of seq) :: rest.
Proof.
  revert l0. induction seq as [|s t IH]; intros l0; cbn [fold_left flat_map].
  - now rewrite app_nil_r.
  - now rewrite record_indices_shared, IH, <- app_assoc.
Qed.

(** X13: the four index lists of [find_pam] are one and the same list.  The
    function therefore returns the most common value among the positions of
    all four motifs taken together, one entry per motif and sequence, the
    motifs that are absent left out. *)
Theorem find_pam_pooled (O : set_order) (seq : list string) :
  find_pam O seq
  = lift (most_common O (found (flat_map indices_of seq))).
Proof.
  unfold find_pam, new_list. cbn [app length].
  rewrite loop_shared. cbn [read nth app].
  destruct (most_common O (found (flat_map indices_of seq))) as [a|e];
    cbn [lift obind]; [|reflexivity].
  now rewrite !Z.eqb_refl.
Qed.

Lemma found_In (l : list Z) (x : Z) : In x (found l) <-> In x l /\ x <> (-1)%Z.
Proof.
  unfold found. rewrite filter_In. split; intros [H1 H2]; split; trivial.
  - intros ->. discriminate.
  - apply negb_true_iff, Z.eqb_neq. exact H2.
Qed.

Lemma find_position (s pam : string) (i : Z) :
  find s pam = i -> i <> (-1)%Z ->
  (0 <= i)%Z /\ substring (Z.to_nat i) (String.length pam) s = pam.
Proof.
  unfold find. destruct (String.index 0 pam s) as [n|] eqn:E.
  - intros <- _. split; [lia|]. rewrite Nat2Z.id.
    exact (index_correct1 _ _ _ _ E).
  - intros <- H. contradiction.
Qed.

(** X14: [find_pam] never raises its own exception: the comparison of the
    four most common indices compares one list with itself.  When no
    sequence contains any of the four motifs (in particular when there is
    no sequence) the call raises [ValueError]; otherwise it returns a
    position at which one of the motifs occurs in one of the sequences. *)
Theorem find_pam_outcomes (O : set_order) (seq : list string) :
  ((forall s pam, In s seq -> In pam pams -> find s pam = (-1)%Z) ->
   find_pam O seq = Throw (Builtin ValueError))
  /\ ((exists s pam, In s seq /\ In pam pams /\ find s pam <> (-1)%Z) ->
      exists i, find_pam O seq = Return i)
  /\ (forall i, find_pam O seq = Return i ->
        (0 <= i)%Z
        /\ exists s pam, In s seq /\ In pam pams
                         /\ substring (Z.to_nat i) 3 s = pam)
  /\ (forall f, find_pam O seq = Throw f -> f = Builtin ValueError).
Proof.
  rewrite find_pam_pooled.
  set (pool := found (flat_map indices_of seq)).
  destruct (most_common_spec O pool) as [Hempty [Hsome Hin]].
  assert (Hpool : forall x, In x pool ->
            (0 <= x)%Z /\ exists s pam, In s seq /\ In pam pams
                                        /\ substring (Z.to_nat x) 3 s = pam).
  { intros x Hx. apply found_In in Hx. destruct Hx as [Hx Hne].
    apply in_flat_map in Hx. destruct Hx as [s [Hs Hx]].
    unfold indices_of in Hx. cbn [In] in Hx.
    destruct Hx as [E|[E|[E|[E|[]]]]];
      destruct (find_position _ _ _ E Hne) as [H0 Hsub];
      (split; [exact H0|]); exists s;
      [exists "AGG"%string|exists "TGG"%string|exists "CGG"%string
      |exists "GGG"%string];
      (split; [exact Hs|split; [cbn; tauto|exact Hsub]]). }
  split; [|split; [|split]].
  - intros Hnone. rewrite Hempty; [reflexivity|].
    destruct pool as [|x p] eqn:E; [reflexivity|exfalso].
    assert (Hx : In x pool) by (rewrite E; now left).
    unfold pool in Hx. apply found_In in Hx. destruct Hx as [Hx Hne].
    apply in_flat_map in Hx. destruct Hx as [s [Hs Hx]].
    unfold indices_of in Hx. cbn [In] in Hx.
    destruct Hx as [E'|[E'|[E'|[E'|[]]]]]; apply Hne; rewrite <- E';
      apply Hnone; trivial; cbn; tauto.
  - intros [s [pam [Hs [Hp Hne]]]].
    destruct Hsome as [x Hx]; [|exists x; now rewrite Hx].
    intros Hnil.
    assert (Hx : In (find s pam) pool).
    { apply found_In. split; [|exact Hne]. apply in_flat_map. exists s.
      split; [exact Hs|]. unfold indices_of. cbn in Hp |- *.
      destruct Hp as [<-|[<-|[<-|[<-|[]]]]]; tauto. }
    rewrite Hnil in Hx. contradiction.
  - intros i Hi. destruct (most_common O pool) as [x|e] eqn:E; [|discriminate].
    cbn [lift] in Hi. injection Hi as <-.
    apply Hpool. now apply Hin.
  - intros f Hf. destruct (most_common O pool) as [x|e] eqn:E; [discriminate|].
    cbn [lift] in Hf. injection Hf as <-. f_equal.
    unfold most_common in E. destruct (elements O pool); congruence.
Qed.

(** ** rescale *)

(** [y.min()] and [y.max()] of a column that is not empty (pandas answers
    NaN for an empty one, where no entry is left to use it). *)
Definition series_min (y : Series) : R := fold_right Rmin (hd 0 y) y.

Definition series_max (y : Series) : R := fold_right Rmax (hd 0 y) y.

(** Element-wise division of a column: an entry divided by zero is not a
    finite number (NaN or inf), rendered as [None]. *)
Definition nan_div (x d : R) : option R :=
  if Req_dec_T d 0 then None else Some (x / d).

(** [rescale(ds, eff_col)]. *)
Definition rescale (ds : DataFrame) (eff_col : Z) : result (list (option R)) :=
  y <- iloc ds (eff_col - 1) ;;
  Ok (map (fun v => nan_div (v - series_min y) (series_max y - series_min y)) y).

Lemma fold_min_le (d : R) (y : Series) :
  fold_right Rmin d y <= d /\ Forall (fun x => fold_right Rmin d y <= x) y.
Proof.
  induction y as [|x t [IH1 IH2]]; simpl.
  - split; [lra|constructor].
  - pose proof (Rmin_l x (fold_right Rmin d t)).
    pose proof (Rmin_r x (fold_right Rmin d t)).
    split; [lra|]. constructor; [lra|].
    eapply Forall_impl; [|exact IH2]. simpl. intros; lra.
Qed.

Lemma fold_max_ge (d : R) (y : Series) :
  d <= fold_right Rmax d y /\ Forall (fun x => x <= fold_right Rmax d y) y.
Proof.
  induction y as [|x t [IH1 IH2]]; simpl.
  - split; [lra|constructor].
  - pose proof (Rmax_l x (fold_right Rmax d t)).
    pose proof (Rmax_r x (fold_right Rmax d t)).
    split; [lra|]. constructor; [lra|].
    eapply Forall_impl; [|exact IH2]. simpl. intros; lra.
Qed.

Lemma fold_min_In (d : R) (y : Series) :
  fold_right Rmin d y = d \/ In (fold_right Rmin d y) y.
Proof.
  induction y as [|x t IH]; simpl; [now left|].
  destruct (Rle_dec x (fold_right Rmin d t)) as [H|H].
  - rewrite (Rmin_left _ _ H). right; now left.
  - rewrite Rmin_right by lra.
    destruct IH as [IH|IH]; [now left|right; now right].
Qed.

Lemma fold_max_In (d : R) (y : Series) :
  fold_right Rmax d y = d \/ In (fold_right Rmax d y) y.
Proof.
  induction y as [|x t IH]; simpl; [now left|].
  destruct (Rle_dec x (fold_right Rmax d t)) as [H|H].
  - rewrite (Rmax_right _ _ H).
    destruct IH as [IH|IH]; [now left|right; now right].
  - rewrite Rmax_left by lra. right; now left.
Qed.

Lemma series_min_spec (y : Series) :
  y <> [] -> In (series_min y) y /\ Forall (fun x => series_min y <= x) y.
Proof.
  intros Hne. unfold series_min. split; [|apply fold_min_le].
  destruct (fold_min_In (hd 0 y) y) as [E|H]; [|exact H].
  rewrite E. destruct y; [contradiction|now left].
Qed.

Lemma series_max_spec (y : Series) :
  y <> [] -> In (series_max y) y /\ Forall (fun x => x <= series_max y) y.
Proof.
  intros Hne. unfold series_max. split; [|apply fold_max_ge].
  destruct (fold_max_In (hd 0 y) y) as [E|H]; [|exact H].
  rewrite E. destruct y; [contradiction|now left].
Qed.

(** X16: on a column whose values are all equal no entry of the result is a
    finite number: every division is by zero.  No exception is raised, and
    an empty column gives an empty result. *)
Theorem rescale_constant (ds : DataFrame) (eff_col : Z) (y : Series) (v : R) :
  iloc ds (eff_col - 1) = Ok y ->
  Forall (fun x => x = v) y ->
  rescale ds eff_col = Ok (map (fun _ => None) y).
Proof.
  intros Hy Hv. unfold rescale. rewrite Hy. cbn [bind]. f_equal.
  destruct y as [|x t] eqn:E; [reflexivity|]. rewrite <- E in *.
  assert (Hne : y <> []) by (rewrite E; discriminate).
  destruct (series_min_spec y Hne) as [Hmin _].
  destruct (series_max_spec y Hne) as [Hmax _].
  rewrite Forall_forall in Hv.
  rewrite (Hv _ Hmin), (Hv _ Hmax).
  apply map_ext. intros w. unfold nan_div.
  destruct (Req_dec_T (v - v) 0) as [_|H]; [reflexivity|exfalso; lra].
Qed.

Lemma rescale_constant_witness :
  rescale (batch [5; 5] [0; 0]) 1 = Ok (map (fun _ => None) [5; 5]).
Proof.
  apply (rescale_constant (batch [5; 5] [0; 0]) 1 [5; 5] 5).
  - reflexivity.
  - repeat constructor.
Defined.

(** ** Tables with text and numbers *)

Inductive cell : Type :=
| Str (s : string)
| Num (r : R).

Definition Row := list cell.

(** A frame read row by row: the number of its columns and its rows in the
    order [iterrows] yields them. *)
Record Table : Type := { width : nat; rows : list Row }.

(** Every row has one cell per column. *)
Definition wf_table (ds : Table) : Prop :=
  Forall (fun row => length row = width ds) (rows ds).

(** The bound [i] of a slice of a sequence of length [n], as Python adjusts
    it. *)
Definition clamp (n i : Z) : Z :=
  if (i <? 0)%Z then Z.max (n + i) 0 else Z.min i n.

(** [s[a:b]]. *)
Definition slice (s : string) (a b : Z) : string :=
  let n := Z.of_nat (String.length s) in
  substring (Z.to_nat (clamp n a)) (Z.to_nat (clamp n b - clamp n a)) s.

(** ** extract_shalem *)

(** The text of a cell used as the receiver of [.find]. *)
Definition receiver (c : cell) : outcome string :=
  match c with
  | Str s => Return s
  | Num _ => Throw AttributeError
  end.

(** The text of a cell used as the argument of [.find]. *)
Definition argument (c : cell) : outcome string :=
  match c with
  | Str s => Return s
  | Num _ => Throw TypeError
  end.

(** The body of the loop of [extract_shalem]: what one row appends to
    [seq_23], [seq_30] and [eff]. *)
Definition shalem_row (seq_col ext_seq_col eff_col : Z) (row : Row)
  : outcome (string * string * cell) :=
  e <~ lift (py_index row (ext_seq_col - 1)) ;;
  ext <~ receiver e ;;
  sp <~ lift (py_index row (seq_col - 1)) ;;
  spacer <~ argument sp ;;
  let start_index := find ext spacer in
  let s23 := slice ext start_index (start_index + 23) in
  let s30 := slice ext (start_index - 4) (start_index + 26) in
  eff <~ lift (py_index row (eff_col - 1)) ;;
  Return (s23, s30, eff).

Fixpoint omap {A B : Type} (f : A -> outcome B) (l : list A) : outcome (list B) :=
  match l with
  | [] => Return []
  | x :: t => y <~ f x ;; ys <~ omap f t ;; Return (y :: ys)
  end.

(** [extract_shalem(ds, seq_col, ext_seq_col, eff_col)]. *)
Definition extract_shalem (ds : Table) (seq_col ext_seq_col eff_col : Z)
  : outcome (list string * list string * list cell) :=
  out <~ omap (shalem_row seq_col ext_seq_col eff_col) (rows ds) ;;
  Return (map (fun t => fst (fst t)) out, map (fun t => snd (fst t)) out,
          map snd out).

(** ** Slices *)

Lemma substring_length (n m : nat) (s : string) :
  (n + m <= String.length s)%nat -> String.length (substring n m s) = m.
Proof.
  revert n m. induction s as [|c s IH]; intros n m H; simpl in H.
  - assert (n = O) by lia. assert (m = O) by lia. subst. reflexivity.
  - destruct n as [|n]; simpl.
    + destruct m as [|m]; [reflexivity|]. simpl. f_equal.
      apply (IH O m). lia.
    + apply IH. lia.
Qed.

Lemma substring_of_substring (n m a k : nat) (s : string) :
  (a + k <= m)%nat -> substring a k (substring n m s) = substring (n + a) k s.
Proof.
  intros H. apply get_correct. intros p.
  destruct (Nat.lt_ge_cases p k) as [Hp|Hp].
  - rewrite !substring_correct1 by lia. f_equal. lia.
  - now rewrite !substring_correct2.
Qed.

Lemma slice_inside (s : string) (a b : Z) :
  (0 <= a <= b)%Z -> (b <= Z.of_nat (String.length s))%Z ->
  slice s a b = substring (Z.to_nat a) (Z.to_nat (b - a)) s.
Proof.
  intros Ha Hb. unfold slice, clamp.
  replace (a <? 0)%Z with false by (symmetry; apply Z.ltb_ge; lia).
  replace (b <? 0)%Z with false by (symmetry; apply Z.ltb_ge; lia).
  now rewrite !Z.min_l by lia.
Qed.

Lemma substring_nothing (n : nat) (s : string) : substring n 0 s = ""%string.
Proof.
  revert n. induction s as [|c s IH]; intros [|n]; simpl; try reflexivity.
  apply IH.
Qed.

(** A slice whose start, counted from the end, lies at or after its stop. *)
Lemma slice_wrapped (s : string) (a b : Z) :
  (a < 0)%Z -> (0 <= b)%Z -> (b - a <= Z.of_nat (String.length s))%Z ->
  slice s a b = ""%string.
Proof.
  intros Ha Hb Hl. unfold slice, clamp.
  replace (a <? 0)%Z with true by (symmetry; apply Z.ltb_lt; lia).
  replace (b <? 0)%Z with false by (symmetry; apply Z.ltb_ge; lia).
  replace (Z.to_nat (Z.min b _ - Z.max _ 0)) with O by lia.
  apply substring_nothing.
Qed.


Lemma omap_nth {A B : Type} (f : A -> outcome B) (l : list A) (out : list B)
    (i : nat) (x : A) :
  omap f l = Return out -> nth_error l i = Some x ->
  exists y, f x = Return y /\ nth_error out i = Some y.
Proof.
  revert out i. induction l as [|x0 t IH]; simpl; intros out i.
  - destruct i; discriminate.
  - destruct (f x0) as [y|e] eqn:E; simpl; [|discriminate].
    destruct (omap f t) as [ys|e]; simpl; [|discriminate].
    intros [= <-]. destruct i as [|i]; simpl.
    + intros [= <-]. now exists y.
    + now apply IH.
Qed.

(** What a call that returns has appended for the row at position [i]. *)
Lemma extract_shalem_row (ds : Table) (seq_col ext_seq_col eff_col : Z)
    (l23 l30 : list string) (le : list cell) (i : nat) (row : Row)
    (ext spacer : string) :
  extract_shalem ds seq_col ext_seq_col eff_col = Return (l23, l30, le) ->
  nth_error (rows ds) i = Some row ->
  py_index row (ext_seq_col - 1) = Ok (Str ext) ->
  py_index row (seq_col - 1) = Ok (Str spacer) ->
  nth_error l23 i
  = Some (slice ext (find ext spacer) (find ext spacer + 23))
  /\ nth_error l30 i
     = Some (slice ext (find ext spacer - 4) (find ext spacer + 26)).
Proof.
  unfold extract_shalem. intros H Hrow He Hs.
  destruct (omap _ (rows ds)) as [out|e] eqn:E; simpl in H; [|discriminate].
  injection H as <- <- <-.
  destruct (omap_nth _ _ _ _ _ E Hrow) as [[[s23 s30] eff] [Hf Hout]].
  unfold shalem_row in Hf. rewrite He, Hs in Hf. cbn in Hf.
  destruct (py_index row (eff_col - 1)); cbn in Hf; [|discriminate].
  injection Hf as <- <- <-.
  rewrite !nth_error_map, Hout. split; reflexivity.
Qed.

(** X18: a spacer found at position 4 or later, with 26 characters of the
    extended sequence from there on, gives a 23-character and a
    30-character sequence; the first starts where the spacer starts (with
    the spacer itself, if that has at most 23 characters) and is the part of
    the second that begins at its fifth character. *)
Theorem extract_shalem_placed (ds : Table) (seq_col ext_seq_col eff_col : Z)
    (l23 l30 : list string) (le : list cell) (i : nat) (row : Row)
    (ext spacer : string) :
  extract_shalem ds seq_col ext_seq_col eff_col = Return (l23, l30, le) ->
  nth_error (rows ds) i = Some row ->
  py_index row (ext_seq_col - 1) = Ok (Str ext) ->
  py_index row (seq_col - 1) = Ok (Str spacer) ->
  (4 <= find ext spacer)%Z ->
  (find ext spacer + 26 <= Z.of_nat (String.length ext))%Z ->
  exists s23 s30,
    nth_error l23 i = Some s23 /\ nth_error l30 i = Some s30
    /\ String.length s23 = 23%nat /\ String.length s30 = 30%nat
    /\ s23 = substring 4 23 s30
    /\ s23 = substring (Z.to_nat (find ext spacer)) 23 ext
    /\ ((String.length spacer <= 23)%nat ->
        substring 0 (String.length spacer) s23 = spacer).
Proof.
  intros H Hrow He Hs H4 Hlen.
  destruct (extract_shalem_row _ _ _ _ _ _ _ _ _ _ _ H Hrow He Hs) as [E23 E30].
  set (st := find ext spacer) in *.
  rewrite slice_inside in E23, E30 by lia.
  replace (Z.to_nat (st + 23 - st)) with 23%nat in E23 by lia.
  replace (Z.to_nat (st + 26 - (st - 4))) with 30%nat in E30 by lia.
  eexists _, _. split; [exact E23|]. split; [exact E30|].
  split; [apply substring_length; lia|].
  split; [apply substring_length; lia|].
  split; [rewrite substring_of_substring by lia; f_equal; lia|].
  split; [reflexivity|].
  intros Hsp. rewrite substring_of_substring by lia.
  rewrite Nat.add_0_r. unfold st, find in *.
  destruct (String.index 0 spacer ext) as [n|] eqn:En; [|lia].
  rewrite Nat2Z.id. exact (index_correct1 _ _ _ _ En).
Qed.

Definition shalem_example : Table :=
  {| width := 3;
     rows := [[Str "GGGGACGTACGTACGTACGTACGT";
               Str "TTTTGGGGACGTACGTACGTACGTACGTTGGAAAA"; Num 0.5]] |}.

Lemma extract_shalem_placed_witness :
  exists s23 s30,
    nth_error ["GGGGACGTACGTACGTACGTACG"%string] 0 = Some s23
    /\ nth_error ["TTTTGGGGACGTACGTACGTACGTACGTTG"%string] 0 = Some s30
    /\ String.length s23 = 23%nat /\ String.length s30 = 30%nat
    /\ s23 = substring 4 23 s30
    /\ s23 = substring
               (Z.to_nat (find "TTTTGGGGACGTACGTACGTACGTACGTTGGAAAA"
                               "GGGGACGTACGTACGTACGTACGT")) 23
               "TTTTGGGGACGTACGTACGTACGTACGTTGGAAAA"
    /\ ((String.length "GGGGACGTACGTACGTACGTACGT" <= 23)%nat ->
        substring 0 (String.length "GGGGACGTACGTACGTACGTACGT") s23
        = "GGGGACGTACGTACGTACGTACGT"%string).
Proof.
  apply (extract_shalem_placed shalem_example 1 2 3 _ _ [Num 0.5] 0
           [Str "GGGGACGTACGTACGTACGTACGT";
            Str "TTTTGGGGACGTACGTACGTACGTACGTTGGAAAA"; Num 0.5]).
  - reflexivity.
  - reflexivity.
  - reflexivity.
  - reflexivity.
  - vm_compute. discriminate.
  - vm_compute. discriminate.
Defined.

(** X19: a spacer that is not found, or is found within the first four
    characters, is not reported.  With an extended sequence of at least 30
    characters the 30-character sequence of that row is empty, and when the
    spacer is not found at all the 23-character sequence is empty too. *)
Theorem extract_shalem_misplaced (ds : Table) (seq_col ext_seq_col eff_col : Z)
    (l23 l30 : list string) (le : list cell) (i : nat) (row : Row)
    (ext spacer : string) :
  extract_shalem ds seq_col ext_seq_col eff_col = Return (l23, l30, le) ->
  nth_error (rows ds) i = Some row ->
  py_index row (ext_seq_col - 1) = Ok (Str ext) ->
  py_index row (seq_col - 1) = Ok (Str spacer) ->
  (find ext spacer < 4)%Z ->
  (30 <= String.length ext)%nat ->
  nth_error l30 i = Some ""%string
  /\ (find ext spacer = (-1)%Z -> nth_error l23 i = Some ""%string).
Proof.
  intros H Hrow He Hs H4 Hlen.
  destruct (extract_shalem_row _ _ _ _ _ _ _ _ _ _ _ H Hrow He Hs) as [E23 E30].
  assert (Hst : (-1 <= find ext spacer)%Z).
  { unfold find. destruct (String.index 0 spacer ext); lia. }
  split.
  - rewrite E30. f_equal. apply slice_wrapped; lia.
  - intros Hm. rewrite E23, Hm. f_equal. apply slice_wrapped; lia.
Qed.

Definition shalem_missing : Table :=
  {| width := 3;
     rows := [[Str "CCCC"; Str "TTTTGGGGACGTACGTACGTACGTACGTTGGAAAA";
               Num 0.5]] |}.

Lemma extract_shalem_misplaced_witness :
  nth_error [""%string] 0 = Some ""%string
  /\ (find "TTTTGGGGACGTACGTACGTACGTACGTTGGAAAA" "CCCC" = (-1)%Z ->
      nth_error [""%string] 0 = Some ""%string).
Proof.
  apply (extract_shalem_misplaced shalem_missing 1 2 3 _ _ [Num 0.5] 0
           [Str "CCCC"; Str "TTTTGGGGACGTACGTACGTACGTACGTTGGAAAA"; Num 0.5]).
  - reflexivity.
  - reflexivity.
  - reflexivity.
  - reflexivity.
  - vm_compute. reflexivity.
  - vm_compute. lia.
Defined.

(** ** extract_koike_yusa *)

Import Ascii.

(** [c.upper()] for a character of the ASCII range. *)
Definition upper_char (c : ascii) : ascii :=
  let n := nat_of_ascii c in
  if ((97 <=? n) && (n <=? 122))%nat then ascii_of_nat (n - 32) else c.

(** [s.upper()]. *)
Fixpoint upper (s : string) : string :=
  match s with
  | EmptyString => EmptyString
  | String c t => String (upper_char c) (upper t)
  end.

(** [ds.iloc[:, c]]: the cells of a column, top to bottom. *)
Definition column (ds : Table) (c : Z) : result (list cell) :=
  let n := Z.of_nat (width ds) in
  let j := if (c <? 0)%Z then (n + c)%Z else c in
  if ((0 <=? j)%Z && (j <? n)%Z)%bool
  then mapM (fun row => py_index row c) (rows ds)
  else Raise IndexError.

(** The values of a column used as text: [.str] and [.find] refuse a
    number.  (A column without rows is taken as a column of text.) *)
Definition texts (col : list cell) : outcome (list string) := omap receiver col.

(** The value of a cell under unary minus. *)
Definition negated (c : cell) : outcome R :=
  match c with
  | Num r => Return (- r)
  | Str _ => Throw TypeError
  end.

(** Element-wise [(x + y) / 2] of two columns of one frame. *)
Fixpoint mean2 (xs ys : list R) : list R :=
  match xs, ys with
  | x :: xs', y :: ys' => (x + y) / 2 :: mean2 xs' ys'
  | _, _ => []
  end.

(** The PAM index the call works with: lines 64-67. *)
Definition koike_pam (O : set_order) (ds : Table) (seq_col : Z) : outcome Z :=
  col <~ lift (column ds (seq_col - 1)) ;;
  raw <~ texts col ;;
  find_pam O (map upper raw).

(** [extract_koike_yusa(ds, seq_col, rep1_col, rep2_col)]. *)
Definition extract_koike_yusa (O : set_order) (ds : Table)
    (seq_col rep1_col rep2_col : Z)
  : outcome (list string * list string * list R) :=
  col <~ lift (column ds (seq_col - 1)) ;;
  raw <~ texts col ;;
  let seq := map upper raw in
  pam_index <~ find_pam O seq ;;
  let seq_23 := map (fun s => slice s (pam_index - 20) (pam_index + 3)) seq in
  let seq_30 := map (fun s => slice s (pam_index - 24) (pam_index + 6)) seq in
  c1 <~ lift (column ds (rep1_col - 1)) ;;
  log_eff1 <~ omap negated c1 ;;
  c2 <~ lift (column ds (rep2_col - 1)) ;;
  log_eff2 <~ omap negated c2 ;;
  let log_eff_mean := mean2 log_eff1 log_eff2 in
  Return (seq_23, seq_30, log_eff_mean).

Lemma upper_length (s : string) : String.length (upper s) = String.length s.
Proof. induction s as [|c t IH]; simpl; [reflexivity|now rewrite IH]. Qed.

Lemma mapM_nth {A B : Type} (f : A -> result B) (l : list A) (out : list B)
    (i : nat) (x : A) :
  mapM f l = Ok out -> nth_error l i = Some x ->
  exists y, f x = Ok y /\ nth_error out i = Some y.
Proof.
  revert out i. induction l as [|x0 t IH]; simpl; intros out i.
  - destruct i; discriminate.
  - destruct (f x0) as [y|e] eqn:E; simpl; [|discriminate].
    destruct (mapM f t) as [ys|e]; simpl; [|discriminate].
    intros [= <-]. destruct i as [|i]; simpl.
    + intros [= <-]. now exists y.
    + now apply IH.
Qed.

Lemma column_nth (ds : Table) (c : Z) (col : list cell) (i : nat) (row : Row) :
  column ds c = Ok col -> nth_error (rows ds) i = Some row ->
  exists x, py_index row c = Ok x /\ nth_error col i = Some x.
Proof.
  unfold column. destruct (_ && _)%bool; [|discriminate].
  intros H1 H2. exact (mapM_nth (fun r => py_index r c) _ _ _ _ H1 H2).
Qed.



(** What a call that returns has computed. *)
Lemma extract_koike_yusa_inv (O : set_order) (ds : Table)
    (seq_col rep1_col rep2_col : Z) (l23 l30 : list string) (le : list R) :
  extract_koike_yusa O ds seq_col rep1_col rep2_col = Return (l23, l30, le) ->
  exists col raw p c1 e1 c2 e2,
    column ds (seq_col - 1) = Ok col /\ texts col = Return raw
    /\ koike_pam O ds seq_col = Return p
    /\ l23 = map (fun s => slice s (p - 20) (p + 3)) (map upper raw)
    /\ l30 = map (fun s => slice s (p - 24) (p + 6)) (map upper raw)
    /\ column ds (rep1_col - 1) = Ok c1 /\ omap negated c1 = Return e1
    /\ column ds (rep2_col - 1) = Ok c2 /\ omap negated c2 = Return e2
    /\ le = mean2 e1 e2.
Proof.
  unfold extract_koike_yusa, koike_pam.
  destruct (column ds (seq_col - 1)) as [col|e] eqn:Ec; cbn [lift obind];
    [|discriminate].
  destruct (texts col) as [raw|e] eqn:Et; cbn [obind]; [|discriminate].
  destruct (find_pam O (map upper raw)) as [p|e] eqn:Ep; cbn [obind];
    [|discriminate].
  destruct (column ds (rep1_col - 1)) as [c1|e] eqn:E1; cbn [lift obind];
    [|discriminate].
  destruct (omap negated c1) as [e1|e] eqn:N1; cbn [obind]; [|discriminate].
  destruct (column ds (rep2_col - 1)) as [c2|e] eqn:E2; cbn [lift obind];
    [|discriminate].
  destruct (omap negated c2) as [e2|e] eqn:N2; cbn [obind]; [|discriminate].
  intros [= <- <- <-]. exists col, raw, p, c1, e1, c2, e2.
  repeat split; assumption.
Qed.

Lemma extract_koike_yusa_row (O : set_order) (ds : Table)
    (seq_col rep1_col rep2_col : Z) (l23 l30 : list string) (le : list R)
    (p : Z) (i : nat) (row : Row) (s : string) :
  extract_koike_yusa O ds seq_col rep1_col rep2_col = Return (l23, l30, le) ->
  koike_pam O ds seq_col = Return p ->
  nth_error (rows ds) i = Some row ->
  py_index row (seq_col - 1) = Ok (Str s) ->
  nth_error l23 i = Some (slice (upper s) (p - 20) (p + 3))
  /\ nth_error l30 i = Some (slice (upper s) (p - 24) (p + 6)).
Proof.
  intros H Hp Hrow Hs.
  destruct (extract_koike_yusa_inv _ _ _ _ _ _ _ _ H)
    as (col & raw & p' & _ & _ & _ & _ & Hc & Ht & Hp' & -> & -> & _).
  rewrite Hp in Hp'. injection Hp' as <-.
  destruct (column_nth _ _ _ _ _ Hc Hrow) as [x [Hx Hcol]].
  rewrite Hs in Hx. injection Hx as <-.
  destruct (omap_nth _ _ _ _ _ Ht Hcol) as [t [Hr Hraw]].
  cbn in Hr. injection Hr as <-.
  rewrite !nth_error_map, Hraw. split; reflexivity.
Qed.

Lemma pam_length (pam : string) : In pam pams -> String.length pam = 3%nat.
Proof. cbn. intros [<-|[<-|[<-|[<-|[]]]]]; reflexivity. Qed.

Lemma koike_pam_nonneg (O : set_order) (ds : Table) (seq_col : Z) (p : Z) :
  koike_pam O ds seq_col = Return p -> (0 <= p)%Z.
Proof.
  unfold koike_pam.
  destruct (column ds (seq_col - 1)) as [col|e]; cbn [lift obind]; [|discriminate].
  destruct (texts col) as [raw|e]; cbn [obind]; [|discriminate].
  intros H. now apply (find_pam_outcomes O (map upper raw)) in H.
Qed.

Definition koike_example : Table :=
  {| width := 3;
     rows := [[Str "acgtacgtacgtacgtacgtacgtaggtca"; Num 1; Num 3]] |}.

(** A lowercase letter of the ASCII range. *)
Definition lowercase (c : ascii) : Prop :=
  (97 <= nat_of_ascii c <= 122)%nat.

Lemma upper_char_capital (c : ascii) : ~ lowercase (upper_char c).
Proof.
  unfold lowercase, upper_char.
  destruct ((97 <=? nat_of_ascii c) && (nat_of_ascii c <=? 122))%nat eqn:E.
  - apply andb_prop in E. destruct E as [E1 E2].
    apply Nat.leb_le in E1, E2.
    rewrite nat_ascii_embedding by lia. lia.
  - intros [H1 H2].
    apply Nat.leb_le in H1, H2. rewrite H1, H2 in E. discriminate.
Qed.

Lemma upper_capital (s : string) (c : ascii) :
  In c (list_ascii_of_string (upper s)) -> ~ lowercase c.
Proof.
  induction s as [|c0 t IH]; simpl; [tauto|].
  intros [<-|H]; [apply upper_char_capital|now apply IH].
Qed.

Lemma substring_member (n m : nat) (s : string) (c : ascii) :
  In c (list_ascii_of_string (substring n m s)) ->
  In c (list_ascii_of_string s).
Proof.
  revert n m. induction s as [|c0 t IH]; intros n m.
  - destruct n, m; simpl; tauto.
  - destruct n as [|n]; simpl.
    + destruct m as [|m]; simpl; [tauto|].
      intros [<-|H]; [now left|right; now apply (IH 0%nat m)].
    + intros H. right. now apply (IH n m).
Qed.

(** X20: when the PAM index the call has found is at least 24 and a sequence
    reaches six characters beyond it, the call returns for that row a
    23-character and a 30-character sequence, cut from the sequence put in
    capitals at 20 and 24 characters before the PAM index: neither holds a
    lowercase letter; the first is the part of the second that begins at
    its fifth character, and it ends with the motif whenever the first
    occurrence of a motif in that sequence is at the PAM index. *)
Theorem extract_koike_yusa_placed (O : set_order) (ds : Table)
    (seq_col rep1_col rep2_col : Z) (l23 l30 : list string) (le : list R)
    (p : Z) (i : nat) (row : Row) (s : string) :
  extract_koike_yusa O ds seq_col rep1_col rep2_col = Return (l23, l30, le) ->
  koike_pam O ds seq_col = Return p ->
  nth_error (rows ds) i = Some row ->
  py_index row (seq_col - 1) = Ok (Str s) ->
  (24 <= p)%Z -> (p + 6 <= Z.of_nat (String.length s))%Z ->
  exists s23 s30,
    nth_error l23 i = Some s23 /\ nth_error l30 i = Some s30
    /\ s23 = substring (Z.to_nat (p - 20)) 23 (upper s)
    /\ s30 = substring (Z.to_nat (p - 24)) 30 (upper s)
    /\ (forall c, In c (list_ascii_of_string s23)
                  \/ In c (list_ascii_of_string s30) -> ~ lowercase c)
    /\ String.length s23 = 23%nat /\ String.length s30 = 30%nat
    /\ s23 = substring 4 23 s30
    /\ (forall pam, In pam pams -> find (upper s) pam = p ->
          substring 20 3 s23 = pam).
Proof.
  intros H Hp Hrow Hs H24 Hlen.
  destruct (extract_koike_yusa_row _ _ _ _ _ _ _ _ _ _ _ _ H Hp Hrow Hs)
    as [E23 E30].
  pose proof (upper_length s) as Hu.
  rewrite slice_inside in E23, E30 by lia.
  replace (Z.to_nat (p + 3 - (p - 20))) with 23%nat in E23 by lia.
  replace (Z.to_nat (p + 6 - (p - 24))) with 30%nat in E30 by lia.
  eexists _, _. split; [exact E23|]. split; [exact E30|].
  split; [reflexivity|]. split; [reflexivity|].
  split.
  { intros c [Hc|Hc]; apply substring_member in Hc;
      exact (upper_capital s c Hc). }
  split; [apply substring_length; lia|].
  split; [apply substring_length; lia|].
  split; [rewrite substring_of_substring by lia; f_equal; lia|].
  intros pam Hpam Hf. rewrite substring_of_substring by lia.
  replace (Z.to_nat (p - 20) + 20)%nat with (Z.to_nat p) by lia.
  destruct (find_position _ _ _ Hf) as [_ Hsub]; [lia|].
  now rewrite (pam_length pam Hpam) in Hsub.
Qed.

Lemma extract_koike_yusa_placed_witness :
  exists s23 s30,
    nth_error ["ACGTACGTACGTACGTACGTAGG"%string] 0 = Some s23
    /\ nth_error ["ACGTACGTACGTACGTACGTACGTAGGTCA"%string] 0 = Some s30
    /\ s23 = substring (Z.to_nat (24 - 20)) 23
               (upper "acgtacgtacgtacgtacgtacgtaggtca")
    /\ s30 = substring (Z.to_nat (24 - 24)) 30
               (upper "acgtacgtacgtacgtacgtacgtaggtca")
    /\ (forall c, In c (list_ascii_of_string s23)
                  \/ In c (list_ascii_of_string s30) -> ~ lowercase c)
    /\ String.length s23 = 23%nat /\ String.length s30 = 30%nat
    /\ s23 = substring 4 23 s30
    /\ (forall pam, In pam pams ->
          find (upper "acgtacgtacgtacgtacgtacgtaggtca") pam = 24%Z ->
          substring 20 3 s23 = pam).
Proof.
  apply (extract_koike_yusa_placed last_seen koike_example 1 2 3 _ _
           [(- (1) + - (3)) / 2] 24 0
           [Str "acgtacgtacgtacgtacgtacgtaggtca"; Num 1; Num 3]).
  - reflexivity.
  - reflexivity.
  - reflexivity.
  - reflexivity.
  - lia.
  - vm_compute. discriminate.
Defined.

(** X21: a PAM index below 20 is not reported: the 23-character sequence of
    every row whose sequence has at least 23 characters is empty, and so is
    the 30-character sequence of every row with at least 30 characters when
    the index is below 24. *)
Theorem extract_koike_yusa_wrapped (O : set_order) (ds : Table)
    (seq_col rep1_col rep2_col : Z) (l23 l30 : list string) (le : list R)
    (p : Z) (i : nat) (row : Row) (s : string) :
  extract_koike_yusa O ds seq_col rep1_col rep2_col = Return (l23, l30, le) ->
  koike_pam O ds seq_col = Return p ->
  nth_error (rows ds) i = Some row ->
  py_index row (seq_col - 1) = Ok (Str s) ->
  ((p < 20)%Z -> (23 <= String.length s)%nat ->
   nth_error l23 i = Some ""%string)
  /\ ((p < 24)%Z -> (30 <= String.length s)%nat ->
      nth_error l30 i = Some ""%string).
Proof.
  intros H Hp Hrow Hs.
  destruct (extract_koike_yusa_row _ _ _ _ _ _ _ _ _ _ _ _ H Hp Hrow Hs)
    as [E23 E30].
  pose proof (koike_pam_nonneg _ _ _ _ Hp) as H0.
  pose proof (upper_length s) as Hu.
  split; intros Hlt Hlen.
  - rewrite E23. f_equal. apply slice_wrapped; lia.
  - rewrite E30. f_equal. apply slice_wrapped; lia.
Qed.

Definition koike_short : Table :=
  {| width := 3;
     rows := [[Str "acgtaggtacgtacgtacgtacgtacgtca"; Num 1; Num 3]] |}.

Lemma extract_koike_yusa_wrapped_witness :
  ((4 < 20)%Z -> (23 <= String.length "acgtaggtacgtacgtacgtacgtacgtca")%nat ->
   nth_error [""%string] 0 = Some ""%string)
  /\ ((4 < 24)%Z -> (30 <= String.length "acgtaggtacgtacgtacgtacgtacgtca")%nat ->
      nth_error [""%string] 0 = Some ""%string).
Proof.
  apply (extract_koike_yusa_wrapped last_seen koike_short 1 2 3 _ _
           [(- (1) + - (3)) / 2] 4 0
           [Str "acgtaggtacgtacgtacgtacgtacgtca"; Num 1; Num 3]).
  - reflexivity.
  - reflexivity.
  - reflexivity.
  - reflexivity.
Defined.



Lemma py_index_raise {A : Type} (l : list A) (c : Z) (e : exn) :
  py_index l c = Raise e -> e = IndexError.
Proof.
  unfold py_index. destruct (_ && _)%bool; [|congruence].
  destruct (nth_error l _); congruence.
Qed.

Lemma column_raise (ds : Table) (c : Z) (e : exn) :
  column ds c = Raise e -> e = IndexError.
Proof.
  unfold column. destruct (_ && _)%bool; [|congruence].
  induction (rows ds) as [|row t IH]; simpl; [discriminate|].
  destruct (py_index row c) as [x|e0] eqn:E; simpl.
  - destruct (mapM (fun r => py_index r c) t); simpl; [discriminate|].
    intros [= <-]. now apply IH.
  - intros [= <-]. exact (py_index_raise _ _ _ E).
Qed.

Lemma omap_raise {A B : Type} (f : A -> outcome B) (l : list A) (e : failure) :
  omap f l = Throw e -> exists x, In x l /\ f x = Throw e.
Proof.
  induction l as [|x t IH]; simpl; [discriminate|].
  destruct (f x) as [y|e0] eqn:E; simpl.
  - destruct (omap f t); simpl; [discriminate|]. intros [= <-].
    destruct IH as [x' [Hx Hf]]; [reflexivity|]. exists x'. auto.
  - intros [= <-]. exists x. auto.
Qed.

(** X23: the exceptions of [extract_koike_yusa].  A call that fails raises
    [IndexError] (a column position outside the frame), [AttributeError] (a
    number in the sequence column), [ValueError] (no motif in any sequence),
    or [TypeError] (text in a replicate column), and never the exception
    that [find_pam] keeps for differing PAM indices. *)
Theorem extract_koike_yusa_failures (O : set_order) (ds : Table)
    (seq_col rep1_col rep2_col : Z) (f : failure) :
  extract_koike_yusa O ds seq_col rep1_col rep2_col = Throw f ->
  f = Builtin IndexError \/ f = AttributeError \/ f = Builtin ValueError
  \/ f = TypeError.
Proof.
  unfold extract_koike_yusa.
  destruct (column ds (seq_col - 1)) as [col|e] eqn:Ec; cbn [lift obind].
  2:{ intros [= <-]. left. f_equal. exact (column_raise _ _ _ Ec). }
  destruct (texts col) as [raw|e] eqn:Et; cbn [obind].
  2:{ intros [= <-]. right; left.
      destruct (omap_raise _ _ _ Et) as [[t|r] [_ Hx]]; cbn in Hx; congruence. }
  destruct (find_pam O (map upper raw)) as [p|e] eqn:Ep; cbn [obind].
  2:{ intros [= <-]. right; right; left.
      now apply (find_pam_outcomes O (map upper raw)). }
  destruct (column ds (rep1_col - 1)) as [c1|e] eqn:E1; cbn [lift obind].
  2:{ intros [= <-]. left. f_equal. exact (column_raise _ _ _ E1). }
  destruct (omap negated c1) as [e1|e] eqn:N1; cbn [obind].
  2:{ intros [= <-]. right; right; right.
      destruct (omap_raise _ _ _ N1) as [[t|r] [_ Hx]]; cbn in Hx; congruence. }
  destruct (column ds (rep2_col - 1)) as [c2|e] eqn:E2; cbn [lift obind].
  2:{ intros [= <-]. left. f_equal. exact (column_raise _ _ _ E2). }
  destruct (omap negated c2) as [e2|e] eqn:N2; cbn [obind].
  2:{ intros [= <-]. right; right; right.
      destruct (omap_raise _ _ _ N2) as [[t|r] [_ Hx]]; cbn in Hx; congruence. }
  discriminate.
Qed.

Definition koike_numeric : Table :=
  {| width := 3; rows := [[Num 7; Num 1; Num 3]] |}.

Lemma extract_koike_yusa_failures_witness :
  AttributeError = Builtin IndexError \/ AttributeError = AttributeError
  \/ AttributeError = Builtin ValueError \/ AttributeError = TypeError.
Proof.
  exact (extract_koike_yusa_failures last_seen koike_numeric 1 2 3
           AttributeError eq_refl).
Defined.

End Processing.
